(** * The Fe-statistic of [enterprise_extensions.frequentist.Fe_statistic]

    A shallow embedding of [FeStat], [innerProduct_rr] and [make_Nmat].

    Scalars are idealised: a NumPy float is a real number, so rounding,
    overflow, [inf] and [nan] are outside the model.  Arrays keep what
    NumPy keeps: a one-dimensional array is the list of its entries, a
    two-dimensional array is its column count together with the list of
    its rows (the column count survives when there is no row).  Every
    NumPy or SciPy call that can raise returns a [result]. *)

From Stdlib Require Import Reals Lra Lia List Bool Arith.
Import ListNotations.

Local Open Scope R_scope.

(** ** Exceptions and results *)

(** The exception classes that the modelled calls raise.
    [ShapeMismatchError] is the class that the specification names for
    malformed input; it is listed so that statements can mention it. *)
Inductive exn : Type :=
| LinAlgError
| ValueError
| IndexError
| TypeError
| ShapeMismatchError.

Inductive result (A : Type) : Type :=
| Ok (a : A)
| Err (e : exn).

Arguments Ok {A} a.
Arguments Err {A} e.

Definition bind {A B : Type} (m : result A) (k : A -> result B) : result B :=
  match m with
  | Ok a => k a
  | Err e => Err e
  end.

Notation "x <- m ;; k" := (bind m (fun x => k))
  (at level 61, m at next level, right associativity).

Definition rmap {A B : Type} (f : A -> B) (m : result A) : result B :=
  match m with
  | Ok a => Ok (f a)
  | Err e => Err e
  end.

(** Runs [f] over a list from left to right and stops at the first
    exception, as a Python loop or list comprehension does. *)
Fixpoint mapM {A B : Type} (f : A -> result B) (l : list A) : result (list B) :=
  match l with
  | [] => Ok []
  | a :: l' => b <- f a ;; bs <- mapM f l' ;; Ok (b :: bs)
  end.

(** ** One-dimensional arrays *)

Abbreviation Vec := (list R).

Fixpoint map2 {A B C : Type} (f : A -> B -> C) (l1 : list A) (l2 : list B) : list C :=
  match l1, l2 with
  | a :: l1', b :: l2' => f a b :: map2 f l1' l2'
  | _, _ => []
  end.

Definition zeros (n : nat) : Vec := repeat 0 n.

Definition vadd (x y : Vec) : Vec := map2 Rplus x y.
Definition vsub (x y : Vec) : Vec := map2 Rminus x y.
Definition vmul (x y : Vec) : Vec := map2 Rmult x y.
Definition scale (c : R) (x : Vec) : Vec := map (Rmult c) x.

(** The sum of the products of corresponding entries. *)
Fixpoint dot (x y : Vec) : R :=
  match x, y with
  | a :: x', b :: y' => a * b + dot x' y'
  | _, _ => 0
  end.

(** ** Two-dimensional arrays *)

Record Mat : Type := mkMat { ncols : nat; rows : list Vec }.

Definition nrows (M : Mat) : nat := length (rows M).

(** Every row of a NumPy array has [ncols] entries. *)
Definition wf_mat (M : Mat) : Prop := Forall (fun r => length r = ncols M) (rows M).

Definition has_shape (M : Mat) (r c : nat) : Prop :=
  nrows M = r /\ ncols M = c /\ wf_mat M.

(** The columns of a list of rows that have [c] entries each. *)
Fixpoint cols (c : nat) (rs : list Vec) : list Vec :=
  match rs with
  | [] => repeat [] c
  | r :: rs' => map2 cons r (cols c rs')
  end.

(** [M.T] *)
Definition transpose (M : Mat) : Mat := mkMat (nrows M) (cols (ncols M) (rows M)).

Definition mat_vec (M : Mat) (x : Vec) : Vec := map (fun r => dot r x) (rows M).
Definition vec_mat (x : Vec) (M : Mat) : Vec := map (fun c => dot x c) (cols (ncols M) (rows M)).
Definition mat_mat (A B : Mat) : Mat :=
  mkMat (ncols B) (map (fun r => vec_mat r B) (rows A)).

(** [np.eye(n)] *)
Fixpoint eye_rows (n : nat) : list Vec :=
  match n with
  | O => []
  | S n' => (1 :: zeros n') :: map (cons 0) (eye_rows n')
  end.

Definition eye (n : nat) : Mat := mkMat n (eye_rows n).

(** [np.diag(v)] for a one-dimensional [v] *)
Fixpoint diag_rows (v : Vec) : list Vec :=
  match v with
  | [] => []
  | a :: v' => (a :: zeros (length v')) :: map (cons 0) (diag_rows v')
  end.

Definition np_diag (v : Vec) : Mat := mkMat (length v) (diag_rows v).

(** *** [np.dot] with its shape checks *)

Definition np_dot_vv (x y : Vec) : result R :=
  if Nat.eqb (length x) (length y) then Ok (dot x y) else Err ValueError.

Definition np_dot_vm (x : Vec) (M : Mat) : result Vec :=
  if Nat.eqb (length x) (nrows M) then Ok (vec_mat x M) else Err ValueError.

Definition np_dot_mv (M : Mat) (x : Vec) : result Vec :=
  if Nat.eqb (ncols M) (length x) then Ok (mat_vec M x) else Err ValueError.

Definition np_dot_mm (A B : Mat) : result Mat :=
  if Nat.eqb (ncols A) (nrows B) then Ok (mat_mat A B) else Err ValueError.

(** *** Elementwise arithmetic of two-dimensional arrays, with broadcasting *)

(** NumPy's rule for one axis: equal lengths, or one of them is [1]. *)
Definition broadcast_dim (a b : nat) : result nat :=
  if Nat.eqb a b then Ok a
  else if Nat.eqb a 1 then Ok b
  else if Nat.eqb b 1 then Ok a
  else Err ValueError.

(** Repeats the only entry of a one-entry list [n] times; other lists
    are left alone. *)
Definition stretch {A : Type} (n : nat) (l : list A) : list A :=
  match l with
  | [a] => repeat a n
  | _ => l
  end.

Definition broadcast2 (op : R -> R -> R) (A B : Mat) : result Mat :=
  r <- broadcast_dim (nrows A) (nrows B) ;;
  c <- broadcast_dim (ncols A) (ncols B) ;;
  let ra := stretch r (map (stretch c) (rows A)) in
  let rb := stretch r (map (stretch c) (rows B)) in
  Ok (mkMat c (map2 (map2 op) ra rb)).

Definition np_add : Mat -> Mat -> result Mat := broadcast2 Rplus.
Definition np_sub : Mat -> Mat -> result Mat := broadcast2 Rminus.

(** ** SciPy's Cholesky routines *)

(** Every entry of a real array is finite, so [asarray_chkfinite], which
    [check_finite=True] runs, accepts every array of the model. *)
Definition isfinite (x : R) : bool := true.

Definition all_finite (M : Mat) : bool := forallb (forallb isfinite) (rows M).

(** What [cho_solve] reads of the array that [cho_factor] returns with
    [lower=False]: the upper triangle [U] with [U^T U = a], row by row,
    each row as its diagonal entry and the entries to the right of it. *)
Definition factor : Type := list (R * Vec).

(** The Schur complement [C - u^T u] of the leading entry. *)
Definition schur (u : Vec) (C : list Vec) : list Vec :=
  map2 (fun ui Ci => vsub Ci (scale ui u)) u C.

(** LAPACK's [potrf] on the upper triangle of an [n] by [n] array: it
    stops with a positive [info], which SciPy turns into [LinAlgError],
    at the first pivot that is not positive. *)
Fixpoint potrf (n : nat) (a : list Vec) : result factor :=
  match n with
  | O => Ok []
  | S n' =>
      match a with
      | (a00 :: r) :: rest =>
          if Rlt_dec 0 a00 then
            let l := sqrt a00 in
            let u := map (fun v => v / l) r in
            U <- potrf n' (schur u (map (@tl R) rest)) ;;
            Ok ((l, u) :: U)
          else Err LinAlgError
      | _ => Err ValueError
      end
  end.

(** [scipy.linalg.cho_factor(a, check_finite=...)] *)
Definition cho_factor (a : Mat) (check_finite : bool) : result factor :=
  if check_finite && negb (all_finite a) then Err ValueError
  else if negb (Nat.eqb (nrows a) (ncols a)) then Err ValueError
  else potrf (nrows a) (rows a).

(** Forward substitution: the [y] with [U^T y = b]. *)
Fixpoint forward_subst (U : factor) (b : Vec) : Vec :=
  match U, b with
  | (l, u) :: U', b0 :: b' =>
      let y0 := b0 / l in
      y0 :: forward_subst U' (vsub b' (scale y0 u))
  | _, _ => []
  end.

(** Back substitution: the [x] with [U x = y]. *)
Fixpoint back_subst (U : factor) (y : Vec) : Vec :=
  match U, y with
  | (l, u) :: U', y0 :: y' =>
      let x' := back_subst U' y' in
      (y0 - dot u x') / l :: x'
  | _, _ => []
  end.

(** LAPACK's [potrs] on one right-hand side. *)
Definition potrs (cf : factor) (b : Vec) : Vec := back_subst cf (forward_subst cf b).

(** [scipy.linalg.cho_solve(cf, b, check_finite=...)] for a
    one-dimensional [b] *)
Definition cho_solve (cf : factor) (b : Vec) (check_finite : bool) : result Vec :=
  if check_finite && negb (forallb isfinite b) then Err ValueError
  else if negb (Nat.eqb (length cf) (length b)) then Err ValueError
  else Ok (potrs cf b).

(** [scipy.linalg.cho_solve(cf, b, check_finite=...)] for a
    two-dimensional [b]: every column is a right-hand side. *)
Definition cho_solve_mat (cf : factor) (b : Mat) (check_finite : bool) : result Mat :=
  if check_finite && negb (all_finite b) then Err ValueError
  else if negb (Nat.eqb (length cf) (nrows b)) then Err ValueError
  else Ok (mkMat (ncols b)
             (cols (length cf) (map (potrs cf) (cols (ncols b) (rows b))))).

(** ** [innerProduct_rr] *)

(** The values that the guard [TNx == None and TNy == None] handles: a
    Python [bool], or the boolean array of an elementwise comparison. *)
Inductive pyval : Type :=
| PyBool (b : bool)
| PyBoolArray (l : list bool).

(** [v == None]: [True] for [None]; an array is compared entry by
    entry, and no entry equals [None]. *)
Definition eq_None (v : option Vec) : pyval :=
  match v with
  | None => PyBool true
  | Some a => PyBoolArray (map (fun _ => false) a)
  end.

(** [bool(v)]: an array of more than one entry has no truth value. *)
Definition truth (v : pyval) : result bool :=
  match v with
  | PyBool b => Ok b
  | PyBoolArray [] => Ok false
  | PyBoolArray [b] => Ok b
  | PyBoolArray _ => Err ValueError
  end.

(** [a and b] *)
Definition py_and (a b : pyval) : result pyval :=
  t <- truth a ;; Ok (if t then b else a).

(** The condition of [if TNx == None and TNy == None:] *)
Definition none_guard (TNx TNy : option Vec) : result bool :=
  g <- py_and (eq_None TNx) (eq_None TNy) ;; truth g.

Definition innerProduct_rr (x y : Vec) (Nmat Tmat Sigma : Mat)
    (TNx TNy : option Vec) (brave : bool) : result R :=
  let Ni := Nmat in
  xNi <- np_dot_vm x Ni ;;
  xNy <- np_dot_vv xNi y ;;
  Nx <- np_dot_mv Ni x ;;
  Ny <- np_dot_mv Ni y ;;
  c <- none_guard TNx TNy ;;
  TN <- (if c then
           tnx <- np_dot_mv (transpose Tmat) Nx ;;
           tny <- np_dot_mv (transpose Tmat) Ny ;;
           Ok (Some tnx, Some tny)
         else Ok (TNx, TNy)) ;;
  cf <- cho_factor Sigma (negb brave) ;;
  SigmaTNy <- match snd TN with
              | Some tny => cho_solve cf tny (negb brave)
              | None => Err IndexError
              end ;;
  d <- match fst TN with
       | Some tnx => np_dot_vv tnx SigmaTNy
       | None => Err TypeError
       end ;;
  Ok (xNy - d).

(** ** [make_Nmat] *)

(** The noise descriptor of a pulsar: [solve other left_array] is
    [Nvec.solve(other=..., left_array=...)]. *)
Record NoiseDescriptor : Type := mkNoise { solve : Mat -> Mat -> Mat }.

(** [phiinv] is one-dimensional or two-dimensional. *)
Inductive Phiinv : Type :=
| Phi1 (v : Vec)
| Phi2 (m : Mat).

(** [np.diag(phiinv) if phiinv.ndim == 1 else phiinv] *)
Definition phi_dense (phiinv : Phiinv) : Mat :=
  match phiinv with
  | Phi1 v => np_diag v
  | Phi2 m => m
  end.

Definition make_Nmat (phiinv : Phiinv) (TNT : Mat) (Nvec : NoiseDescriptor) (T : Mat)
    : result Mat :=
  Sigma <- np_add TNT (phi_dense phiinv) ;;
  cf <- cho_factor Sigma true ;;
  let Nshape := nrows T in
  let TtN := solve Nvec (eye Nshape) T in
  let Ndiag := solve Nvec (eye Nshape) (eye Nshape) in
  expval2 <- cho_solve_mat cf TtN true ;;
  corr <- np_dot_mm (transpose TtN) expval2 ;;
  np_sub Ndiag corr.

(** ** The class [FeStat] *)

(** What the code reads of an [enterprise] pulsar. *)
Record Pulsar : Type := mkPulsar { toas : Vec; residuals : Vec; pos : Vec }.

(** Index assignment [l[i] = v]; Python raises [IndexError] out of
    range. *)
Fixpoint set_nth {A : Type} (i : nat) (v : A) (l : list A) : result (list A) :=
  match l, i with
  | [], _ => Err IndexError
  | _ :: l', O => Ok (v :: l')
  | a :: l', S i' => rmap (cons a) (set_nth i' v l')
  end.

(** In-place update [l[i] = f(l[i])], as [l[i] *= w] does. *)
Fixpoint modify_nth {A : Type} (i : nat) (f : A -> A) (l : list A) : result (list A) :=
  match l, i with
  | [], _ => Err IndexError
  | a :: l', O => Ok (f a :: l')
  | a :: l', S i' => rmap (cons a) (modify_nth i' f l')
  end.

(** [v[i]] for a one-dimensional array *)
Definition get_nth (v : Vec) (i : nat) : result R :=
  match nth_error v i with
  | Some a => Ok a
  | None => Err IndexError
  end.

(** [1 / f0 ** (1 / 3)], for a positive frequency *)
Definition amplitude (f0 : R) : R := 1 / Rpower f0 (1 / 3).

Definition sin_row (f0 : R) (t : Vec) : Vec :=
  map (fun ti => amplitude f0 * sin (2 * PI * f0 * ti)) t.

Definition cos_row (f0 : R) (t : Vec) : Vec :=
  map (fun ti => amplitude f0 * cos (2 * PI * f0 * ti)) t.

(** The array [A] of [compute_Fe] after its four row assignments. *)
Definition signal_templates (f0 : R) (t : Vec) : list Vec :=
  [sin_row f0 t; cos_row f0 t; sin_row f0 t; cos_row f0 t].

(** [A[i, :]] for [i] below four *)
Definition row (A : list Vec) (i : nat) : Vec := nth i A [].

(** The rows of an all-zero 4 by 4 block. *)
Definition zero_block : list Vec := repeat (zeros 4) 4.

(** The weights [[F_p, F_p, F_c, F_c]] and their 4 by 4 pattern. *)
Definition pattern_vec (F_p F_c : R) : Vec := [F_p; F_p; F_c; F_c].

Definition pattern_block (F_p F_c : R) : list Vec :=
  [ [F_p ^ 2; F_p ^ 2; F_p * F_c; F_p * F_c];
    [F_p ^ 2; F_p ^ 2; F_p * F_c; F_p * F_c];
    [F_p * F_c; F_p * F_c; F_c ^ 2; F_c ^ 2];
    [F_p * F_c; F_p * F_c; F_c ^ 2; F_c ^ 2] ].

(** [np.sum(NN, axis=0)] and [np.sum(MM, axis=0)] *)
Definition sum_rows (NN : list Vec) : Vec := fold_right vadd (zeros 4) NN.

Definition sum_blocks (MM : list (list Vec)) : list Vec :=
  fold_right (map2 vadd) zero_block MM.

(** The inner products of one pulsar: the row [N[idx, :]] and the block
    [M[idx, :, :]]. *)
Definition pulsar_products (f0 : R) (brave : bool)
    (psr : Pulsar) (Nmat TNT : Mat) (phiinv : Phiinv) (T : Mat)
    : result (Vec * list Vec) :=
  Sigma <- np_add TNT (phi_dense phiinv) ;;
  let A := signal_templates f0 (toas psr) in
  ip1 <- innerProduct_rr (row A 0) (residuals psr) Nmat T Sigma None None brave ;;
  ip2 <- innerProduct_rr (row A 1) (residuals psr) Nmat T Sigma None None brave ;;
  ip3 <- innerProduct_rr (row A 2) (residuals psr) Nmat T Sigma None None brave ;;
  ip4 <- innerProduct_rr (row A 2) (residuals psr) Nmat T Sigma None None brave ;;
  Mb <- mapM (fun jj =>
          mapM (fun kk =>
            innerProduct_rr (row A jj) (row A kk) Nmat T Sigma None None brave)
            (seq 0 4))
          (seq 0 4) ;;
  Ok ([ip1; ip2; ip3; ip4], Mb).

(** The loop over [enumerate(zip(psrs, Nmats, TNTs, phiinvs, Ts))],
    from index [idx] on. *)
Fixpoint pulsar_loop (f0 : R) (brave : bool) (idx : nat)
    (l : list (Pulsar * Mat * Mat * Phiinv * Mat))
    (N : list Vec) (M : list (list Vec)) : result (list Vec * list (list Vec)) :=
  match l with
  | [] => Ok (N, M)
  | (psr, Nmat, TNT, phiinv, T) :: l' =>
      p <- pulsar_products f0 brave psr Nmat TNT phiinv T ;;
      N' <- set_nth idx (fst p) N ;;
      M' <- set_nth idx (snd p) M ;;
      pulsar_loop f0 brave (S idx) l' N' M'
  end.

Section FeStat.

(** The noise-parameter mapping, opaque to the class. *)
Variable Params : Type.

(** [get_phiinv]'s keyword [method]; ['cliques'] is its default. *)
Inductive phi_method : Type := cliques | partition.

(** The methods of the [enterprise] model object that the class calls.
    [get_basis] is called with and without parameters. *)
Record PTA : Type := mkPTA {
  get_TNT : Params -> list Mat;
  get_phiinv : Params -> phi_method -> list Phiinv;
  get_ndiag : Params -> list NoiseDescriptor;
  get_basis : option Params -> list Mat
}.

(** [models.model_cw(psrs, noisedict=params, ...)] with the fixed
    keywords of [__init__] *)
Variable model_cw : list Pulsar -> Params -> PTA.

(** [utils.create_gw_antenna_pattern(pos, gwtheta, gwphi)] *)
Variable create_gw_antenna_pattern : Vec -> R -> R -> R * R * R.

(** [np.linalg.pinv] *)
Variable pinv : Mat -> Mat.

Record FeStat : Type := mkFeStat {
  pta : PTA;
  psrs : list Pulsar;
  params : Params;
  Nmats : option (list Mat)
}.

(** [FeStat(psrs, params)] *)
Definition init (ps : list Pulsar) (pr : Params) : FeStat :=
  mkFeStat (model_cw ps pr) ps pr None.

(** [self.Nmats = v] *)
Definition set_Nmats (self : FeStat) (v : list Mat) : FeStat :=
  mkFeStat (pta self) (psrs self) (params self) (Some v).

Definition get_Nmats (self : FeStat) : result (list Mat) :=
  let TNTs := get_TNT (pta self) (params self) in
  let phiinvs := get_phiinv (pta self) (params self) partition in
  let Nvecs := get_ndiag (pta self) (params self) in
  let Ts := get_basis (pta self) (Some (params self)) in
  mapM (fun q : Phiinv * Mat * NoiseDescriptor * Mat =>
          let '(phiinv, TNT, Nvec, T) := q in make_Nmat phiinv TNT Nvec T)
       (combine (combine (combine phiinvs TNTs) Nvecs) Ts).

(** The loop over [enumerate(self.psrs)] at one sky position, from
    index [idx] on. *)
Fixpoint antenna_loop (gw_pos : Vec) (idx : nat) (ps : list Pulsar)
    (NN : list Vec) (MM : list (list Vec)) : result (list Vec * list (list Vec)) :=
  match ps with
  | [] => Ok (NN, MM)
  | psr :: ps' =>
      theta <- get_nth gw_pos 0 ;;
      phi <- get_nth gw_pos 1 ;;
      let '(F_p, F_c, _) := create_gw_antenna_pattern (pos psr) theta phi in
      NN' <- modify_nth idx (fun v => vmul v (pattern_vec F_p F_c)) NN ;;
      MM' <- modify_nth idx (fun b => map2 vmul b (pattern_block F_p F_c)) MM ;;
      antenna_loop gw_pos (S idx) ps' NN' MM'
  end.

(** The body of the loop over the sky positions: the value stored in
    [fstat[j]]. *)
Definition sky_point (ps : list Pulsar) (N : list Vec) (M : list (list Vec))
    (gw_pos : Vec) : result R :=
  NM <- antenna_loop gw_pos 0 ps N M ;;
  let N_sum := sum_rows (fst NM) in
  let M_sum := mkMat 4 (sum_blocks (snd NM)) in
  let Minv := pinv M_sum in
  v <- np_dot_mv Minv N_sum ;;
  d <- np_dot_vv N_sum v ;;
  Ok (0.5 * d).

(** The loop over [enumerate(gw_skyloc.T)], from index [j] on. *)
Fixpoint sky_loop (ps : list Pulsar) (N : list Vec) (M : list (list Vec))
    (j : nat) (positions : list Vec) (fstat : Vec) : result Vec :=
  match positions with
  | [] => Ok fstat
  | gw_pos :: positions' =>
      s <- sky_point ps N M gw_pos ;;
      fstat' <- set_nth j s fstat ;;
      sky_loop ps N M (S j) positions' fstat'
  end.

(** The lazy guard of [compute_Fe]:
    [if self.Nmats == None: self.Nmats = self.get_Nmats()].  A list is
    never equal to [None]. *)
Definition ensure_Nmats (self : FeStat) : result (list Mat) * FeStat :=
  match Nmats self with
  | None =>
      match get_Nmats self with
      | Ok v => (Ok v, set_Nmats self v)
      | Err e => (Err e, self)
      end
  | Some v => (Ok v, self)
  end.

(** [zip(self.psrs, self.Nmats, TNTs, phiinvs, Ts)], which stops at
    the shortest of the five. *)
Definition zipped (self : FeStat) (nmats : list Mat)
    : list (Pulsar * Mat * Mat * Phiinv * Mat) :=
  let phiinvs := get_phiinv (pta self) (params self) cliques in
  let TNTs := get_TNT (pta self) (params self) in
  let Ts := get_basis (pta self) None in
  combine (combine (combine (combine (psrs self) nmats) TNTs) phiinvs) Ts.

(** The arrays [N] and [M] after the loop over the pulsars. *)
Definition per_pulsar (self : FeStat) (nmats : list Mat) (f0 : R) (brave : bool)
    : result (list Vec * list (list Vec)) :=
  let n_psr := length (psrs self) in
  pulsar_loop f0 brave 0 (zipped self nmats)
    (repeat (zeros 4) n_psr) (repeat zero_block n_psr).

(** The statements of [compute_Fe] after the guard, with the cache
    [nmats] in place. *)
Definition compute_Fe_body (self : FeStat) (nmats : list Mat)
    (f0 : R) (gw_skyloc : Mat) (brave : bool) : result Vec :=
  NM <- per_pulsar self nmats f0 brave ;;
  sky_loop (psrs self) (fst NM) (snd NM) 0
    (rows (transpose gw_skyloc)) (zeros (ncols gw_skyloc)).

(** [self.compute_Fe(f0, gw_skyloc, brave)]: what the call returns or
    raises, and the instance after it. *)
Definition compute_Fe (self : FeStat) (f0 : R) (gw_skyloc : Mat) (brave : bool)
    : result Vec * FeStat :=
  match ensure_Nmats self with
  | (Ok nmats, self') => (compute_Fe_body self' nmats f0 gw_skyloc brave, self')
  | (Err e, self') => (Err e, self')
  end.

(** *** The statistic in the words of the specification *)

(** The plus and cross coefficients of every pulsar at one sky
    position. *)
Definition antenna_coefficients (ps : list Pulsar) (theta phi : R) : list (R * R) :=
  map (fun psr =>
         let '(F_p, F_c, _) := create_gw_antenna_pattern (pos psr) theta phi in
         (F_p, F_c)) ps.

(** The weights [(F+, F+, Fx, Fx)] of a pulsar with coefficients
    [F = (F+, Fx)]. *)
Definition antenna_weights (F : R * R) : Vec := [fst F; fst F; snd F; snd F].

(** The outer product of two vectors: the entry at [(i, j)] is
    [u_i * v_j]. *)
Definition outer (u v : Vec) : list Vec := map (fun a => map (fun b => a * b) v) u.

(** A pulsar's N-vector scaled entry by entry by [(F+, F+, Fx, Fx)],
    and its M-matrix scaled entry by entry by the outer product of
    [(F+, F+, Fx, Fx)] with itself. *)
Definition weighted_N (F : R * R) (Np : Vec) : Vec :=
  map2 Rmult Np (antenna_weights F).

Definition weighted_M (F : R * R) (Mp : list Vec) : list Vec :=
  map2 (map2 Rmult) Mp (outer (antenna_weights F) (antenna_weights F)).

(** The sums over the pulsars, entry by entry, of the scaled N-vectors
    and of the scaled M-matrices. *)
Definition N_sum_at (ps : list Pulsar) (N : list Vec) (theta phi : R) : Vec :=
  fold_right (map2 Rplus) [0; 0; 0; 0]
    (map2 weighted_N (antenna_coefficients ps theta phi) N).

Definition M_sum_at (ps : list Pulsar) (M : list (list Vec)) (theta phi : R) : Mat :=
  mkMat 4
    (fold_right (map2 (map2 Rplus))
       [[0; 0; 0; 0]; [0; 0; 0; 0]; [0; 0; 0; 0]; [0; 0; 0; 0]]
       (map2 weighted_M (antenna_coefficients ps theta phi) M)).

(** [0.5 N_sum^T pinv(M_sum) N_sum] *)
Definition Fe_at (ps : list Pulsar) (N : list Vec) (M : list (list Vec))
    (theta phi : R) : R :=
  0.5 * dot (N_sum_at ps N theta phi)
            (mat_vec (pinv (M_sum_at ps M theta phi)) (N_sum_at ps N theta phi)).

(** The instance with every pulsar's residuals multiplied by [c], and
    the same model, parameters and cache. *)
Definition scale_psr (c : R) (psr : Pulsar) : Pulsar :=
  mkPulsar (toas psr) (scale c (residuals psr)) (pos psr).

Definition scale_residuals (c : R) (self : FeStat) : FeStat :=
  mkFeStat (pta self) (map (scale_psr c) (psrs self)) (params self) (Nmats self).

(** A sequence of calls [compute_Fe(f0, gw_skyloc, brave)] on one
    instance: the instance after the last of them. *)
Fixpoint run_calls (self : FeStat) (calls : list (R * Mat * bool)) : FeStat :=
  match calls with
  | [] => self
  | (f0, gw_skyloc, brave) :: calls' =>
      run_calls (snd (compute_Fe self f0 gw_skyloc brave)) calls'
  end.

(** The value of [self.Nmats] after each call of such a sequence. *)
Fixpoint cache_history (self : FeStat) (calls : list (R * Mat * bool))
    : list (option (list Mat)) :=
  match calls with
  | [] => []
  | (f0, gw_skyloc, brave) :: calls' =>
      Nmats (snd (compute_Fe self f0 gw_skyloc brave))
      :: cache_history (snd (compute_Fe self f0 gw_skyloc brave)) calls'
  end.

(** How many calls of such a sequence run [get_Nmats]: those that
    find [self.Nmats == None] on entry. *)
Fixpoint get_Nmats_runs (self : FeStat) (calls : list (R * Mat * bool)) : nat :=
  match calls with
  | [] => 0
  | (f0, gw_skyloc, brave) :: calls' =>
      (match Nmats self with None => 1 | Some _ => 0 end
       + get_Nmats_runs (snd (compute_Fe self f0 gw_skyloc brave)) calls')%nat
  end.

End FeStat.

Arguments mkPTA {Params}.
Arguments mkFeStat {Params}.
Arguments pta {Params}.
Arguments psrs {Params}.
Arguments params {Params}.
Arguments Nmats {Params}.
Arguments get_TNT {Params}.
Arguments get_phiinv {Params}.
Arguments get_ndiag {Params}.
Arguments get_basis {Params}.
Arguments init {Params}.
Arguments set_Nmats {Params}.
Arguments get_Nmats {Params}.
Arguments ensure_Nmats {Params}.
Arguments zipped {Params}.
Arguments per_pulsar {Params}.
Arguments compute_Fe_body {Params}.
Arguments compute_Fe {Params}.
Arguments scale_residuals {Params}.
Arguments run_calls {Params}.
Arguments cache_history {Params}.
Arguments get_Nmats_runs {Params}.

(** ** Notions that the statements use *)

(** [M.T == M] *)
Definition symmetric (M : Mat) : Prop := transpose M = M.

(** [x^T M x] *)
Definition quad_form (M : Mat) (x : Vec) : R := dot x (mat_vec M x).

Definition pos_def (M : Mat) : Prop :=
  forall x, length x = nrows M -> x <> zeros (nrows M) -> 0 < quad_form M x.

(** [Sinv] is the inverse of the [k] by [k] array [Sigma]. *)
Definition is_inverse (k : nat) (Sigma Sinv : Mat) : Prop :=
  has_shape Sinv k k /\ mat_mat Sinv Sigma = eye k.

(** The rows of a symmetric array, built from the last row up: below a
    first row [a :: r], the first column is [r] again and the rest is
    symmetric. *)
Inductive sym_rows : nat -> list Vec -> Prop :=
| sym_rows_nil : sym_rows 0 []
| sym_rows_cons (n : nat) (a : R) (r : Vec) (C : list Vec) :
    length r = n -> sym_rows n C -> sym_rows (S n) ((a :: r) :: map2 cons r C).

(** The triangle that [potrf] returns for an [n] by [n] array: positive
    diagonal entries, and [n - 1 - i] entries to the right of the
    [i]-th. *)
Fixpoint wf_factor (n : nat) (U : factor) : Prop :=
  match U with
  | [] => n = O
  | (l, u) :: U' => 0 < l /\ S (length u) = n /\ wf_factor (length u) U'
  end.

(** [x^T A x] for an array given by its rows *)
Definition quad_rows (rs : list Vec) (x : Vec) : R := dot x (map (fun r => dot r x) rs).

(** The inner product in the words of the specification:
    [x^T N^{-1} y - (T^T N^{-1} x)^T Sigma^{-1} (T^T N^{-1} y)], where
    [Ninv] acts as [N^{-1}] and [Sinv] is the inverse of [Sigma]. *)
Definition rank_reduced_product (x y : Vec) (Ninv T Sinv : Mat) : R :=
  dot x (mat_vec Ninv y)
  - dot (mat_vec (transpose T) (mat_vec Ninv x))
        (mat_vec Sinv (mat_vec (transpose T) (mat_vec Ninv y))).

(** The shape checks that the four [np.dot] calls before the guard and
    the two inside it make on [innerProduct_rr(x, y, Nmat, Tmat, ...)]. *)
Definition dot_shapes_ok (x y : Vec) (Nmat Tmat : Mat) : bool :=
  Nat.eqb (length x) (nrows Nmat) && Nat.eqb (ncols Nmat) (length y)
  && Nat.eqb (ncols Nmat) (length x) && Nat.eqb (nrows Tmat) (nrows Nmat).

(** The sum and the difference of two arrays of one shape, entry by
    entry. *)
Definition mat_add (A B : Mat) : Mat := mkMat (ncols A) (map2 vadd (rows A) (rows B)).
Definition mat_sub (A B : Mat) : Mat := mkMat (ncols A) (map2 vsub (rows A) (rows B)).

(** [Sigma] in the words of the specification: [TNT + diag(phiinv)] for
    a one-dimensional [phiinv], else [TNT + phiinv]. *)
Definition Sigma_of (TNT : Mat) (phiinv : Phiinv) : Mat :=
  match phiinv with
  | Phi1 v => mat_add TNT (np_diag v)
  | Phi2 m => mat_add TNT m
  end.

(** The array of the specification: [Ndiag - TtN^T Sigma^{-1} TtN]. *)
Definition marginalized_noise (Ndiag TtN Sinv : Mat) : Mat :=
  mat_sub Ndiag (mat_mat (transpose TtN) (mat_mat Sinv TtN)).

(** [phiinv] has [k] entries, or is [k] by [k]. *)
Definition phi_shape (phiinv : Phiinv) (k : nat) : Prop :=
  match phiinv with
  | Phi1 v => length v = k
  | Phi2 m => has_shape m k k
  end.

(** [pulsar_products] on one entry of the zipped list. *)
Definition products_of (f0 : R) (brave : bool) (q : Pulsar * Mat * Mat * Phiinv * Mat)
    : result (Vec * list Vec) :=
  let '(psr, Nmat, TNT, phiinv, T) := q in
  pulsar_products f0 brave psr Nmat TNT phiinv T.

(** A 4 by 4 block given by its rows. *)
Definition block_4x4 (b : list Vec) : Prop :=
  length b = 4%nat /\ Forall (fun r => length r = 4%nat) b.

(** ** Worked inputs *)

(** White noise of unit variance: [solve] is [left_array^T other]. *)
Definition white_noise : NoiseDescriptor :=
  mkNoise (fun other left_array => mat_mat (transpose left_array) other).

(** Two TOAs, two basis functions. *)
Definition ex2_x : Vec := [1; 2].
Definition ex2_y : Vec := [3; 5].
Definition ex2_Nmat : Mat := mkMat 2 [[2; 1]; [1; 3]].
Definition ex2_Tmat : Mat := mkMat 2 [[1; 0]; [1; 1]].
Definition ex2_Sigma : Mat := mkMat 2 [[2; 1]; [1; 2]].
Definition ex2_Sinv : Mat := mkMat 2 [[2 / 3; - (1 / 3)]; [- (1 / 3); 2 / 3]].

(** A symmetric array that is not positive definite. *)
Definition ex2_indefinite : Mat := mkMat 2 [[1; 2]; [2; 1]].

(** One pulsar with one TOA at time zero, one basis function, and the
    model arrays that go with it. *)
Definition ex_psr : Pulsar := mkPulsar [0] [1] [0; 0; 1].
Definition ex_one : Mat := mkMat 1 [[1]].
Definition ex_phiinv : Phiinv := Phi1 [3].
Definition ex_Sigma : Mat := mkMat 1 [[4]].
Definition ex_Sinv : Mat := mkMat 1 [[1 / 4]].
Definition ex_Nmat : Mat := mkMat 1 [[3 / 4]].

Definition ex_pta : PTA unit :=
  mkPTA (fun _ => [ex_one]) (fun _ _ => [ex_phiinv]) (fun _ => [white_noise])
        (fun _ => [ex_one]).

Definition ex_model_cw (ps : list Pulsar) (pr : unit) : PTA unit := ex_pta.

(** An antenna pattern with [F+ = Fx = 1] at every position. *)
Definition ex_antenna (p : Vec) (theta phi : R) : R * R * R := (1, 1, 0).

(** The arrays [N] and [M] of [ex_psr] at frequency one. *)
Definition ex_N : list Vec := [[0; 39 / 64; 0; 0]].

Definition ex_M : list (list Vec) :=
  [ [ [0; 0; 0; 0]; [0; 39 / 64; 0; 39 / 64]; [0; 0; 0; 0]; [0; 39 / 64; 0; 39 / 64] ] ].

(** The pseudo-inverse of the [M_sum] of [ex_psr] under [ex_antenna],
    returned for every argument. *)
Definition ex_pinv (M : Mat) : Mat :=
  mkMat 4 [ [0; 0; 0; 0]; [0; 16 / 39; 0; 16 / 39]; [0; 0; 0; 0]; [0; 16 / 39; 0; 16 / 39] ].

Definition ex_self : FeStat unit := init ex_model_cw [ex_psr] tt.

(** One sky position, [theta = 0] and [phi = 0]. *)
Definition ex_sky : Mat := mkMat 1 [[0]; [0]].

(** The same pulsar with one residual too many. *)
Definition bad_psr : Pulsar := mkPulsar [0] [1; 2] [0; 0; 1].

Definition bad_self : FeStat unit := init ex_model_cw [bad_psr] tt.

(** The four Penrose conditions: [P] is the Moore-Penrose
    pseudo-inverse of [M]. *)
Definition penrose (M P : Mat) : Prop :=
  mat_mat (mat_mat M P) M = M /\ mat_mat (mat_mat P M) P = P
  /\ symmetric (mat_mat M P) /\ symmetric (mat_mat P M).

(** Two copies of the worked pulsar on the model of one: the zipped
    loop reaches only the first. *)
Definition two_self : FeStat unit := init ex_model_cw [ex_psr; ex_psr] tt.

(** No pulsar at all, on the same model. *)
Definition empty_self : FeStat unit := init ex_model_cw [] tt.

(** A model whose default [phiinv] differs from the one of
    ['partition']: [make_Nmat] sees [Sigma = [[4]]], the loop of
    [compute_Fe] sees [Sigma = [[-1]]]. *)
Definition npd_phiinv : Phiinv := Phi1 [-2].

Definition npd_pta : PTA unit :=
  mkPTA (fun _ => [ex_one])
        (fun _ m => match m with cliques => [npd_phiinv] | partition => [ex_phiinv] end)
        (fun _ => [white_noise]) (fun _ => [ex_one]).

Definition npd_self : FeStat unit := mkFeStat npd_pta [ex_psr] tt None.

(** The worked instance with every residual multiplied by zero. *)
Definition zero_self : FeStat unit := scale_residuals 0 ex_self.

(** A model whose [Sigma] under ['partition'] is [[-1]], so that
    [get_Nmats] raises. *)
Definition fail_pta : PTA unit :=
  mkPTA (fun _ => [ex_one]) (fun _ _ => [npd_phiinv]) (fun _ => [white_noise])
        (fun _ => [ex_one]).

Definition fail_self : FeStat unit := mkFeStat fail_pta [ex_psr] tt None.

(** The worked instance with [self.Nmats] assigned by hand to an array
    that [get_Nmats] does not return. *)
Definition stale_self : FeStat unit := mkFeStat ex_pta [ex_psr] tt (Some [ex2_Nmat]).

(** Two TOAs and one basis function under white noise: the array of
    [make_Nmat] has entries off the diagonal. *)
Definition toa2_T : Mat := mkMat 1 [[1]; [2]].
Definition toa2_TNT : Mat := mkMat 1 [[5]].
Definition toa2_TtN : Mat := mkMat 2 [[1; 2]].
Definition toa2_Sigma : Mat := mkMat 1 [[8]].
Definition toa2_Sinv : Mat := mkMat 1 [[1 / 8]].
Definition toa2_Nmat : Mat := mkMat 2 [[7 / 8; - (1 / 4)]; [- (1 / 4); 1 / 2]].

(** Two pulsars that differ in position, TOA and residual, on a model
    of two pulsars with the arrays of the worked one. *)
Definition duo_psr_a : Pulsar := mkPulsar [0] [1] [2; 3; 0].
Definition duo_psr_b : Pulsar := mkPulsar [1 / 4] [2] [1; -1; 0].

Definition duo_pta : PTA unit :=
  mkPTA (fun _ => [ex_one; ex_one]) (fun _ _ => [ex_phiinv; ex_phiinv])
        (fun _ => [white_noise; white_noise]) (fun _ => [ex_one; ex_one]).

Definition duo_model_cw (ps : list Pulsar) (pr : unit) : PTA unit := duo_pta.

Definition duo_self : FeStat unit := init duo_model_cw [duo_psr_a; duo_psr_b] tt.

(** An antenna pattern that reads [F+] and [Fx] off the first two
    coordinates of the position: [(2, 3)] for the first pulsar and
    [(1, -1)] for the second. *)
Definition duo_antenna (p : Vec) (theta phi : R) : R * R * R :=
  (nth 0 p 0, nth 1 p 0, 0).

(** The arrays [N] and [M] of the two pulsars at frequency one. *)
Definition duo_N : list Vec :=
  [ [0; 39 / 64; 0; 0]; [39 / 32; 0; 39 / 32; 39 / 32] ].

Definition duo_M : list (list Vec) :=
  [ [ [0; 0; 0; 0]; [0; 39 / 64; 0; 39 / 64]; [0; 0; 0; 0]; [0; 39 / 64; 0; 39 / 64] ];
    [ [39 / 64; 0; 39 / 64; 0]; [0; 0; 0; 0]; [39 / 64; 0; 39 / 64; 0]; [0; 0; 0; 0] ] ].

(** The sums [N_sum] and [M_sum] of the two pulsars under
    [duo_antenna]. *)
Definition duo_N_sum : Vec := [39 / 32; 39 / 32; - (39 / 32); - (39 / 32)].

Definition duo_M_sum : Mat :=
  mkMat 4 [ [39 / 64; 0; - (39 / 64); 0]; [0; 39 / 16; 0; 117 / 32];
            [- (39 / 64); 0; 39 / 64; 0]; [0; 117 / 32; 0; 351 / 64] ].

(** The pseudo-inverse of [duo_M_sum], returned for every argument. *)
Definition duo_pinv (M : Mat) : Mat :=
  mkMat 4 [ [16 / 39; 0; - (16 / 39); 0]; [0; 256 / 6591; 0; 128 / 2197];
            [- (16 / 39); 0; 16 / 39; 0]; [0; 128 / 2197; 0; 192 / 2197] ].

(** * Properties *)

(** ** Results *)

Lemma bind_Ok {A B : Type} (m : result A) (k : A -> result B) (a : A) :
  m = Ok a -> bind m k = k a.
Proof. intros ->. reflexivity. Qed.

Lemma bind_Err {A B : Type} (m : result A) (k : A -> result B) (e : exn) :
  m = Err e -> bind m k = Err e.
Proof. intros ->. reflexivity. Qed.

(** ** Lists and vectors *)

Lemma length_map2 {A B C : Type} (f : A -> B -> C) (l1 : list A) (l2 : list B) :
  length (map2 f l1 l2) = Nat.min (length l1) (length l2).
Proof.
  revert l2. induction l1 as [|a l1 IH]; intros [|b l2]; simpl; auto.
Qed.

Lemma length_map2_same {A B C : Type} (f : A -> B -> C) (l1 : list A) (l2 : list B) (n : nat) :
  length l1 = n -> length l2 = n -> length (map2 f l1 l2) = n.
Proof. intros H1 H2. rewrite length_map2, H1, H2. apply Nat.min_id. Qed.

Lemma length_zeros (n : nat) : length (zeros n) = n.
Proof. apply repeat_length. Qed.

Lemma length_scale (c : R) (x : Vec) : length (scale c x) = length x.
Proof. apply length_map. Qed.

Lemma length_vadd (x y : Vec) (n : nat) :
  length x = n -> length y = n -> length (vadd x y) = n.
Proof. apply length_map2_same. Qed.

Lemma length_vsub (x y : Vec) (n : nat) :
  length x = n -> length y = n -> length (vsub x y) = n.
Proof. apply length_map2_same. Qed.

Lemma dot_nil_r (x : Vec) : dot x [] = 0.
Proof. destruct x; reflexivity. Qed.

Lemma dot_comm (x y : Vec) : dot x y = dot y x.
Proof.
  revert y. induction x as [|a x IH]; intros [|b y]; simpl; auto.
  rewrite IH. ring.
Qed.

Lemma dot_scale_l (c : R) (x y : Vec) : dot (scale c x) y = c * dot x y.
Proof.
  revert y. induction x as [|a x IH]; intros [|b y]; simpl; try ring.
  fold (scale c x). rewrite IH. ring.
Qed.

Lemma dot_scale_r (c : R) (x y : Vec) : dot x (scale c y) = c * dot x y.
Proof. rewrite dot_comm, dot_scale_l, dot_comm. reflexivity. Qed.

Lemma dot_vadd_l (x y z : Vec) :
  length x = length y -> dot (vadd x y) z = dot x z + dot y z.
Proof.
  revert y z. induction x as [|a x IH]; intros [|b y] [|c z] H; simpl in *;
    try discriminate; try ring.
  fold (vadd x y). rewrite IH by lia. ring.
Qed.

Lemma dot_vadd_r (x y z : Vec) :
  length y = length z -> dot x (vadd y z) = dot x y + dot x z.
Proof.
  intros H. rewrite dot_comm, dot_vadd_l by assumption.
  rewrite (dot_comm y), (dot_comm z). reflexivity.
Qed.

Lemma dot_vsub_l (x y z : Vec) :
  length x = length y -> dot (vsub x y) z = dot x z - dot y z.
Proof.
  revert y z. induction x as [|a x IH]; intros [|b y] [|c z] H; simpl in *;
    try discriminate; try ring.
  fold (vsub x y). rewrite IH by lia. ring.
Qed.

Lemma dot_vsub_r (x y z : Vec) :
  length y = length z -> dot x (vsub y z) = dot x y - dot x z.
Proof.
  intros H. rewrite dot_comm, dot_vsub_l by assumption.
  rewrite (dot_comm y), (dot_comm z). reflexivity.
Qed.

Lemma dot_zeros_l (n : nat) (x : Vec) : dot (zeros n) x = 0.
Proof.
  revert x. induction n as [|n IH]; intros [|a x]; simpl; auto.
  fold (zeros n). rewrite IH. ring.
Qed.

Lemma dot_zeros_r (n : nat) (x : Vec) : dot x (zeros n) = 0.
Proof. rewrite dot_comm. apply dot_zeros_l. Qed.

Lemma scale_scale (c d : R) (x : Vec) : scale c (scale d x) = scale (c * d) x.
Proof.
  unfold scale. rewrite map_map. apply map_ext. intros a. ring.
Qed.

Lemma scale_1 (x : Vec) : scale 1 x = x.
Proof.
  unfold scale. rewrite <- (map_id x) at 2. apply map_ext. intros a. ring.
Qed.

Lemma map2_map_l {A A' B C : Type} (f : A' -> B -> C) (g : A -> A') (l1 : list A) (l2 : list B) :
  map2 f (map g l1) l2 = map2 (fun a b => f (g a) b) l1 l2.
Proof.
  revert l2. induction l1 as [|a l1 IH]; intros [|b l2]; simpl; auto.
  rewrite IH. reflexivity.
Qed.

Lemma map2_map_r {A B B' C : Type} (f : A -> B' -> C) (g : B -> B') (l1 : list A) (l2 : list B) :
  map2 f l1 (map g l2) = map2 (fun a b => f a (g b)) l1 l2.
Proof.
  revert l2. induction l1 as [|a l1 IH]; intros [|b l2]; simpl; auto.
  rewrite IH. reflexivity.
Qed.

Lemma map_map2 {A B C D : Type} (g : C -> D) (f : A -> B -> C) (l1 : list A) (l2 : list B) :
  map g (map2 f l1 l2) = map2 (fun a b => g (f a b)) l1 l2.
Proof.
  revert l2. induction l1 as [|a l1 IH]; intros [|b l2]; simpl; auto.
  rewrite IH. reflexivity.
Qed.

Lemma map2_ext {A B C : Type} (f g : A -> B -> C) (l1 : list A) (l2 : list B) :
  (forall a b, f a b = g a b) -> map2 f l1 l2 = map2 g l1 l2.
Proof.
  intros H. revert l2. induction l1 as [|a l1 IH]; intros [|b l2]; simpl; auto.
  rewrite H, IH. reflexivity.
Qed.

Lemma map2_diag {A C : Type} (f : A -> A -> C) (l : list A) :
  map2 f l l = map (fun a => f a a) l.
Proof. induction l as [|a l IH]; simpl; auto. rewrite IH. reflexivity. Qed.

Lemma length_cols (c : nat) (rs : list Vec) :
  Forall (fun r => length r = c) rs -> length (cols c rs) = c.
Proof.
  induction 1 as [|r rs Hr _ IH]; simpl.
  - apply repeat_length.
  - apply length_map2_same; assumption.
Qed.

Lemma Forall_length_map2_cons (m : nat) (r : Vec) (l : list Vec) :
  Forall (fun v => length v = m) l ->
  Forall (fun v => length v = S m) (map2 cons r l).
Proof.
  intros H. revert r. induction H as [|v l Hv _ IH]; intros [|a r]; simpl; constructor.
  - simpl. congruence.
  - apply IH.
Qed.

Lemma Forall_length_cols (c : nat) (rs : list Vec) :
  Forall (fun v => length v = length rs) (cols c rs).
Proof.
  induction rs as [|r rs IH]; simpl.
  - apply Forall_forall. intros v Hv. apply repeat_spec in Hv. subst. reflexivity.
  - apply Forall_length_map2_cons. assumption.
Qed.

Lemma cols_map2_cons (c : nat) (h : Vec) (C : list Vec) :
  length h = length C -> cols (S c) (map2 cons h C) = h :: cols c C.
Proof.
  revert C. induction h as [|a h IH]; intros [|r C] H; simpl in *; try discriminate.
  - reflexivity.
  - rewrite IH by lia. reflexivity.
Qed.

Lemma map_tl_map2_cons (h : Vec) (C : list Vec) :
  length h = length C -> map (@tl R) (map2 cons h C) = C.
Proof.
  revert C. induction h as [|a h IH]; intros [|r C] H; simpl in *; try discriminate; auto.
  rewrite IH by lia. reflexivity.
Qed.

Lemma map2_cons_hd_tl (n : nat) (rs : list Vec) :
  Forall (fun r => length r = S n) rs ->
  rs = map2 cons (map (hd 0) rs) (map (@tl R) rs).
Proof.
  induction 1 as [|r rs Hr _ IH]; simpl; auto.
  destruct r; simpl in *; try discriminate. rewrite <- IH. reflexivity.
Qed.

Lemma map2_cons_inj (h h' : Vec) (C C' : list Vec) :
  length h = length C -> length h' = length C' -> 
  map2 cons h C = map2 cons h' C' -> h = h' /\ C = C'.
Proof.
  revert h' C C'. induction h as [|a h IH]; intros [|a' h'] [|r C] [|r' C'] H1 H2 H;
    simpl in *; try discriminate; auto.
  injection H as -> -> H. apply IH in H; try lia. destruct H; subst; auto.
Qed.

(** [mat_vec] on rows split into first entries and tails *)
Lemma map_dot_map2_cons (h : Vec) (C : list Vec) (x0 : R) (x : Vec) :
  length h = length C ->
  map (fun r => dot r (x0 :: x)) (map2 cons h C)
  = vadd (scale x0 h) (map (fun r => dot r x) C).
Proof.
  revert C. induction h as [|a h IH]; intros [|r C] H; simpl in *; try discriminate; auto.
  fold (scale x0 h). unfold vadd in *. simpl. rewrite IH by lia. f_equal. ring.
Qed.

(** [vec_mat] by rows *)
Lemma map_dot_cols_cons (c : nat) (a : R) (x r : Vec) (rs : list Vec) :
  length r = c -> Forall (fun r => length r = c) rs ->
  map (dot (a :: x)) (cols c (r :: rs)) = vadd (scale a r) (map (dot x) (cols c rs)).
Proof.
  intros Hr Hrs. simpl. apply length_cols in Hrs. revert Hr Hrs.
  generalize (cols c rs). revert c. 
  induction r as [|b r IH]; intros c [|v l] Hr Hl; simpl in *; subst; try discriminate; auto.
  unfold vadd. simpl. f_equal. fold (scale a r). eapply IH; eauto.
Qed.

Lemma map_dot_nil (l : list Vec) : map (dot []) l = zeros (length l).
Proof.
  induction l as [|v l IH]; auto.
  change (0 :: map (dot []) l = 0 :: zeros (length l)). f_equal. exact IH.
Qed.

Lemma map_dot_nil_cols (c : nat) (rs: list Vec) :
  Forall (fun r => length r = c) rs -> map (dot []) (cols c rs) = zeros c.
Proof.
  intros H. rewrite map_dot_nil, length_cols by assumption. reflexivity.
Qed.

(** ** Matrix products *)

Lemma dot_cols (c : nat) (rs : list Vec) (x y : Vec) :
  Forall (fun r => length r = c) rs -> length x = length rs ->
  dot (map (dot x) (cols c rs)) y = dot x (map (fun r => dot r y) rs).
Proof.
  intros H. revert x. induction H as [|r rs Hr Hrs IH]; intros [|a x] Hx;
    simpl in Hx; try discriminate.
  - simpl. rewrite map_dot_nil, dot_zeros_l. reflexivity.
  - rewrite map_dot_cols_cons by assumption.
    rewrite dot_vadd_l.
    + rewrite dot_scale_l, IH by lia. reflexivity.
    + rewrite length_scale, length_map, length_cols by assumption. assumption.
Qed.

(** [np.dot(np.dot(x, M), y)] is [x^T M y]. *)
Lemma dot_vec_mat (M : Mat) (x y : Vec) :
  wf_mat M -> length x = nrows M ->
  dot (vec_mat x M) y = dot x (mat_vec M y).
Proof. intros H Hx. apply dot_cols; assumption. Qed.

Lemma mat_vec_transpose (M : Mat) (x : Vec) :
  mat_vec (transpose M) x = vec_mat x M.
Proof.
  unfold mat_vec, vec_mat. simpl. apply map_ext. intros c. apply dot_comm.
Qed.

Lemma mat_vec_mat_mat (A B : Mat) (x : Vec) :
  wf_mat A -> wf_mat B -> ncols A = nrows B ->
  mat_vec (mat_mat A B) x = mat_vec A (mat_vec B x).
Proof.
  intros HA HB HAB. unfold mat_vec at 1 2. simpl. rewrite map_map.
  apply map_ext_in. intros r Hr. apply dot_vec_mat; auto.
  unfold wf_mat in HA. rewrite Forall_forall in HA. rewrite (HA r Hr). assumption.
Qed.

Lemma map_dot_map_cons0 (rs : list Vec) (a : R) (x : Vec) :
  map (fun r => dot r (a :: x)) (map (cons 0) rs) = map (fun r => dot r x) rs.
Proof.
  rewrite map_map. apply map_ext. intros r. simpl. ring.
Qed.

Lemma mat_vec_eye (n : nat) (x : Vec) : length x = n -> mat_vec (eye n) x = x.
Proof.
  unfold mat_vec. simpl. revert x. induction n as [|n IH]; intros [|a x] H;
    simpl in H; try discriminate; auto.
  cbn [eye_rows map]. rewrite map_dot_map_cons0, IH by lia.
  f_equal. simpl. rewrite dot_zeros_l. ring.
Qed.

Lemma length_eye_rows (n : nat) : length (eye_rows n) = n.
Proof. induction n as [|n IH]; simpl; auto. rewrite length_map, IH. reflexivity. Qed.

Lemma wf_eye (n : nat) : has_shape (eye n) n n.
Proof.
  unfold has_shape, nrows, wf_mat. simpl. split; [apply length_eye_rows|]. split; auto.
  induction n as [|n IH]; simpl; constructor.
  - simpl. rewrite length_zeros. reflexivity.
  - apply Forall_map. eapply Forall_impl; [|exact IH]. simpl. intros r ->. reflexivity.
Qed.

Lemma mat_vec_linear_scale (M : Mat) (c : R) (x : Vec) :
  mat_vec M (scale c x) = scale c (mat_vec M x).
Proof.
  unfold mat_vec, scale at 2. rewrite map_map. apply map_ext. intros r.
  apply dot_scale_r.
Qed.

Lemma length_mat_vec (M : Mat) (x : Vec) : length (mat_vec M x) = nrows M.
Proof. apply length_map. Qed.

Lemma length_vec_mat (M : Mat) (x : Vec) : wf_mat M -> length (vec_mat x M) = ncols M.
Proof. intros H. unfold vec_mat. rewrite length_map. apply length_cols. exact H. Qed.

(** The inverse applied to a right-hand side is the only solution. *)
Lemma inverse_unique (k : nat) (Sigma Sinv : Mat) (u b : Vec) :
  has_shape Sigma k k -> is_inverse k Sigma Sinv -> length u = k ->
  mat_vec Sigma u = b -> u = mat_vec Sinv b.
Proof.
  intros (HSr & HSc & HSw) ((HIr & HIc & HIw) & Hinv) Hu Hb.
  rewrite <- Hb, <- mat_vec_mat_mat, Hinv by (auto; congruence).
  symmetry. apply mat_vec_eye. exact Hu.
Qed.

(** ** Symmetric arrays *)

Lemma symmetric_square (M : Mat) : symmetric M -> nrows M = ncols M.
Proof. unfold symmetric, transpose. intros H. rewrite <- H at 2. reflexivity. Qed.

Lemma sym_rows_of_cols (n : nat) (rs : list Vec) :
  length rs = n -> Forall (fun r => length r = n) rs -> cols n rs = rs ->
  sym_rows n rs.
Proof.
  revert rs. induction n as [|n IH]; intros rs Hl Hw Hc.
  - destruct rs; try discriminate. constructor.
  - destruct rs as [|r0 rest]; try discriminate.
    inversion Hw as [|? ? Hr0 Hrest]; subst.
    destruct r0 as [|a r]; try discriminate.
    simpl in Hl, Hr0.
    pose proof (map2_cons_hd_tl _ _ Hrest) as Hsplit.
    set (h := map (hd 0) rest) in *. set (C := map (@tl R) rest) in *.
    assert (Hh : length h = length C) by (unfold h, C; rewrite !length_map; reflexivity).
    assert (HCl : length C = n) by (unfold C; rewrite length_map; lia).
    assert (HCw : Forall (fun r => length r = n) C).
    { unfold C. apply Forall_map. eapply Forall_impl; [|exact Hrest].
      intros [|? ?]; simpl; intros; try discriminate; lia. }
    simpl in Hc. rewrite Hsplit in Hc. rewrite cols_map2_cons in Hc by assumption.
    simpl in Hc. injection Hc as Hhr Hc. subst h.
    apply map2_cons_inj in Hc.
    + destruct Hc as [_ Hc]. rewrite Hhr in Hsplit. rewrite Hsplit. constructor; [lia|].
      apply IH; assumption.
    + rewrite length_cols by assumption. lia.
    + assumption.
Qed.

Lemma symmetric_sym_rows (M : Mat) (n : nat) :
  has_shape M n n -> symmetric M -> sym_rows n (rows M).
Proof.
  intros (Hr & Hc & Hw) Hs. unfold symmetric, transpose in Hs.
  apply sym_rows_of_cols; auto.
  - unfold wf_mat in Hw. rewrite Hc in Hw. exact Hw.
  - rewrite <- Hc. apply (f_equal rows) in Hs. exact Hs.
Qed.

Lemma sym_rows_length (n : nat) (rs : list Vec) : sym_rows n rs -> length rs = n.
Proof.
  induction 1 as [|n a r C Hr _ IH]; simpl; auto.
  rewrite length_map2_same with (n := n); auto.
Qed.

Lemma sym_rows_wf (n : nat) (rs : list Vec) :
  sym_rows n rs -> Forall (fun r => length r = n) rs.
Proof.
  induction 1 as [|n a r C Hr _ IH]; constructor.
  - simpl. congruence.
  - apply Forall_length_map2_cons. exact IH.
Qed.

(** ** The Cholesky factor and the two triangular solves *)

Lemma schur_rest (u0 : R) (w t s : Vec) (D : list Vec) :
  map2 (fun ui Ci => vsub Ci (scale ui (u0 :: w))) t (map2 cons s D)
  = map2 cons (vsub s (scale u0 t)) (map2 (fun ui Ci => vsub Ci (scale ui w)) t D).
Proof.
  revert s D. induction t as [|ti t IH]; intros [|si s] [|Di D]; simpl; auto.
  rewrite IH. unfold vsub, scale. simpl. f_equal. f_equal. ring.
Qed.

Lemma schur_cons (u0 c : R) (u s : Vec) (D : list Vec) :
  schur (u0 :: u) ((c :: s) :: map2 cons s D)
  = (c - u0 * u0 :: vsub s (scale u0 u)) :: map2 cons (vsub s (scale u0 u)) (schur u D).
Proof.
  unfold schur at 1. cbn [map2]. rewrite schur_rest. reflexivity.
Qed.

Lemma schur_sym (n : nat) (C : list Vec) (u : Vec) :
  sym_rows n C -> length u = n -> sym_rows n (schur u C).
Proof.
  intros H. revert u. induction H as [|n c s D Hs HD IH]; intros u Hu.
  - destruct u; try discriminate. constructor.
  - destruct u as [|u0 u]; try discriminate. simpl in Hu.
    rewrite schur_cons. constructor.
    + apply length_vsub; [assumption|]. rewrite length_scale. lia.
    + apply IH. lia.
Qed.

Lemma mat_vec_schur_gen (u t x : Vec) (C : list Vec) :
  Forall (fun r => length r = length u) C ->
  map (fun r => dot r x) (map2 (fun ui Ci => vsub Ci (scale ui u)) t C)
  = map2 (fun ui ci => ci - dot u x * ui) t (map (fun r => dot r x) C).
Proof.
  intros HC. revert t. induction HC as [|r C Hr _ IH]; intros [|ti t]; simpl; auto.
  rewrite IH. f_equal.
  rewrite dot_vsub_l by (rewrite length_scale; congruence).
  rewrite dot_scale_l. ring.
Qed.

Lemma mat_vec_schur (n : nat) (u x : Vec) (C : list Vec) :
  length u = n -> Forall (fun r => length r = n) C ->
  map (fun r => dot r x) (schur u C)
  = map2 (fun ui ci => ci - dot u x * ui) u (map (fun r => dot r x) C).
Proof.
  intros Hu HC. apply mat_vec_schur_gen. rewrite Hu. exact HC.
Qed.

Lemma potrf_wf (n : nat) (A : list Vec) (U : factor) :
  sym_rows n A -> potrf n A = Ok U -> wf_factor n U.
Proof.
  revert A U. induction n as [|n IH]; intros A U H HU;
    inversion H as [|n' a r C Hr HC]; subst; simpl in HU.
  - injection HU as <-. reflexivity.
  - destruct (Rlt_dec 0 a) as [Ha|Ha]; try discriminate.
    rewrite map_tl_map2_cons in HU by (rewrite (sym_rows_length _ _ HC); reflexivity).
    destruct (potrf _ _) as [U'|e] eqn:E; try discriminate. simpl in HU.
    injection HU as <-. simpl. rewrite length_map.
    split; [apply sqrt_lt_R0; assumption|]. split; [reflexivity|].
    apply IH with (A := schur (map (fun v => v / sqrt a) r) C); auto.
    apply schur_sym; auto. apply length_map.
Qed.

Lemma length_forward_subst (n : nat) (U : factor) (b : Vec) :
  wf_factor n U -> length b = n -> length (forward_subst U b) = n.
Proof.
  revert n b. induction U as [|[l u] U IH]; intros n b HU Hb; simpl in *.
  - subst. destruct b; auto.
  - destruct HU as (_ & Hn & HU). destruct b as [|b0 b]; simpl in *; [lia|].
    rewrite (IH (length u)); auto.
    apply length_vsub; [lia|]. apply length_scale.
Qed.

Lemma length_back_subst (n : nat) (U : factor) (y : Vec) :
  wf_factor n U -> length y = n -> length (back_subst U y) = n.
Proof.
  revert n y. induction U as [|[l u] U IH]; intros n y HU Hy; simpl in *.
  - subst. destruct y; auto.
  - destruct HU as (_ & Hn & HU). destruct y as [|y0 y]; simpl in *; [lia|].
    rewrite (IH (length u)); auto. lia.
Qed.

Lemma length_potrs (n : nat) (U : factor) (b : Vec) :
  wf_factor n U -> length b = n -> length (potrs U b) = n.
Proof.
  intros HU Hb. unfold potrs. apply length_back_subst; auto.
  apply length_forward_subst; auto.
Qed.

Lemma wf_factor_length (n : nat) (U : factor) : wf_factor n U -> length U = n.
Proof.
  revert n. induction U as [|[l u] U IH]; intros n H; simpl in *; [congruence|].
  destruct H as (_ & Hn & HU). rewrite (IH _ HU). exact Hn.
Qed.

(** The rows below the first one, once the rest of the system is solved. *)
Lemma solve_rest (k y0 d : R) (u mc b : Vec) :
  k = y0 - d ->
  map2 (fun ui ci => ci - d * ui) u mc = vsub b (scale y0 u) ->
  length mc = length u -> length b = length u ->
  vadd (scale k u) mc = b.
Proof.
  intros ->. revert mc b. induction u as [|ui u IH]; intros [|ci mc] [|bi b] H Hm Hb;
    simpl in *; try discriminate; auto.
  unfold vsub in H. simpl in H. injection H as H0 H.
  unfold vadd. simpl. f_equal; [lra|]. apply IH; auto.
Qed.

(** [potrs] on the factor of a symmetric array solves the system. *)
Lemma potrf_solve (n : nat) (A : list Vec) (U : factor) (b : Vec) :
  sym_rows n A -> potrf n A = Ok U -> length b = n ->
  map (fun r => dot r (potrs U b)) A = b.
Proof.
  revert A U b. induction n as [|n IH]; intros A U b H HU Hb;
    inversion H as [|n' a r C Hr HC]; subst.
  - destruct b; try discriminate. reflexivity.
  - pose proof (potrf_wf _ _ _ H HU) as HwU.
    simpl in HU. destruct (Rlt_dec 0 a) as [Ha|Ha]; try discriminate.
    pose proof (sym_rows_length _ _ HC) as HCl.
    rewrite map_tl_map2_cons in HU by congruence.
    set (l := sqrt a) in *. set (u := map (fun v => v / l) r) in *.
    destruct (potrf (length r) (schur u C)) as [U'|e] eqn:E; try discriminate.
    simpl in HU. injection HU as <-.
    destruct b as [|b0 b]; try discriminate. simpl in Hb.
    assert (Hl : 0 < l) by (apply sqrt_lt_R0; assumption).
    assert (Hll : l * l = a) by (apply sqrt_sqrt; lra).
    assert (Hu : length u = length r) by (unfold u; apply length_map).
    assert (Hru : r = scale l u).
    { unfold u, scale. rewrite map_map. rewrite <- (map_id r) at 1.
      apply map_ext. intros v. field. lra. }
    destruct HwU as (_ & _ & HwU'). rewrite Hu in HwU'.
    unfold potrs. cbn [forward_subst back_subst].
    set (y0 := b0 / l).
    set (x' := back_subst U' (forward_subst U' (vsub b (scale y0 u)))).
    assert (Hb' : length (vsub b (scale y0 u)) = length r).
    { apply length_vsub; [lia|]. rewrite length_scale. assumption. }
    assert (Hx' : length x' = length r) by (apply length_potrs; auto).
    assert (HsC : sym_rows (length r) (schur u C)) by (apply schur_sym; auto).
    specialize (IH _ U' (vsub b (scale y0 u)) HsC E Hb').
    unfold potrs in IH. fold x' in IH.
    rewrite mat_vec_schur with (n := length r) in IH; auto using sym_rows_wf.
    cbn [map]. f_equal.
    + simpl. rewrite Hru at 1. rewrite dot_scale_l. unfold y0. rewrite <- Hll.
      field. lra.
    + rewrite map_dot_map2_cons by congruence.
      rewrite Hru at 1. rewrite scale_scale.
      apply solve_rest with (y0 := y0) (d := dot u x').
      * field. lra.
      * apply IH.
      * rewrite length_map. congruence.
      * lia.
Qed.

(** ** Positive definiteness and the success of [potrf] *)

Lemma quad_rows_cons (a x0 : R) (r x : Vec) (C : list Vec) :
  length r = length C ->
  quad_rows ((a :: r) :: map2 cons r C) (x0 :: x)
  = a * x0 * x0 + 2 * x0 * dot r x + quad_rows C x.
Proof.
  intros H. unfold quad_rows. cbn [map]. rewrite map_dot_map2_cons by assumption.
  cbn [dot]. rewrite dot_vadd_r by (rewrite length_scale, length_map; assumption).
  rewrite dot_scale_r, (dot_comm x r). ring.
Qed.

Lemma dot_map2_sub (d : R) (x u mc : Vec) :
  length u = length mc ->
  dot x (map2 (fun ui ci => ci - d * ui) u mc) = dot x mc - d * dot x u.
Proof.
  revert u mc. induction x as [|xi x IH]; intros [|ui u] [|ci mc] H;
    simpl in *; try discriminate; try ring.
  rewrite IH by lia. ring.
Qed.

Lemma quad_rows_schur (n : nat) (u x : Vec) (C : list Vec) :
  length u = n -> length C = n -> Forall (fun r => length r = n) C ->
  quad_rows (schur u C) x = quad_rows C x - dot u x * dot u x.
Proof.
  intros Hu HC Hw. unfold quad_rows. rewrite mat_vec_schur with (n := n) by assumption.
  rewrite dot_map2_sub by (rewrite length_map; congruence).
  rewrite (dot_comm x u). ring.
Qed.

Lemma quad_rows_zeros (rs : list Vec) (n : nat) : quad_rows rs (zeros n) = 0.
Proof. unfold quad_rows. apply dot_zeros_l. Qed.

(** Completing the square on the first variable. *)
Lemma quad_rows_square (n : nat) (a l x0 : R) (r x : Vec) (C : list Vec) :
  0 < l -> l * l = a -> length r = n -> sym_rows n C ->
  let u := map (fun v => v / l) r in
  quad_rows ((a :: r) :: map2 cons r C) (x0 :: x)
  = (l * x0 + dot u x) * (l * x0 + dot u x) + quad_rows (schur u C) x.
Proof.
  intros Hl Hll Hr HC u.
  assert (Hu : length u = n) by (unfold u; rewrite length_map; assumption).
  assert (Hru : r = scale l u).
  { unfold u, scale. rewrite map_map. rewrite <- (map_id r) at 1.
    apply map_ext. intros v. field. lra. }
  rewrite quad_rows_cons by (rewrite (sym_rows_length _ _ HC); assumption).
  rewrite quad_rows_schur with (n := n);
    auto using sym_rows_length, sym_rows_wf.
  rewrite Hru at 1. rewrite dot_scale_l, <- Hll. ring.
Qed.

Lemma cons_neq_zeros (n : nat) (x0 : R) (x : Vec) :
  x0 :: x <> zeros (S n) -> x = zeros n -> x0 <> 0.
Proof. intros H -> ->. apply H. reflexivity. Qed.

Lemma potrf_pos_def (n : nat) (A : list Vec) (U : factor) (x : Vec) :
  sym_rows n A -> potrf n A = Ok U -> length x = n -> x <> zeros n ->
  0 < quad_rows A x.
Proof.
  revert A U x. induction n as [|n IH]; intros A U x H HU Hx Hnz;
    inversion H as [|n' a r C Hr HC]; subst.
  - destruct x; try discriminate. exfalso. apply Hnz. reflexivity.
  - simpl in HU. destruct (Rlt_dec 0 a) as [Ha|Ha]; try discriminate.
    pose proof (sym_rows_length _ _ HC) as HCl.
    rewrite map_tl_map2_cons in HU by congruence.
    destruct (potrf (length r) _) as [U'|e] eqn:E; try discriminate.
    destruct x as [|x0 x]; try discriminate. simpl in Hx.
    assert (Hl : 0 < sqrt a) by (apply sqrt_lt_R0; assumption).
    assert (Hll : sqrt a * sqrt a = a) by (apply sqrt_sqrt; lra).
    rewrite (quad_rows_square (length r) a (sqrt a)); auto.
    set (u := map (fun v => v / sqrt a) r) in *.
    destruct (list_eq_dec Req_EM_T x (zeros (length r))) as [Hz|Hz].
    + pose proof (cons_neq_zeros _ _ _ Hnz Hz) as Hx0. subst x.
      rewrite quad_rows_zeros, dot_zeros_r.
      assert (0 < (sqrt a * x0) * (sqrt a * x0)).
      { apply Rsqr_pos_lt. apply Rmult_integral_contrapositive. split; lra. }
      lra.
    + assert (0 < quad_rows (schur u C) x).
      { apply IH with (U := U'); auto. apply schur_sym; auto.
        unfold u. apply length_map. }
      pose proof (Rle_0_sqr (sqrt a * x0 + dot u x)) as Hsq. unfold Rsqr in Hsq. lra.
Qed.

Lemma pos_def_potrf (n : nat) (A : list Vec) :
  sym_rows n A ->
  (forall x, length x = n -> x <> zeros n -> 0 < quad_rows A x) ->
  exists U, potrf n A = Ok U.
Proof.
  revert A. induction n as [|n IH]; intros A H Hpd;
    inversion H as [|n' a r C Hr HC]; subst.
  - exists []. reflexivity.
  - pose proof (sym_rows_length _ _ HC) as HCl.
    assert (Ha : 0 < a).
    { specialize (Hpd (1 :: zeros (length r))).
      rewrite quad_rows_cons, quad_rows_zeros, dot_zeros_r in Hpd by congruence.
      assert (0 < a * 1 * 1 + 2 * 1 * 0 + 0).
      { apply Hpd.
        - simpl. rewrite length_zeros. reflexivity.
        - simpl. intros Heq. injection Heq as Heq. lra. }
      lra. }
    assert (Hl : 0 < sqrt a) by (apply sqrt_lt_R0; assumption).
    assert (Hll : sqrt a * sqrt a = a) by (apply sqrt_sqrt; lra).
    simpl. destruct (Rlt_dec 0 a) as [_|Hn]; [|contradiction].
    rewrite map_tl_map2_cons by congruence.
    set (u := map (fun v => v / sqrt a) r).
    destruct (IH (schur u C)) as [U' HU'].
    + apply schur_sym; auto. unfold u. apply length_map.
    + intros x Hx Hnz.
      specialize (Hpd ((- dot u x / sqrt a) :: x)).
      rewrite (quad_rows_square (length r) a (sqrt a)) in Hpd; auto.
      fold u in Hpd.
      replace (sqrt a * (- dot u x / sqrt a) + dot u x) with 0 in Hpd by (field; lra).
      rewrite Rmult_0_l, Rplus_0_l in Hpd. apply Hpd.
      * simpl. congruence.
      * simpl. intros Heq. injection Heq as _ Heq. contradiction.
    + exists ((sqrt a, u) :: U'). rewrite HU'. reflexivity.
Qed.

(** On a square symmetric array [potrf] stops only for a pivot that is
    not positive. *)
Lemma potrf_error (n : nat) (A : list Vec) (e : exn) :
  sym_rows n A -> potrf n A = Err e -> e = LinAlgError.
Proof.
  revert A. induction n as [|n IH]; intros A H HU;
    inversion H as [|n' a r C Hr HC]; subst; simpl in HU; try discriminate.
  destruct (Rlt_dec 0 a) as [Ha|Ha]; [|congruence].
  pose proof (sym_rows_length _ _ HC) as HCl.
  rewrite map_tl_map2_cons in HU by congruence.
  destruct (potrf (length r) _) as [U'|e'] eqn:E; try discriminate.
  simpl in HU. injection HU as <-. eapply IH; [|exact E].
  apply schur_sym; auto. apply length_map.
Qed.

(** ** [cho_factor] and [cho_solve] *)

Lemma forallb_isfinite (v : Vec) : forallb isfinite v = true.
Proof. induction v; simpl; auto. Qed.

Lemma all_finite_true (M : Mat) : all_finite M = true.
Proof.
  unfold all_finite. induction (rows M) as [|r rs IH]; simpl; auto.
  rewrite forallb_isfinite, IH. reflexivity.
Qed.

Lemma cho_factor_eq (a : Mat) (chk : bool) :
  nrows a = ncols a -> cho_factor a chk = potrf (nrows a) (rows a).
Proof.
  intros H. unfold cho_factor. rewrite all_finite_true, andb_false_r.
  rewrite H, Nat.eqb_refl. reflexivity.
Qed.

Lemma cho_solve_eq (cf : factor) (b : Vec) (chk : bool) :
  length cf = length b -> cho_solve cf b chk = Ok (potrs cf b).
Proof.
  intros H. unfold cho_solve. rewrite forallb_isfinite, andb_false_r.
  rewrite H, Nat.eqb_refl. reflexivity.
Qed.

Lemma quad_form_rows (M : Mat) (x : Vec) : quad_form M x = quad_rows (rows M) x.
Proof. reflexivity. Qed.

(** A symmetric positive-definite array has a factor, and the factor
    solves every system. *)
Lemma cho_factor_pos_def (k : nat) (Sigma : Mat) (chk : bool) :
  has_shape Sigma k k -> symmetric Sigma -> pos_def Sigma ->
  exists cf, cho_factor Sigma chk = Ok cf /\ wf_factor k cf /\
    forall b, length b = k -> mat_vec Sigma (potrs cf b) = b.
Proof.
  intros Hsh Hsym Hpd.
  pose proof (symmetric_sym_rows _ _ Hsh Hsym) as Hs.
  destruct Hsh as (Hr & Hc & Hw).
  destruct (pos_def_potrf k (rows Sigma) Hs) as [cf Hcf].
  { intros x Hx Hnz. rewrite <- quad_form_rows. apply Hpd; rewrite Hr; assumption. }
  exists cf. rewrite cho_factor_eq by congruence. rewrite Hr. split; [assumption|].
  split; [eapply potrf_wf; eauto|].
  intros b Hb. unfold mat_vec. eapply potrf_solve; eauto.
Qed.

(** [cho_factor] raises [LinAlgError] on a symmetric array that is not
    positive definite, whatever [check_finite] is. *)
Lemma cho_factor_not_pos_def (k : nat) (Sigma : Mat) (chk : bool) :
  has_shape Sigma k k -> symmetric Sigma -> ~ pos_def Sigma ->
  cho_factor Sigma chk = Err LinAlgError.
Proof.
  intros Hsh Hsym Hnpd.
  pose proof (symmetric_sym_rows _ _ Hsh Hsym) as Hs.
  destruct Hsh as (Hr & Hc & Hw).
  rewrite cho_factor_eq by congruence. rewrite Hr.
  destruct (potrf k (rows Sigma)) as [cf|e] eqn:E.
  - exfalso. apply Hnpd. intros x Hx Hnz. rewrite quad_form_rows.
    rewrite Hr in Hx, Hnz. eapply potrf_pos_def; eauto.
  - f_equal. eapply potrf_error; eauto.
Qed.

(** ** The solves are linear in the right-hand side *)

Lemma vsub_scale_scale (c y0 : R) (b u : Vec) :
  vsub (scale c b) (scale (c * y0) u) = scale c (vsub b (scale y0 u)).
Proof.
  revert u. induction b as [|bi b IH]; intros [|ui u]; simpl; auto.
  unfold vsub, scale in *. simpl. rewrite IH. f_equal. ring.
Qed.

Lemma forward_subst_scale (c : R) (U : factor) (b : Vec) :
  forward_subst U (scale c b) = scale c (forward_subst U b).
Proof.
  revert b. induction U as [|[l u] U IH]; intros [|b0 b]; simpl; auto.
  replace (c * b0 / l) with (c * (b0 / l)) by (unfold Rdiv; ring).
  fold (scale c b). rewrite vsub_scale_scale, IH. reflexivity.
Qed.

Lemma back_subst_scale (c : R) (U : factor) (y : Vec) :
  back_subst U (scale c y) = scale c (back_subst U y).
Proof.
  revert y. induction U as [|[l u] U IH]; intros [|y0 y]; simpl; auto.
  fold (scale c y). rewrite IH, dot_scale_r. simpl. f_equal.
  unfold Rdiv. ring.
Qed.

Lemma potrs_scale (c : R) (U : factor) (b : Vec) :
  potrs U (scale c b) = scale c (potrs U b).
Proof. unfold potrs. rewrite forward_subst_scale, back_subst_scale. reflexivity. Qed.

(** ** [innerProduct_rr] *)

Lemma none_guard_default : none_guard None None = Ok true.
Proof. reflexivity. Qed.

Lemma truth_long_array (l : list bool) :
  (1 < length l)%nat -> truth (PyBoolArray l) = Err ValueError.
Proof. destruct l as [|b [|b' l]]; simpl; intros H; try lia. reflexivity. Qed.

Lemma none_guard_array_l (TNy : option Vec) (a : Vec) :
  (1 < length a)%nat -> none_guard (Some a) TNy = Err ValueError.
Proof.
  intros Ha. unfold none_guard, py_and. cbn [eq_None].
  rewrite truth_long_array by (rewrite length_map; exact Ha). reflexivity.
Qed.

Lemma none_guard_array_r (b : Vec) :
  (1 < length b)%nat -> none_guard None (Some b) = Err ValueError.
Proof.
  intros Hb. unfold none_guard, py_and. cbn [eq_None truth bind].
  apply truth_long_array. rewrite length_map. exact Hb.
Qed.

(** The default call, with the checks of its [np.dot] calls gathered. *)
Lemma innerProduct_rr_default (x y : Vec) (Nmat Tmat Sigma : Mat) (brave : bool) :
  wf_mat Nmat ->
  innerProduct_rr x y Nmat Tmat Sigma None None brave
  = if dot_shapes_ok x y Nmat Tmat then
      cf <- cho_factor Sigma (negb brave) ;;
      let tnx := mat_vec (transpose Tmat) (mat_vec Nmat x) in
      let tny := mat_vec (transpose Tmat) (mat_vec Nmat y) in
      if Nat.eqb (length cf) (length tny) then
        if Nat.eqb (length tnx) (length (potrs cf tny)) then
          Ok (dot (vec_mat x Nmat) y - dot tnx (potrs cf tny))
        else Err ValueError
      else Err ValueError
    else Err ValueError.
Proof.
  intros HN. unfold innerProduct_rr, dot_shapes_ok, np_dot_vm, np_dot_vv, np_dot_mv.
  rewrite none_guard_default.
  destruct (Nat.eqb (length x) (nrows Nmat)); cbn [bind andb]; auto.
  rewrite length_vec_mat by assumption.
  destruct (Nat.eqb (ncols Nmat) (length y)); cbn [bind andb]; auto.
  destruct (Nat.eqb (ncols Nmat) (length x)); cbn [bind andb]; auto.
  rewrite (length_mat_vec Nmat x), (length_mat_vec Nmat y). cbn [transpose ncols].
  destruct (Nat.eqb (nrows Tmat) (nrows Nmat)); cbn [bind andb fst snd]; auto.
  destruct (cho_factor Sigma (negb brave)) as [cf|e]; cbn [bind]; auto.
  unfold cho_solve. rewrite forallb_isfinite, andb_false_r.
  destruct (Nat.eqb (length cf) _); cbn [bind negb]; auto.
  destruct (Nat.eqb _ (length (potrs cf _))); cbn [bind]; auto.
Qed.

Lemma dot_shapes_ok_true (n k : nat) (x y : Vec) (Nmat Tmat : Mat) :
  length x = n -> length y = n -> has_shape Nmat n n -> has_shape Tmat n k ->
  dot_shapes_ok x y Nmat Tmat = true.
Proof.
  intros Hx Hy (HNr & HNc & _) (HTr & _ & _). unfold dot_shapes_ok.
  rewrite Hx, Hy, HNr, HNc, HTr, Nat.eqb_refl. reflexivity.
Qed.

Lemma length_mat_vec_transpose (k : nat) (Tmat : Mat) (v : Vec) :
  wf_mat Tmat -> ncols Tmat = k -> length (mat_vec (transpose Tmat) v) = k.
Proof.
  intros Hw Hc. rewrite length_mat_vec. unfold nrows, transpose. simpl.
  rewrite length_cols by assumption. exact Hc.
Qed.

(** The value of the default call on consistent shapes. *)
Lemma innerProduct_rr_value (n k : nat) (x y : Vec)
    (Nmat Tmat Sigma Sinv : Mat) (brave : bool) :
  length x = n -> length y = n ->
  has_shape Nmat n n -> has_shape Tmat n k -> has_shape Sigma k k ->
  symmetric Sigma -> pos_def Sigma -> is_inverse k Sigma Sinv ->
  innerProduct_rr x y Nmat Tmat Sigma None None brave
  = Ok (rank_reduced_product x y Nmat Tmat Sinv).
Proof.
  intros Hx Hy HN HT HS Hsym Hpd Hinv.
  destruct (cho_factor_pos_def k Sigma (negb brave) HS Hsym Hpd) as (cf & Hcf & Hwf & Hsol).
  rewrite innerProduct_rr_default by apply HN.
  rewrite (dot_shapes_ok_true n k) by assumption.
  rewrite Hcf. cbn [bind].
  destruct HT as (HTr & HTc & HTw).
  set (tnx := mat_vec (transpose Tmat) (mat_vec Nmat x)).
  set (tny := mat_vec (transpose Tmat) (mat_vec Nmat y)).
  assert (Htnx : length tnx = k) by (apply length_mat_vec_transpose; assumption).
  assert (Htny : length tny = k) by (apply length_mat_vec_transpose; assumption).
  cbv zeta. rewrite (wf_factor_length _ _ Hwf), Htny, Nat.eqb_refl.
  rewrite (length_potrs k) by assumption. rewrite Htnx, Nat.eqb_refl.
  unfold rank_reduced_product. fold tnx tny. f_equal. f_equal.
  - destruct HN as (HNr & HNc & HNw). apply dot_vec_mat; congruence.
  - f_equal. apply (inverse_unique k Sigma); auto.
    apply length_potrs; assumption.
Qed.

(** C2: for equal-length [x] and [y] on the grid of [Nmat] and [Tmat],
    and a symmetric positive-definite [Sigma] with inverse [Sinv],
    [innerProduct_rr(x, y, Nmat, Tmat, Sigma)] returns
    [x^T Nmat y - (T^T Nmat x)^T Sinv (T^T Nmat y)], in both modes of
    [brave]; the function is pure, so it has no side effect. *)
Theorem innerProduct_rr_rank_reduced (n k : nat) (x y : Vec)
    (Nmat Tmat Sigma Sinv : Mat) (brave : bool) :
  length x = n -> length y = n ->
  has_shape Nmat n n -> has_shape Tmat n k -> has_shape Sigma k k ->
  symmetric Sigma -> pos_def Sigma -> is_inverse k Sigma Sinv ->
  innerProduct_rr x y Nmat Tmat Sigma None None brave
  = Ok (rank_reduced_product x y Nmat Tmat Sinv).
Proof. apply innerProduct_rr_value. Qed.

Lemma symmetric_has_shape (M : Mat) :
  wf_mat M -> symmetric M -> has_shape M (nrows M) (nrows M).
Proof.
  intros Hw Hs. pose proof (symmetric_square _ Hs) as Hsq.
  unfold has_shape. auto.
Qed.

Lemma mat_vec_symmetric (M : Mat) (x : Vec) :
  symmetric M -> mat_vec M x = vec_mat x M.
Proof. intros Hs. rewrite <- mat_vec_transpose, Hs. reflexivity. Qed.

(** [u^T (S v) = v^T (S u)] for a symmetric [S]. *)
Lemma dot_mat_vec_symmetric (S : Mat) (u v : Vec) :
  wf_mat S -> symmetric S -> length u = nrows S ->
  dot (mat_vec S v) u = dot (mat_vec S u) v.
Proof.
  intros Hw Hs Hu. rewrite dot_comm, <- dot_vec_mat by assumption.
  rewrite <- mat_vec_symmetric by assumption. reflexivity.
Qed.

Lemma dot_shapes_ok_swap (x y : Vec) (Nmat Tmat : Mat) :
  length x = length y -> dot_shapes_ok x y Nmat Tmat = dot_shapes_ok y x Nmat Tmat.
Proof. intros H. unfold dot_shapes_ok. rewrite H. reflexivity. Qed.

(** C5: for equal-length [x] and [y], a symmetric [Nmat] and a
    symmetric [Sigma], [innerProduct_rr(x, y, ...)] and
    [innerProduct_rr(y, x, ...)] return the same value, or raise the
    same exception. *)
Theorem innerProduct_rr_symmetric (x y : Vec) (Nmat Tmat Sigma : Mat) (brave : bool) :
  length x = length y ->
  wf_mat Nmat -> symmetric Nmat -> wf_mat Tmat -> wf_mat Sigma -> symmetric Sigma ->
  innerProduct_rr x y Nmat Tmat Sigma None None brave
  = innerProduct_rr y x Nmat Tmat Sigma None None brave.
Proof.
  intros Hxy HNw HNs HTw HSw HSs.
  rewrite !innerProduct_rr_default by assumption.
  rewrite <- (dot_shapes_ok_swap x y) by assumption.
  destruct (dot_shapes_ok x y Nmat Tmat) eqn:Hok; [|reflexivity].
  unfold dot_shapes_ok in Hok. rewrite !andb_true_iff, !Nat.eqb_eq in Hok.
  destruct Hok as (((Hx & Hy) & _) & HT).
  pose proof (symmetric_has_shape _ HSw HSs) as HSsh.
  pose proof (symmetric_square _ HSs) as HSsq.
  destruct (cho_factor Sigma (negb brave)) as [cf|e] eqn:Hcf; [|reflexivity].
  rewrite cho_factor_eq in Hcf by assumption.
  pose proof (symmetric_sym_rows _ _ HSsh HSs) as Hrows.
  pose proof (potrf_wf _ _ _ Hrows Hcf) as Hwf.
  cbn [bind]. cbv zeta.
  set (tnx := mat_vec (transpose Tmat) (mat_vec Nmat x)).
  set (tny := mat_vec (transpose Tmat) (mat_vec Nmat y)).
  assert (Htnx : length tnx = ncols Tmat) by (apply length_mat_vec_transpose; auto).
  assert (Htny : length tny = ncols Tmat) by (apply length_mat_vec_transpose; auto).
  rewrite (wf_factor_length _ _ Hwf), Htnx, Htny.
  destruct (Nat.eqb (nrows Sigma) (ncols Tmat)) eqn:Hk; [|reflexivity].
  apply Nat.eqb_eq in Hk.
  rewrite !(length_potrs (nrows Sigma)) by congruence.
  rewrite Hk, Nat.eqb_refl. f_equal. f_equal.
  - rewrite dot_vec_mat by auto. rewrite mat_vec_symmetric by assumption.
    apply dot_comm.
  - assert (Hu : mat_vec Sigma (potrs cf tny) = tny).
    { unfold mat_vec. eapply potrf_solve; eauto. congruence. }
    assert (Hv : mat_vec Sigma (potrs cf tnx) = tnx).
    { unfold mat_vec. eapply potrf_solve; eauto. congruence. }
    rewrite <- Hv at 1. rewrite <- Hu at 2.
    apply dot_mat_vec_symmetric; auto.
    apply length_potrs; auto. congruence.
Qed.

(** C9: with consistent shapes and a symmetric [Sigma] that is not
    positive definite, [innerProduct_rr] raises [LinAlgError] for
    [brave=True] as for [brave=False]: [brave] reaches only
    [check_finite]. *)
Theorem innerProduct_rr_not_pos_def (n k : nat) (x y : Vec)
    (Nmat Tmat Sigma : Mat) (brave : bool) :
  length x = n -> length y = n ->
  has_shape Nmat n n -> has_shape Tmat n k -> has_shape Sigma k k ->
  symmetric Sigma -> ~ pos_def Sigma ->
  innerProduct_rr x y Nmat Tmat Sigma None None brave = Err LinAlgError.
Proof.
  intros Hx Hy HN HT HS Hsym Hnpd.
  rewrite innerProduct_rr_default by apply HN.
  rewrite (dot_shapes_ok_true n k) by assumption.
  rewrite (cho_factor_not_pos_def k) by assumption. reflexivity.
Qed.

Lemma innerProduct_rr_guard_error (x y : Vec) (Nmat Tmat Sigma : Mat)
    (TNx TNy : option Vec) (brave : bool) :
  none_guard TNx TNy = Err ValueError ->
  innerProduct_rr x y Nmat Tmat Sigma TNx TNy brave = Err ValueError.
Proof.
  intros Hg. unfold innerProduct_rr, np_dot_vm, np_dot_vv, np_dot_mv. rewrite Hg.
  repeat match goal with
         | |- context [if ?c then _ else _] => destruct c; cbn [bind]; auto
         end.
Qed.

(** C10: when [TNx] is an array of more than one entry, or [TNx] is
    [None] and [TNy] is such an array, the call raises [ValueError]
    whatever the other arguments are; in particular when both are
    arrays of more than one entry.  The guard holds for the default
    [None], [None]. *)
Theorem innerProduct_rr_precomputed_unusable (x y : Vec) (Nmat Tmat Sigma : Mat)
    (brave : bool) :
  (forall a TNy, (1 < length a)%nat ->
     innerProduct_rr x y Nmat Tmat Sigma (Some a) TNy brave = Err ValueError)
  /\ (forall b, (1 < length b)%nat ->
     innerProduct_rr x y Nmat Tmat Sigma None (Some b) brave = Err ValueError)
  /\ none_guard None None = Ok true.
Proof.
  split; [|split].
  - intros a TNy Ha. apply innerProduct_rr_guard_error.
    apply none_guard_array_l. exact Ha.
  - intros b Hb. apply innerProduct_rr_guard_error.
    apply none_guard_array_r. exact Hb.
  - reflexivity.
Qed.

(** The inner product is linear in its second argument. *)
Lemma innerProduct_rr_scale_r (c : R) (x y : Vec) (Nmat Tmat Sigma : Mat) (brave : bool) :
  innerProduct_rr x (scale c y) Nmat Tmat Sigma None None brave
  = rmap (Rmult c) (innerProduct_rr x y Nmat Tmat Sigma None None brave).
Proof.
  unfold innerProduct_rr, np_dot_vm, np_dot_vv, np_dot_mv.
  rewrite none_guard_default, !mat_vec_linear_scale, !length_scale.
  destruct (Nat.eqb (length x) (nrows Nmat)); cbn [bind]; auto.
  destruct (Nat.eqb (length (vec_mat x Nmat)) (length y)); cbn [bind]; auto.
  destruct (Nat.eqb (ncols Nmat) (length x)); cbn [bind]; auto.
  destruct (Nat.eqb (ncols Nmat) (length y)); cbn [bind]; auto.
  destruct (Nat.eqb (ncols (transpose Tmat)) (length (mat_vec Nmat x))); cbn [bind]; auto.
  rewrite !mat_vec_linear_scale, !length_scale.
  destruct (Nat.eqb (ncols (transpose Tmat)) (length (mat_vec Nmat y)));
    cbn [bind fst snd]; auto.
  destruct (cho_factor Sigma (negb brave)) as [cf|e]; cbn [bind]; auto.
  unfold cho_solve. rewrite !forallb_isfinite, !andb_false_r, !length_scale.
  destruct (Nat.eqb (length cf) _); cbn [bind negb]; auto.
  rewrite potrs_scale, length_scale.
  destruct (Nat.eqb _ (length (potrs cf _))); cbn [bind rmap]; auto.
  f_equal. rewrite !dot_scale_r. ring.
Qed.

(** ** Broadcasting on equal shapes *)

Lemma stretch_same {A : Type} (n : nat) (l : list A) : length l = n -> stretch n l = l.
Proof. destruct l as [|a [|b l]]; simpl; intros <-; reflexivity. Qed.

Lemma map_stretch_same (c : nat) (rs : list Vec) :
  Forall (fun r => length r = c) rs -> map (stretch c) rs = rs.
Proof.
  induction 1 as [|r rs Hr _ IH]; simpl; auto.
  rewrite stretch_same, IH by assumption. reflexivity.
Qed.

Lemma broadcast_dim_same (n : nat) : broadcast_dim n n = Ok n.
Proof. unfold broadcast_dim. rewrite Nat.eqb_refl. reflexivity. Qed.

Lemma broadcast2_same_shape (op : R -> R -> R) (A B : Mat) (r c : nat) :
  has_shape A r c -> has_shape B r c ->
  broadcast2 op A B = Ok (mkMat c (map2 (map2 op) (rows A) (rows B))).
Proof.
  intros (HAr & HAc & HAw) (HBr & HBc & HBw). unfold broadcast2.
  rewrite HAr, HBr, HAc, HBc, !broadcast_dim_same. cbn [bind].
  unfold wf_mat in HAw, HBw. rewrite HAc in HAw. rewrite HBc in HBw.
  rewrite !map_stretch_same by assumption.
  rewrite !stretch_same by assumption. reflexivity.
Qed.

Lemma np_add_same_shape (A B : Mat) (r c : nat) :
  has_shape A r c -> has_shape B r c -> np_add A B = Ok (mat_add A B).
Proof.
  intros HA HB. unfold np_add. rewrite (broadcast2_same_shape _ A B r c) by assumption.
  unfold mat_add. destruct HA as (_ & -> & _). reflexivity.
Qed.

Lemma np_sub_same_shape (A B : Mat) (r c : nat) :
  has_shape A r c -> has_shape B r c -> np_sub A B = Ok (mat_sub A B).
Proof.
  intros HA HB. unfold np_sub. rewrite (broadcast2_same_shape _ A B r c) by assumption.
  unfold mat_sub. destruct HA as (_ & -> & _). reflexivity.
Qed.

Lemma Forall_length_map2 {A B : Type} (f : A -> B -> Vec) (c : nat) (l1 : list A) (l2 : list B) :
  (forall a b, In a l1 -> In b l2 -> length (f a b) = c) ->
  Forall (fun r => length r = c) (map2 f l1 l2).
Proof.
  revert l2. induction l1 as [|a l1 IH]; intros [|b l2] H; simpl; constructor.
  - apply H; left; reflexivity.
  - apply IH. intros a' b' Ha Hb. apply H; right; assumption.
Qed.

Lemma has_shape_map2_rows (op : R -> R -> R) (A B : Mat) (r c : nat) :
  has_shape A r c -> has_shape B r c ->
  has_shape (mkMat c (map2 (map2 op) (rows A) (rows B))) r c.
Proof.
  intros (HAr & HAc & HAw) (HBr & HBc & HBw). unfold has_shape, nrows, wf_mat. simpl.
  split; [apply length_map2_same; assumption|]. split; [reflexivity|].
  apply Forall_length_map2. intros a b Ha Hb.
  unfold wf_mat in HAw, HBw. rewrite Forall_forall in HAw, HBw.
  apply length_map2_same; [rewrite (HAw a Ha)|rewrite (HBw b Hb)]; assumption.
Qed.

Lemma has_shape_mat_add (A B : Mat) (r c : nat) :
  has_shape A r c -> has_shape B r c -> has_shape (mat_add A B) r c.
Proof.
  intros HA HB. unfold mat_add. replace (ncols A) with c by (symmetry; apply HA).
  apply (has_shape_map2_rows Rplus); assumption.
Qed.

Lemma has_shape_mat_sub (A B : Mat) (r c : nat) :
  has_shape A r c -> has_shape B r c -> has_shape (mat_sub A B) r c.
Proof.
  intros HA HB. unfold mat_sub. replace (ncols A) with c by (symmetry; apply HA).
  apply (has_shape_map2_rows Rminus); assumption.
Qed.

Lemma has_shape_np_diag (v : Vec) : has_shape (np_diag v) (length v) (length v).
Proof.
  unfold has_shape, nrows, wf_mat. simpl.
  assert (H : length (diag_rows v) = length v
              /\ Forall (fun r => length r = length v) (diag_rows v)).
  { induction v as [|a v [IH1 IH2]]; simpl; [auto|].
    rewrite length_map, IH1. split; [reflexivity|]. constructor.
    - simpl. rewrite length_zeros. reflexivity.
    - apply Forall_map. eapply Forall_impl; [|exact IH2]. simpl. intros r ->. reflexivity. }
  tauto.
Qed.

Lemma has_shape_transpose (M : Mat) (r c : nat) :
  has_shape M r c -> has_shape (transpose M) c r.
Proof.
  intros (Hr & Hc & Hw). unfold has_shape, transpose, nrows, wf_mat in *. simpl.
  split; [rewrite length_cols; assumption|]. split; [assumption|].
  apply Forall_length_cols.
Qed.

Lemma has_shape_mat_mat (A B : Mat) (r m c : nat) :
  has_shape A r m -> has_shape B m c -> has_shape (mat_mat A B) r c.
Proof.
  intros (HAr & HAc & HAw) (HBr & HBc & HBw). unfold has_shape, mat_mat, nrows, wf_mat. simpl.
  split; [rewrite length_map; assumption|]. split; [assumption|].
  apply Forall_map. apply Forall_forall. intros x _. apply length_vec_mat. assumption.
Qed.

(** ** [cho_solve] on a two-dimensional right-hand side *)

Lemma map_const_nil {A : Type} (l : list A) : map (fun _ => @nil R) l = repeat [] (length l).
Proof. induction l as [|a l IH]; simpl; auto. rewrite IH. reflexivity. Qed.

Lemma map2_map_map {A B C D : Type} (g : B -> C -> D) (a : A -> B) (b : A -> C) (l : list A) :
  map2 g (map a l) (map b l) = map (fun x => g (a x) (b x)) l.
Proof. induction l as [|x l IH]; simpl; auto. rewrite IH. reflexivity. Qed.

(** Transposing a table of values [f r c]. *)
Lemma cols_table (f : Vec -> Vec -> R) (S X : list Vec) :
  cols (length S) (map (fun c => map (fun r => f r c) S) X)
  = map (fun r => map (fun c => f r c) X) S.
Proof.
  induction X as [|c X IH]; simpl.
  - symmetry. apply map_const_nil.
  - rewrite IH. apply map2_map_map.
Qed.

(** With the inverse of [Sigma] at hand, the column-wise solve is the
    product [Sinv TtN]. *)
Lemma cho_solve_mat_inverse (k n : nat) (Sigma Sinv B : Mat) (cf : factor) (chk : bool) :
  has_shape Sigma k k -> is_inverse k Sigma Sinv -> has_shape B k n ->
  wf_factor k cf -> (forall b, length b = k -> mat_vec Sigma (potrs cf b) = b) ->
  cho_solve_mat cf B chk = Ok (mat_mat Sinv B).
Proof.
  intros HS Hinv (HBr & HBc & HBw) Hwf Hsol. unfold cho_solve_mat.
  rewrite all_finite_true, andb_false_r, (wf_factor_length _ _ Hwf), HBr, Nat.eqb_refl.
  cbn [negb]. f_equal. unfold mat_mat, vec_mat. f_equal.
  destruct Hinv as (HI & Hinv). pose proof HI as (HIr & _ & _).
  unfold nrows in HIr. rewrite <- HIr.
  rewrite <- (cols_table (fun r c => dot r c)). f_equal.
  apply map_ext_in. intros c Hc.
  assert (Hlc : length c = k).
  { pose proof (Forall_length_cols (ncols B) (rows B)) as HF.
    rewrite Forall_forall in HF. rewrite (HF c Hc). exact HBr. }
  apply (inverse_unique k Sigma Sinv); auto.
  - split; assumption.
  - apply length_potrs; assumption.
Qed.

(** ** [make_Nmat] *)

Lemma has_shape_phi_dense (phiinv : Phiinv) (k : nat) :
  phi_shape phiinv k -> has_shape (phi_dense phiinv) k k.
Proof.
  destruct phiinv as [v|m]; simpl; auto. intros <-. apply has_shape_np_diag.
Qed.

Lemma np_add_Sigma (k : nat) (TNT : Mat) (phiinv : Phiinv) :
  has_shape TNT k k -> phi_shape phiinv k ->
  np_add TNT (phi_dense phiinv) = Ok (Sigma_of TNT phiinv)
  /\ has_shape (Sigma_of TNT phiinv) k k.
Proof.
  intros HT Hp. pose proof (has_shape_phi_dense _ _ Hp) as Hd. split.
  - rewrite (np_add_same_shape _ _ k k) by assumption. destruct phiinv; reflexivity.
  - destruct phiinv; apply has_shape_mat_add; assumption.
Qed.

(** The two outcomes of [make_Nmat] on consistent shapes. *)
Lemma make_Nmat_cases (n k : nat) (phiinv : Phiinv) (TNT T Sinv : Mat)
    (Nvec : NoiseDescriptor) :
  has_shape TNT k k -> phi_shape phiinv k -> has_shape T n k ->
  has_shape (solve Nvec (eye n) T) k n ->
  has_shape (solve Nvec (eye n) (eye n)) n n ->
  symmetric (Sigma_of TNT phiinv) ->
  (pos_def (Sigma_of TNT phiinv) -> is_inverse k (Sigma_of TNT phiinv) Sinv ->
   make_Nmat phiinv TNT Nvec T
   = Ok (marginalized_noise (solve Nvec (eye n) (eye n)) (solve Nvec (eye n) T) Sinv)
   /\ has_shape
        (marginalized_noise (solve Nvec (eye n) (eye n)) (solve Nvec (eye n) T) Sinv)
        n n)
  /\ (~ pos_def (Sigma_of TNT phiinv) ->
      make_Nmat phiinv TNT Nvec T = Err LinAlgError).
Proof.
  intros HTNT Hphi HT HTtN HNd Hsym.
  destruct (np_add_Sigma k TNT phiinv HTNT Hphi) as [Hadd HS].
  pose proof HT as (HTr & _ & _).
  split.
  - intros Hpd Hinv.
    destruct (cho_factor_pos_def k _ true HS Hsym Hpd) as (cf & Hcf & Hwf & Hsol).
    assert (Hprod : has_shape (mat_mat Sinv (solve Nvec (eye n) T)) k n).
    { apply has_shape_mat_mat with (m := k); [apply Hinv | assumption]. }
    assert (Hcorr : has_shape (mat_mat (transpose (solve Nvec (eye n) T))
                                 (mat_mat Sinv (solve Nvec (eye n) T))) n n).
    { apply has_shape_mat_mat with (m := k); [|assumption].
      apply has_shape_transpose. assumption. }
    split.
    + unfold make_Nmat. rewrite Hadd. cbn [bind]. rewrite Hcf. cbn [bind].
      rewrite HTr.
      rewrite (cho_solve_mat_inverse k n (Sigma_of TNT phiinv) Sinv) by assumption.
      cbn [bind]. unfold np_dot_mm.
      replace (ncols (transpose (solve Nvec (eye n) T))) with k
        by (symmetry; apply HTtN).
      replace (nrows (mat_mat Sinv (solve Nvec (eye n) T))) with k
        by (symmetry; apply Hprod).
      rewrite Nat.eqb_refl. cbn [bind].
      apply (np_sub_same_shape _ _ n n); assumption.
    + apply has_shape_mat_sub; assumption.
  - intros Hnpd. unfold make_Nmat. rewrite Hadd. cbn [bind].
    rewrite (cho_factor_not_pos_def k) by assumption. reflexivity.
Qed.

(** C3: [make_Nmat] forms [Sigma = TNT + diag(phiinv)] (or
    [TNT + phiinv]), factors it, and for a symmetric positive-definite
    [Sigma] with inverse [Sinv] returns the [n] by [n] array
    [Ndiag - TtN^T Sinv TtN], where [TtN] and [Ndiag] are what
    [Nvec.solve] gives for the identity with [T] and with the identity
    on the left; when the symmetric [Sigma] is not positive definite the
    factorization raises [LinAlgError]. *)
Theorem make_Nmat_marginalized (n k : nat) (phiinv : Phiinv) (TNT T Sinv : Mat)
    (Nvec : NoiseDescriptor) :
  has_shape TNT k k -> phi_shape phiinv k -> has_shape T n k ->
  has_shape (solve Nvec (eye n) T) k n ->
  has_shape (solve Nvec (eye n) (eye n)) n n ->
  symmetric (Sigma_of TNT phiinv) ->
  (pos_def (Sigma_of TNT phiinv) -> is_inverse k (Sigma_of TNT phiinv) Sinv ->
   make_Nmat phiinv TNT Nvec T
   = Ok (marginalized_noise (solve Nvec (eye n) (eye n)) (solve Nvec (eye n) T) Sinv)
   /\ has_shape
        (marginalized_noise (solve Nvec (eye n) (eye n)) (solve Nvec (eye n) T) Sinv)
        n n)
  /\ (~ pos_def (Sigma_of TNT phiinv) ->
      make_Nmat phiinv TNT Nvec T = Err LinAlgError).
Proof. apply make_Nmat_cases. Qed.

(** ** Index assignment *)

Lemma set_nth_app {A : Type} (pre : list A) (a v : A) (rest : list A) :
  set_nth (length pre) v (pre ++ a :: rest) = Ok (pre ++ v :: rest).
Proof.
  induction pre as [|p pre IH]; simpl; auto. rewrite IH. reflexivity.
Qed.

Lemma modify_nth_app {A : Type} (f : A -> A) (pre : list A) (a : A) (rest : list A) :
  modify_nth (length pre) f (pre ++ a :: rest) = Ok (pre ++ f a :: rest).
Proof.
  induction pre as [|p pre IH]; simpl; auto. rewrite IH. reflexivity.
Qed.

Lemma set_nth_map {A B : Type} (g : A -> B) (i : nat) (v : A) (l : list A) :
  set_nth i (g v) (map g l) = rmap (map g) (set_nth i v l).
Proof.
  revert i. induction l as [|a l IH]; intros [|i]; simpl; auto.
  rewrite IH. destruct (set_nth i v l); reflexivity.
Qed.

Lemma modify_nth_map {A B : Type} (g : A -> B) (f : A -> A) (f' : B -> B)
    (i : nat) (l : list A) :
  (forall a, f' (g a) = g (f a)) ->
  modify_nth i f' (map g l) = rmap (map g) (modify_nth i f l).
Proof.
  intros H. revert i. induction l as [|a l IH]; intros [|i]; simpl; auto.
  - rewrite H. reflexivity.
  - rewrite IH. destruct (modify_nth i f l); reflexivity.
Qed.

Lemma mapM_length {A B : Type} (f : A -> result B) (l : list A) (r : list B) :
  mapM f l = Ok r -> length r = length l.
Proof.
  revert r. induction l as [|a l IH]; intros r H; simpl in H.
  - injection H as <-. reflexivity.
  - destruct (f a) as [b|e]; try discriminate. cbn [bind] in H.
    destruct (mapM f l) as [bs|e]; try discriminate. cbn [bind] in H.
    injection H as <-. simpl. rewrite (IH bs); reflexivity.
Qed.

Lemma mapM_Forall {A B : Type} (P : B -> Prop) (f : A -> result B) (l : list A) (r : list B) :
  (forall a b, f a = Ok b -> P b) -> mapM f l = Ok r -> Forall P r.
Proof.
  intros Hf. revert r. induction l as [|a l IH]; intros r H; simpl in H.
  - injection H as <-. constructor.
  - destruct (f a) as [b|e] eqn:E; try discriminate. cbn [bind] in H.
    destruct (mapM f l) as [bs|e]; try discriminate. cbn [bind] in H.
    injection H as <-. constructor; eauto.
Qed.

(** ** The loop over the pulsars *)

Lemma pulsar_products_shape (f0 : R) (brave : bool) (q : Pulsar * Mat * Mat * Phiinv * Mat)
    (p : Vec * list Vec) :
  products_of f0 brave q = Ok p -> length (fst p) = 4%nat /\ block_4x4 (snd p).
Proof.
  destruct q as [[[[psr Nmat] TNT] phiinv] T]. unfold products_of, pulsar_products.
  destruct (np_add TNT (phi_dense phiinv)) as [Sigma|e]; try discriminate. cbn [bind].
  repeat (destruct (innerProduct_rr _ (residuals psr) _ _ _ _ _ _) as [?|?];
          try discriminate; cbn [bind]).
  destruct (mapM _ (seq 0 4)) as [Mb|e] eqn:E; try discriminate. cbn [bind].
  intros H. injection H as <-. simpl. split; [reflexivity|]. split.
  - apply mapM_length in E. exact E.
  - eapply mapM_Forall; [|exact E]. intros jj b Hb. apply mapM_length in Hb. exact Hb.
Qed.

(** The loop assigns the products of the zipped entries to consecutive
    rows and leaves the rows after them as they are. *)
Lemma pulsar_loop_app (f0 : R) (brave : bool) (l : list (Pulsar * Mat * Mat * Phiinv * Mat)) :
  forall (preN N : list Vec) (preM M : list (list Vec)),
  length preN = length preM ->
  (length l <= length N)%nat -> (length l <= length M)%nat ->
  pulsar_loop f0 brave (length preN) l (preN ++ N) (preM ++ M)
  = ps <- mapM (products_of f0 brave) l ;;
    Ok (preN ++ map fst ps ++ skipn (length l) N,
        preM ++ map snd ps ++ skipn (length l) M).
Proof.
  induction l as [|q l IH]; intros preN N preM M Hpre HN HM.
  - reflexivity.
  - destruct N as [|n0 N]; [simpl in HN; lia|].
    destruct M as [|m0 M]; [simpl in HM; lia|].
    destruct q as [[[[psr Nmat] TNT] phiinv] T].
    cbn [pulsar_loop mapM products_of].
    destruct (pulsar_products f0 brave psr Nmat TNT phiinv T) as [p|e]; [|reflexivity].
    cbn [bind]. rewrite set_nth_app. cbn [bind].
    rewrite Hpre, set_nth_app. cbn [bind].
    replace (S (length preM)) with (length (preN ++ [fst p]))
      by (rewrite length_app, Hpre; simpl; lia).
    replace (preN ++ fst p :: N) with ((preN ++ [fst p]) ++ N)
      by (rewrite <- app_assoc; reflexivity).
    replace (preM ++ snd p :: M) with ((preM ++ [snd p]) ++ M)
      by (rewrite <- app_assoc; reflexivity).
    rewrite IH; try (simpl in *; lia).
    + destruct (mapM (products_of f0 brave) l) as [ps|e]; [|reflexivity].
      cbn [bind map skipn length]. rewrite <- !app_assoc. reflexivity.
    + rewrite !length_app. simpl. lia.
Qed.

Lemma length_combine_le_l {A B : Type} (l1 : list A) (l2 : list B) :
  (length (combine l1 l2) <= length l1)%nat.
Proof. rewrite length_combine. apply Nat.le_min_l. Qed.

Lemma Forall_skipn {A : Type} (P : A -> Prop) (n : nat) (l : list A) :
  Forall P l -> Forall P (skipn n l).
Proof.
  intros H. revert n. induction H as [|a l Ha Hl IH]; intros [|n]; simpl; auto.
Qed.

Lemma zero_block_4x4 : block_4x4 zero_block.
Proof. split; [reflexivity|]. repeat constructor. Qed.

Lemma length_sum_rows (NN : list Vec) :
  Forall (fun r => length r = 4%nat) NN -> length (sum_rows NN) = 4%nat.
Proof.
  induction 1 as [|r NN Hr _ IH]; simpl; auto.
  apply length_vadd; assumption.
Qed.

Lemma sum_blocks_4x4 (MM : list (list Vec)) :
  Forall block_4x4 MM -> block_4x4 (sum_blocks MM).
Proof.
  induction 1 as [|b MM [Hb1 Hb2] _ [IH1 IH2]]; simpl.
  - apply zero_block_4x4.
  - split; [apply length_map2_same; assumption|].
    apply Forall_length_map2. intros x y Hx Hy.
    rewrite Forall_forall in Hb2, IH2.
    apply length_vadd; auto.
Qed.

(** The weights that [compute_Fe] multiplies by are
    [(F_p, F_p, F_c, F_c)], and its 4 by 4 table is the outer product of
    that vector with itself. *)
Lemma pattern_vec_weights (F_p F_c : R) :
  pattern_vec F_p F_c = antenna_weights (F_p, F_c).
Proof. reflexivity. Qed.

Lemma pattern_block_outer (F_p F_c : R) :
  pattern_block F_p F_c
  = outer (antenna_weights (F_p, F_c)) (antenna_weights (F_p, F_c)).
Proof.
  cbv [pattern_block outer antenna_weights map fst snd].
  repeat (f_equal; try ring).
Qed.

(** [np.sum(..., axis=0)] adds up entry by entry. *)
Lemma sum_rows_entrywise (NN : list Vec) :
  sum_rows NN = fold_right (map2 Rplus) [0; 0; 0; 0] NN.
Proof. reflexivity. Qed.

Lemma sum_blocks_entrywise (MM : list (list Vec)) :
  sum_blocks MM
  = fold_right (map2 (map2 Rplus))
      [[0; 0; 0; 0]; [0; 0; 0; 0]; [0; 0; 0; 0]; [0; 0; 0; 0]] MM.
Proof. reflexivity. Qed.

Lemma length_weighted_N (F : R * R) (v : Vec) :
  length v = 4%nat -> length (weighted_N F v) = 4%nat.
Proof. intros H. apply length_map2_same; auto. Qed.

Lemma weighted_M_4x4 (F : R * R) (b : list Vec) :
  block_4x4 b -> block_4x4 (weighted_M F b).
Proof.
  intros [H1 H2]. split; [apply length_map2_same; auto|].
  apply Forall_length_map2. intros x y Hx Hy. rewrite Forall_forall in H2.
  apply length_map2_same; auto.
  simpl in Hy. repeat (destruct Hy as [<-|Hy]; [reflexivity|]). contradiction.
Qed.

Lemma Forall_map2 {A B C : Type} (P : B -> Prop) (Q : C -> Prop) (f : A -> B -> C)
    (l1 : list A) (l2 : list B) :
  (forall a b, P b -> Q (f a b)) -> Forall P l2 -> Forall Q (map2 f l1 l2).
Proof.
  intros Hf H. revert l1. induction H as [|b l2 Hb _ IH]; intros [|a l1]; simpl;
    constructor; auto.
Qed.

Section SkyLoop.

Context {Params : Type}.
Variable create_gw_antenna_pattern : Vec -> R -> R -> R * R * R.
Variable pinv : Mat -> Mat.

(** The shape of what [np.linalg.pinv] returns for a 4 by 4 array. *)
Hypothesis pinv_shape : forall M, has_shape M 4 4 -> has_shape (pinv M) 4 4.

(** ** The arrays [N] and [M] *)

Lemma per_pulsar_eq (self : FeStat Params) (nmats : list Mat) (f0 : R) (brave : bool) :
  per_pulsar self nmats f0 brave
  = ps <- mapM (products_of f0 brave) (zipped self nmats) ;;
    Ok (map fst ps ++ skipn (length (zipped self nmats))
                        (repeat (zeros 4) (length (psrs self))),
        map snd ps ++ skipn (length (zipped self nmats))
                        (repeat zero_block (length (psrs self)))).
Proof.
  unfold per_pulsar.
  assert (Hle : (length (zipped self nmats) <= length (psrs self))%nat).
  { unfold zipped. repeat (etransitivity; [apply length_combine_le_l|]). reflexivity. }
  apply (pulsar_loop_app f0 brave (zipped self nmats) [] _ [] _);
    rewrite ?repeat_length; auto.
Qed.

Lemma per_pulsar_shape (self : FeStat Params) (nmats : list Mat) (f0 : R) (brave : bool)
    (N : list Vec) (M : list (list Vec)) :
  per_pulsar self nmats f0 brave = Ok (N, M) ->
  length N = length (psrs self) /\ Forall (fun r => length r = 4%nat) N
  /\ length M = length (psrs self) /\ Forall block_4x4 M.
Proof.
  rewrite per_pulsar_eq.
  assert (Hle : (length (zipped self nmats) <= length (psrs self))%nat).
  { unfold zipped. repeat (etransitivity; [apply length_combine_le_l|]). reflexivity. }
  destruct (mapM _ _) as [ps|e] eqn:E; try discriminate. cbn [bind].
  intros H. injection H as <- <-.
  pose proof (mapM_length _ _ _ E) as Hlen.
  assert (Hps : Forall (fun p => length (fst p) = 4%nat /\ block_4x4 (snd p)) ps).
  { eapply mapM_Forall; [|exact E]. intros q p. apply pulsar_products_shape. }
  rewrite !length_app, !length_map, !length_skipn, !repeat_length, Hlen.
  repeat split; try lia.
  - apply Forall_app. split.
    + apply Forall_map. eapply Forall_impl; [|exact Hps]. simpl. tauto.
    + apply Forall_skipn. apply Forall_forall. intros r Hr.
      apply repeat_spec in Hr. subst. reflexivity.
  - apply Forall_app. split.
    + apply Forall_map. eapply Forall_impl; [|exact Hps]. simpl. tauto.
    + apply Forall_skipn. apply Forall_forall. intros r Hr.
      apply repeat_spec in Hr. subst. apply zero_block_4x4.
Qed.

(** ** One sky position *)

Lemma antenna_loop_app (theta phi : R) (ps : list Pulsar) :
  forall (preN NN : list Vec) (preM MM : list (list Vec)),
  length preN = length preM -> length NN = length ps -> length MM = length ps ->
  antenna_loop create_gw_antenna_pattern [theta; phi] (length preN) ps
    (preN ++ NN) (preM ++ MM)
  = Ok (preN ++ map2 weighted_N (antenna_coefficients create_gw_antenna_pattern ps theta phi) NN,
        preM ++ map2 weighted_M (antenna_coefficients create_gw_antenna_pattern ps theta phi) MM).
Proof.
  induction ps as [|psr ps IH]; intros preN NN preM MM Hpre HN HM.
  - destruct NN; try discriminate. destruct MM; try discriminate. reflexivity.
  - destruct NN as [|n0 NN]; try discriminate. destruct MM as [|m0 MM]; try discriminate.
    cbn [antenna_loop get_nth nth_error bind antenna_coefficients map map2].
    destruct (create_gw_antenna_pattern (pos psr) theta phi) as [[F_p F_c] F_x].
    rewrite modify_nth_app. cbn [bind]. rewrite Hpre, modify_nth_app. cbn [bind].
    replace (S (length preM)) with (length (preN ++ [vmul n0 (pattern_vec F_p F_c)]))
      by (rewrite length_app, Hpre; simpl; lia).
    rewrite (app_assoc preN [_] NN : preN ++ _ :: NN = _).
    rewrite (app_assoc preM [_] MM : preM ++ _ :: MM = _).
    rewrite IH; try (simpl in *; lia).
    + rewrite <- !app_assoc. cbn [app].
      rewrite pattern_vec_weights, pattern_block_outer. reflexivity.
    + rewrite !length_app. simpl. lia.
Qed.

Lemma sky_point_eq (ps : list Pulsar) (N : list Vec) (M : list (list Vec)) (theta phi : R) :
  length N = length ps -> Forall (fun r => length r = 4%nat) N ->
  length M = length ps -> Forall block_4x4 M ->
  sky_point create_gw_antenna_pattern pinv ps N M [theta; phi]
  = Ok (Fe_at create_gw_antenna_pattern pinv ps N M theta phi).
Proof.
  intros HN HNw HM HMw. unfold sky_point.
  pose proof (antenna_loop_app theta phi ps [] N [] M eq_refl HN HM) as Ha.
  cbn [app length] in Ha. rewrite Ha. clear Ha.
  cbn [bind fst snd].
  assert (HNs : length (sum_rows (map2 weighted_N
                  (antenna_coefficients create_gw_antenna_pattern ps theta phi) N)) = 4%nat).
  { apply length_sum_rows. eapply Forall_map2; [|exact HNw].
    intros F v. apply length_weighted_N. }
  assert (HMs : has_shape (mkMat 4 (sum_blocks (map2 weighted_M
                  (antenna_coefficients create_gw_antenna_pattern ps theta phi) M))) 4 4).
  { assert (Hb : block_4x4 (sum_blocks (map2 weighted_M
                   (antenna_coefficients create_gw_antenna_pattern ps theta phi) M))).
    { apply sum_blocks_4x4. eapply Forall_map2; [|exact HMw].
      intros F b. apply weighted_M_4x4. }
    destruct Hb as [Hb1 Hb2]. repeat split; assumption. }
  rewrite sum_rows_entrywise in *. rewrite sum_blocks_entrywise in *.
  fold (N_sum_at create_gw_antenna_pattern ps N theta phi) in *.
  fold (M_sum_at create_gw_antenna_pattern ps M theta phi) in *.
  destruct (pinv_shape _ HMs) as (Hr & Hc & Hw).
  unfold np_dot_mv, np_dot_vv. rewrite Hc, HNs, Nat.eqb_refl. cbn [bind].
  rewrite length_mat_vec, Hr, Nat.eqb_refl. reflexivity.
Qed.

(** ** The loop over the sky positions *)

Lemma sky_loop_app (ps : list Pulsar) (N : list Vec) (M : list (list Vec))
    (stat : Vec -> R) (positions : list Vec) :
  (forall gw_pos, In gw_pos positions ->
     sky_point create_gw_antenna_pattern pinv ps N M gw_pos = Ok (stat gw_pos)) ->
  forall pre rest : Vec, length rest = length positions ->
  sky_loop create_gw_antenna_pattern pinv ps N M (length pre) positions (pre ++ rest)
  = Ok (pre ++ map stat positions).
Proof.
  induction positions as [|gw_pos positions IH]; intros Hs pre rest Hrest.
  - destruct rest; try discriminate. reflexivity.
  - destruct rest as [|r0 rest]; try discriminate.
    cbn [sky_loop]. rewrite (Hs gw_pos) by (left; reflexivity). cbn [bind].
    rewrite set_nth_app. cbn [bind].
    replace (S (length pre)) with (length (pre ++ [stat gw_pos]))
      by (rewrite length_app; simpl; lia).
    rewrite (app_assoc pre [_] rest : pre ++ _ :: rest = _).
    rewrite IH.
    + rewrite <- app_assoc. reflexivity.
    + intros p Hp. apply Hs. right. exact Hp.
    + simpl in Hrest. lia.
Qed.

End SkyLoop.

Section Statistic.

Context {Params : Type}.
Variable create_gw_antenna_pattern : Vec -> R -> R -> R * R * R.
Variable pinv : Mat -> Mat.
Hypothesis pinv_shape : forall M, has_shape M 4 4 -> has_shape (pinv M) 4 4.

(** ** The guard and the fields it leaves alone *)

Lemma ensure_Nmats_frame (self : FeStat Params) :
  pta (snd (ensure_Nmats self)) = pta self
  /\ psrs (snd (ensure_Nmats self)) = psrs self
  /\ params (snd (ensure_Nmats self)) = params self.
Proof.
  unfold ensure_Nmats. destruct (Nmats self); [auto|].
  destruct (get_Nmats self); auto.
Qed.

Lemma per_pulsar_frame (s s' : FeStat Params) (nmats : list Mat) (f0 : R) (brave : bool) :
  pta s' = pta s -> psrs s' = psrs s -> params s' = params s ->
  per_pulsar s' nmats f0 brave = per_pulsar s nmats f0 brave.
Proof. intros H1 H2 H3. unfold per_pulsar, zipped. rewrite H1, H2, H3. reflexivity. Qed.

Lemma compute_Fe_body_frame (s s' : FeStat Params) (nmats : list Mat)
    (f0 : R) (gw_skyloc : Mat) (brave : bool) :
  pta s' = pta s -> psrs s' = psrs s -> params s' = params s ->
  compute_Fe_body create_gw_antenna_pattern pinv s' nmats f0 gw_skyloc brave
  = compute_Fe_body create_gw_antenna_pattern pinv s nmats f0 gw_skyloc brave.
Proof.
  intros H1 H2 H3. unfold compute_Fe_body.
  rewrite (per_pulsar_frame s s') by assumption. rewrite H2. reflexivity.
Qed.

Lemma compute_Fe_eq (self : FeStat Params) (f0 : R) (gw_skyloc : Mat) (brave : bool) :
  compute_Fe create_gw_antenna_pattern pinv self f0 gw_skyloc brave
  = (nmats <- fst (ensure_Nmats self) ;;
     compute_Fe_body create_gw_antenna_pattern pinv self nmats f0 gw_skyloc brave,
     snd (ensure_Nmats self)).
Proof.
  unfold compute_Fe. pose proof (ensure_Nmats_frame self) as (H1 & H2 & H3).
  destruct (ensure_Nmats self) as [[nmats|e] s']; cbn [fst snd bind] in *; [|reflexivity].
  rewrite (compute_Fe_body_frame self s') by assumption. reflexivity.
Qed.

(** ** The sky grid *)

Lemma cols_two_rows (m : nat) (thetas phis : Vec) :
  length thetas = m -> length phis = m ->
  cols m [thetas; phis] = map2 (fun t p => [t; p]) thetas phis.
Proof.
  intros Ht Hp. simpl. revert thetas phis Ht Hp.
  induction m as [|m IH]; intros [|t thetas] [|p phis] Ht Hp; simpl in *;
    try discriminate; auto.
  rewrite IH by lia. reflexivity.
Qed.

Lemma compute_Fe_body_eq (self : FeStat Params) (nmats : list Mat) (f0 : R) (brave : bool)
    (thetas phis : Vec) (m : nat) (N : list Vec) (M : list (list Vec)) :
  length thetas = m -> length phis = m ->
  per_pulsar self nmats f0 brave = Ok (N, M) ->
  compute_Fe_body create_gw_antenna_pattern pinv self nmats f0 (mkMat m [thetas; phis]) brave
  = Ok (map2 (Fe_at create_gw_antenna_pattern pinv (psrs self) N M) thetas phis).
Proof.
  intros Ht Hp HNM. unfold compute_Fe_body. rewrite HNM. cbn [bind fst snd].
  destruct (per_pulsar_shape self nmats f0 brave N M HNM) as (HN & HNw & HM & HMw).
  cbn [transpose rows ncols]. rewrite (cols_two_rows m) by assumption.
  pose proof (sky_loop_app create_gw_antenna_pattern pinv (psrs self) N M
                (fun gw_pos => Fe_at create_gw_antenna_pattern pinv (psrs self) N M
                                 (nth 0 gw_pos 0) (nth 1 gw_pos 0))
                (map2 (fun t p => [t; p]) thetas phis)) as Hloop.
  specialize (Hloop).
  assert (Hpts : forall gw_pos, In gw_pos (map2 (fun t p => [t; p]) thetas phis) ->
            sky_point create_gw_antenna_pattern pinv (psrs self) N M gw_pos
            = Ok (Fe_at create_gw_antenna_pattern pinv (psrs self) N M
                    (nth 0 gw_pos 0) (nth 1 gw_pos 0))).
  { intros gw_pos Hin.
    assert (Hf : Forall (fun v : Vec => exists t p, v = [t; p])
                   (map2 (fun t p => [t; p]) thetas phis)).
    { clear. revert phis. induction thetas as [|t thetas IH]; intros [|p phis];
        simpl; constructor; eauto. }
    rewrite Forall_forall in Hf. destruct (Hf _ Hin) as (t & p & ->).
    apply sky_point_eq; assumption. }
  specialize (Hloop Hpts [] (zeros m)). cbn [app length] in Hloop.
  rewrite Hloop.
  - rewrite map_map2. reflexivity.
  - rewrite length_zeros. symmetry. apply length_map2_same; assumption.
Qed.

(** C4: at every sky position the statistic is
    [0.5 N_sum^T pinv(M_sum) N_sum], where [N_sum] adds up, over the
    pulsars, the N-vectors scaled entry by entry by [(F+, F+, Fx, Fx)],
    and [M_sum] adds up the M-matrices scaled entry by entry by the
    outer product of [(F+, F+, Fx, Fx)] with itself, [F+] and [Fx] being
    the antenna coefficients of the pulsar at that position; once the
    loop over the pulsars has returned [N] and [M] this step raises
    nothing, and the output has one entry for each of the [m] sky
    positions. *)
Theorem compute_Fe_sky_statistic (self : FeStat Params) (f0 : R) (brave : bool)
    (thetas phis : Vec) (m : nat) (nmats : list Mat) (N : list Vec) (M : list (list Vec)) :
  0 < f0 ->
  length thetas = m -> length phis = m ->
  fst (ensure_Nmats self) = Ok nmats ->
  per_pulsar self nmats f0 brave = Ok (N, M) ->
  fst (compute_Fe create_gw_antenna_pattern pinv self f0 (mkMat m [thetas; phis]) brave)
  = Ok (map2 (Fe_at create_gw_antenna_pattern pinv (psrs self) N M) thetas phis)
  /\ length (map2 (Fe_at create_gw_antenna_pattern pinv (psrs self) N M) thetas phis) = m
  /\ (forall theta phi,
        Fe_at create_gw_antenna_pattern pinv (psrs self) N M theta phi
        = 0.5 * dot (N_sum_at create_gw_antenna_pattern (psrs self) N theta phi)
                    (mat_vec (pinv (M_sum_at create_gw_antenna_pattern (psrs self) M
                                      theta phi))
                             (N_sum_at create_gw_antenna_pattern (psrs self) N theta phi))
        /\ N_sum_at create_gw_antenna_pattern (psrs self) N theta phi
           = fold_right (map2 Rplus) [0; 0; 0; 0]
               (map2 (fun psr Np =>
                        let '(F_p, F_c, _) := create_gw_antenna_pattern (pos psr) theta phi in
                        map2 Rmult Np [F_p; F_p; F_c; F_c])
                     (psrs self) N)
        /\ rows (M_sum_at create_gw_antenna_pattern (psrs self) M theta phi)
           = fold_right (map2 (map2 Rplus))
               [[0; 0; 0; 0]; [0; 0; 0; 0]; [0; 0; 0; 0]; [0; 0; 0; 0]]
               (map2 (fun psr Mp =>
                        let '(F_p, F_c, _) := create_gw_antenna_pattern (pos psr) theta phi in
                        map2 (map2 Rmult) Mp
                          (outer [F_p; F_p; F_c; F_c] [F_p; F_p; F_c; F_c]))
                     (psrs self) M)).
Proof.
  intros _ Ht Hp Hn HNM. split; [|split].
  - rewrite compute_Fe_eq. cbn [fst]. rewrite Hn. cbn [bind].
    apply compute_Fe_body_eq; assumption.
  - apply length_map2_same; assumption.
  - intros theta phi. split; [reflexivity|].
    unfold N_sum_at, M_sum_at, antenna_coefficients, weighted_N, weighted_M.
    cbn [rows]. rewrite !map2_map_l. split; f_equal.
    + apply map2_ext. intros psr Np.
      destruct (create_gw_antenna_pattern (pos psr) theta phi) as [[F_p F_c] F_x].
      reflexivity.
    + apply map2_ext. intros psr Mp.
      destruct (create_gw_antenna_pattern (pos psr) theta phi) as [[F_p F_c] F_x].
      reflexivity.
Qed.

End Statistic.

(** ** Scaling the residuals *)

Lemma scale_zeros (c : R) (n : nat) : scale c (zeros n) = zeros n.
Proof.
  unfold scale, zeros. induction n as [|n IH]; simpl; auto.
  f_equal; [ring | exact IH].
Qed.

Lemma map_repeat {A B : Type} (f : A -> B) (a : A) (n : nat) :
  map f (repeat a n) = repeat (f a) n.
Proof. induction n as [|n IH]; simpl; auto. rewrite IH. reflexivity. Qed.

Lemma vmul_scale_l (c : R) (v w : Vec) : vmul (scale c v) w = scale c (vmul v w).
Proof.
  unfold scale, vmul. revert w. induction v as [|a v IH]; intros [|b w]; simpl; auto.
  f_equal; [ring | apply IH].
Qed.

Lemma vadd_scale (c : R) (v w : Vec) : vadd (scale c v) (scale c w) = scale c (vadd v w).
Proof.
  unfold scale, vadd. revert w. induction v as [|a v IH]; intros [|b w]; simpl; auto.
  f_equal; [ring | apply IH].
Qed.

Lemma sum_rows_scale (c : R) (NN : list Vec) :
  sum_rows (map (scale c) NN) = scale c (sum_rows NN).
Proof.
  unfold sum_rows. induction NN as [|r NN IH]; simpl.
  - symmetry. apply (scale_zeros c 4).
  - rewrite IH. apply vadd_scale.
Qed.

Lemma combine_map_l {A A' B : Type} (f : A -> A') (l1 : list A) (l2 : list B) :
  combine (map f l1) l2 = map (fun p => (f (fst p), snd p)) (combine l1 l2).
Proof.
  revert l2. induction l1 as [|a l1 IH]; intros [|b l2]; simpl; auto.
  rewrite IH. reflexivity.
Qed.

Lemma mapM_map {A A' B : Type} (f : A' -> result B) (g : A -> A') (l : list A) :
  mapM f (map g l) = mapM (fun a => f (g a)) l.
Proof. induction l as [|a l IH]; simpl; auto. rewrite IH. reflexivity. Qed.

(** Scaling the residuals of a pulsar scales its N-vector and leaves
    its M-matrix alone. *)
Lemma pulsar_products_scale (c f0 : R) (brave : bool) (psr : Pulsar)
    (Nmat TNT : Mat) (phiinv : Phiinv) (T : Mat) :
  pulsar_products f0 brave (scale_psr c psr) Nmat TNT phiinv T
  = rmap (fun p => (scale c (fst p), snd p))
         (pulsar_products f0 brave psr Nmat TNT phiinv T).
Proof.
  unfold pulsar_products. cbn [scale_psr toas residuals].
  destruct (np_add TNT (phi_dense phiinv)) as [Sigma|e]; [|reflexivity]. cbn [bind].
  rewrite !innerProduct_rr_scale_r.
  repeat (destruct (innerProduct_rr _ (residuals psr) _ _ _ _ _ _) as [?|?];
          [|reflexivity]; cbn [bind rmap]).
  destruct (mapM _ (seq 0 4)) as [Mb|e]; reflexivity.
Qed.

Lemma pulsar_loop_scale (c f0 : R) (brave : bool)
    (l : list (Pulsar * Mat * Mat * Phiinv * Mat)) :
  forall (idx : nat) (N : list Vec) (M : list (list Vec)),
  pulsar_loop f0 brave idx
    (map (fun q => let '(psr, Nmat, TNT, phiinv, T) := q in
                   (scale_psr c psr, Nmat, TNT, phiinv, T)) l)
    (map (scale c) N) M
  = rmap (fun NM => (map (scale c) (fst NM), snd NM)) (pulsar_loop f0 brave idx l N M).
Proof.
  induction l as [|[[[[psr Nmat] TNT] phiinv] T] l IH]; intros idx N M.
  - reflexivity.
  - cbn [map pulsar_loop]. rewrite pulsar_products_scale.
    destruct (pulsar_products f0 brave psr Nmat TNT phiinv T) as [p|e]; [|reflexivity].
    cbn [rmap bind fst snd]. rewrite set_nth_map.
    destruct (set_nth idx (fst p) N) as [N'|e]; [|reflexivity]. cbn [rmap bind].
    destruct (set_nth idx (snd p) M) as [M'|e]; [|reflexivity]. cbn [bind].
    apply IH.
Qed.

Section Scaling.

Context {Params : Type}.
Variable create_gw_antenna_pattern : Vec -> R -> R -> R * R * R.
Variable pinv : Mat -> Mat.

Lemma zipped_scale (c : R) (self : FeStat Params) (nmats : list Mat) :
  zipped (scale_residuals c self) nmats
  = map (fun q => let '(psr, Nmat, TNT, phiinv, T) := q in
                  (scale_psr c psr, Nmat, TNT, phiinv, T)) (zipped self nmats).
Proof.
  unfold zipped. cbn [scale_residuals pta psrs params].
  rewrite !combine_map_l. apply map_ext.
  intros [[[[psr Nmat] TNT] phiinv] T]. reflexivity.
Qed.

Lemma per_pulsar_scale (c : R) (self : FeStat Params) (nmats : list Mat)
    (f0 : R) (brave : bool) :
  per_pulsar (scale_residuals c self) nmats f0 brave
  = rmap (fun NM => (map (scale c) (fst NM), snd NM)) (per_pulsar self nmats f0 brave).
Proof.
  unfold per_pulsar. rewrite zipped_scale. cbn [scale_residuals psrs].
  rewrite length_map. rewrite <- pulsar_loop_scale.
  rewrite map_repeat, scale_zeros. reflexivity.
Qed.

Lemma antenna_loop_scale (c : R) (gw_pos : Vec) (ps : list Pulsar) :
  forall (idx : nat) (NN : list Vec) (MM : list (list Vec)),
  antenna_loop create_gw_antenna_pattern gw_pos idx (map (scale_psr c) ps)
    (map (scale c) NN) MM
  = rmap (fun NM => (map (scale c) (fst NM), snd NM))
         (antenna_loop create_gw_antenna_pattern gw_pos idx ps NN MM).
Proof.
  induction ps as [|psr ps IH]; intros idx NN MM.
  - reflexivity.
  - cbn [map antenna_loop].
    destruct (get_nth gw_pos 0) as [theta|e]; [|reflexivity]. cbn [bind].
    destruct (get_nth gw_pos 1) as [phi|e]; [|reflexivity]. cbn [bind].
    cbn [scale_psr pos].
    destruct (create_gw_antenna_pattern (pos psr) theta phi) as [[F_p F_c] F_x].
    rewrite (modify_nth_map (scale c) (fun v => vmul v (pattern_vec F_p F_c)))
      by (intros a; apply vmul_scale_l).
    destruct (modify_nth idx _ NN) as [NN'|e]; [|reflexivity]. cbn [rmap bind].
    destruct (modify_nth idx _ MM) as [MM'|e]; [|reflexivity]. cbn [bind].
    apply IH.
Qed.

Lemma sky_point_scale (c : R) (ps : list Pulsar) (N : list Vec) (M : list (list Vec))
    (gw_pos : Vec) :
  sky_point create_gw_antenna_pattern pinv (map (scale_psr c) ps) (map (scale c) N) M gw_pos
  = rmap (Rmult (c ^ 2)) (sky_point create_gw_antenna_pattern pinv ps N M gw_pos).
Proof.
  unfold sky_point. rewrite antenna_loop_scale.
  destruct (antenna_loop create_gw_antenna_pattern gw_pos 0 ps N M) as [[NN MM]|e];
    [|reflexivity].
  cbn [rmap bind fst snd]. rewrite sum_rows_scale.
  unfold np_dot_mv, np_dot_vv. rewrite length_scale.
  destruct (Nat.eqb (ncols _) (length (sum_rows NN))); [|reflexivity]. cbn [bind].
  rewrite mat_vec_linear_scale, !length_scale.
  destruct (Nat.eqb (length (sum_rows NN)) _); [|reflexivity]. cbn [bind rmap].
  f_equal. rewrite dot_scale_l, dot_scale_r. ring.
Qed.

Lemma sky_loop_scale (c : R) (ps : list Pulsar) (N : list Vec) (M : list (list Vec))
    (positions : list Vec) :
  forall (j : nat) (fstat : Vec),
  sky_loop create_gw_antenna_pattern pinv (map (scale_psr c) ps) (map (scale c) N) M
    j positions (scale (c ^ 2) fstat)
  = rmap (scale (c ^ 2)) (sky_loop create_gw_antenna_pattern pinv ps N M j positions fstat).
Proof.
  induction positions as [|gw_pos positions IH]; intros j fstat.
  - reflexivity.
  - cbn [sky_loop]. rewrite sky_point_scale.
    destruct (sky_point create_gw_antenna_pattern pinv ps N M gw_pos) as [s|e];
      [|reflexivity].
    cbn [rmap bind]. unfold scale at 1. rewrite set_nth_map.
    destruct (set_nth j s fstat) as [fstat'|e]; [|reflexivity]. cbn [rmap bind].
    apply IH.
Qed.

Lemma compute_Fe_body_scale (c : R) (self : FeStat Params) (nmats : list Mat)
    (f0 : R) (gw_skyloc : Mat) (brave : bool) :
  compute_Fe_body create_gw_antenna_pattern pinv (scale_residuals c self) nmats
    f0 gw_skyloc brave
  = rmap (scale (c ^ 2))
         (compute_Fe_body create_gw_antenna_pattern pinv self nmats f0 gw_skyloc brave).
Proof.
  unfold compute_Fe_body. rewrite per_pulsar_scale.
  destruct (per_pulsar self nmats f0 brave) as [[N M]|e]; [|reflexivity].
  cbn [rmap bind fst snd scale_residuals psrs].
  rewrite <- (scale_zeros (c ^ 2) (ncols gw_skyloc)) at 1. apply sky_loop_scale.
Qed.

Lemma ensure_Nmats_scale (c : R) (self : FeStat Params) :
  ensure_Nmats (scale_residuals c self)
  = (fst (ensure_Nmats self), scale_residuals c (snd (ensure_Nmats self))).
Proof.
  unfold ensure_Nmats. cbn [scale_residuals Nmats].
  destruct (Nmats self) as [v|]; [reflexivity|].
  change (get_Nmats (scale_residuals c self)) with (get_Nmats self).
  destruct (get_Nmats self); reflexivity.
Qed.

(** C6: multiplying every pulsar's residuals by a positive [c], with
    the same frequency, sky grid, model, parameters and cache,
    multiplies every entry of the returned statistic by [c^2]; a call
    that raises still raises the same exception, and the instance after
    the call differs only in the residuals. *)
Theorem compute_Fe_residual_scaling (c : R) (self : FeStat Params)
    (f0 : R) (gw_skyloc : Mat) (brave : bool) :
  0 < c -> 0 < f0 ->
  compute_Fe create_gw_antenna_pattern pinv (scale_residuals c self) f0 gw_skyloc brave
  = (rmap (map (Rmult (c ^ 2)))
       (fst (compute_Fe create_gw_antenna_pattern pinv self f0 gw_skyloc brave)),
     scale_residuals c
       (snd (compute_Fe create_gw_antenna_pattern pinv self f0 gw_skyloc brave))).
Proof.
  intros _ _. rewrite !compute_Fe_eq, ensure_Nmats_scale. cbn [fst snd].
  f_equal. destruct (fst (ensure_Nmats self)) as [nmats|e]; [|reflexivity].
  cbn [bind]. apply compute_Fe_body_scale.
Qed.

End Scaling.

(** ** Mismatched lengths *)

Lemma broadcast_dim_error (a b : nat) (e : exn) :
  broadcast_dim a b = Err e -> e = ValueError.
Proof.
  unfold broadcast_dim.
  destruct (Nat.eqb a b); try discriminate.
  destruct (Nat.eqb a 1); try discriminate.
  destruct (Nat.eqb b 1); try discriminate.
  congruence.
Qed.

Lemma broadcast2_error (op : R -> R -> R) (A B : Mat) (e : exn) :
  broadcast2 op A B = Err e -> e = ValueError.
Proof.
  unfold broadcast2.
  destruct (broadcast_dim (nrows A) (nrows B)) as [r|e1] eqn:E1; cbn [bind].
  - destruct (broadcast_dim (ncols A) (ncols B)) as [c|e2] eqn:E2; cbn [bind];
      try discriminate.
    intros H. injection H as <-. eapply broadcast_dim_error; eassumption.
  - intros H. injection H as <-. eapply broadcast_dim_error; eassumption.
Qed.

Lemma innerProduct_rr_length_mismatch (x y : Vec) (Nmat Tmat Sigma : Mat) (brave : bool) :
  wf_mat Nmat -> length x <> length y ->
  innerProduct_rr x y Nmat Tmat Sigma None None brave = Err ValueError.
Proof.
  intros HN Hxy. rewrite innerProduct_rr_default by assumption.
  destruct (dot_shapes_ok x y Nmat Tmat) eqn:Hok; [|reflexivity].
  unfold dot_shapes_ok in Hok. rewrite !andb_true_iff, !Nat.eqb_eq in Hok.
  exfalso. apply Hxy. lia.
Qed.

Lemma length_sin_row (f0 : R) (t : Vec) : length (sin_row f0 t) = length t.
Proof. apply length_map. Qed.


Lemma pulsar_products_length_mismatch (f0 : R) (brave : bool) (psr : Pulsar)
    (Nmat TNT : Mat) (phiinv : Phiinv) (T : Mat) :
  wf_mat Nmat -> length (toas psr) <> length (residuals psr) ->
  pulsar_products f0 brave psr Nmat TNT phiinv T = Err ValueError.
Proof.
  intros HN Hlen. unfold pulsar_products.
  destruct (np_add TNT (phi_dense phiinv)) as [Sigma|e] eqn:E; cbn [bind].
  - rewrite innerProduct_rr_length_mismatch; auto.
    cbn [signal_templates row nth]. rewrite length_sin_row. exact Hlen.
  - f_equal. eapply broadcast2_error. exact E.
Qed.

Lemma mapM_app_error {A B : Type} (f : A -> result B) (pre post : list A) (a : A)
    (done : list B) (e : exn) :
  mapM f pre = Ok done -> f a = Err e -> mapM f (pre ++ a :: post) = Err e.
Proof.
  revert done. induction pre as [|p pre IH]; intros done Hpre Ha; simpl.
  - rewrite Ha. reflexivity.
  - simpl in Hpre. destruct (f p) as [b|e']; try discriminate. cbn [bind] in *.
    destruct (mapM f pre) as [bs|e']; try discriminate.
    rewrite (IH bs); auto.
Qed.

Section Cache.

Context {Params : Type}.
Variable model_cw : list Pulsar -> Params -> PTA Params.
Variable create_gw_antenna_pattern : Vec -> R -> R -> R * R * R.
Variable pinv : Mat -> Mat.

Lemma compute_Fe_with_cache (self : FeStat Params) (v : list Mat)
    (f0 : R) (gw_skyloc : Mat) (brave : bool) :
  Nmats self = Some v ->
  compute_Fe create_gw_antenna_pattern pinv self f0 gw_skyloc brave
  = (compute_Fe_body create_gw_antenna_pattern pinv self v f0 gw_skyloc brave, self).
Proof. intros H. unfold compute_Fe, ensure_Nmats. rewrite H. reflexivity. Qed.

Lemma run_calls_cached (self : FeStat Params) (v : list Mat) (calls : list (R * Mat * bool)) :
  Nmats self = Some v ->
  run_calls create_gw_antenna_pattern pinv self calls = self.
Proof.
  intros H. induction calls as [|[[f0 sky] brave] calls IH]; simpl; auto.
  rewrite (compute_Fe_with_cache self v) by assumption. exact IH.
Qed.

Lemma cache_history_cached (self : FeStat Params) (v : list Mat)
    (calls : list (R * Mat * bool)) :
  Nmats self = Some v ->
  cache_history create_gw_antenna_pattern pinv self calls = repeat (Some v) (length calls).
Proof.
  intros H. induction calls as [|[[f0 sky] brave] calls IH]; simpl; auto.
  rewrite (compute_Fe_with_cache self v) by assumption. cbn [snd].
  rewrite H, IH. reflexivity.
Qed.

Lemma get_Nmats_runs_cached (self : FeStat Params) (v : list Mat)
    (calls : list (R * Mat * bool)) :
  Nmats self = Some v ->
  get_Nmats_runs create_gw_antenna_pattern pinv self calls = 0%nat.
Proof.
  intros H. induction calls as [|[[f0 sky] brave] calls IH]; simpl; auto.
  rewrite (compute_Fe_with_cache self v) by assumption. cbn [snd].
  rewrite H, IH. reflexivity.
Qed.

(** The first call on an instance without cache: the instance that it
    leaves has the arrays of [get_Nmats] in [Nmats] and the other
    fields as before. *)
Lemma compute_Fe_first_call (self : FeStat Params) (v : list Mat)
    (f0 : R) (gw_skyloc : Mat) (brave : bool) :
  Nmats self = None -> get_Nmats self = Ok v ->
  compute_Fe create_gw_antenna_pattern pinv self f0 gw_skyloc brave
  = (compute_Fe_body create_gw_antenna_pattern pinv self v f0 gw_skyloc brave,
     mkFeStat (pta self) (psrs self) (params self) (Some v)).
Proof.
  intros Hn Hg. rewrite compute_Fe_eq. unfold ensure_Nmats. rewrite Hn, Hg.
  reflexivity.
Qed.

(** C8: the cache is [None] after construction, and no call changes
    [pta], [psrs] or [params].  On an instance without cache, with
    [get_Nmats] returning [v], a call computes its result from [v] and
    leaves the instance with [Nmats = v]; every later call on the
    instance that it leaves computes its result from the stored [v] and
    leaves that instance as it is; after each call of a sequence that
    starts with this one the cache holds [v], and exactly one call of
    the sequence, the first, runs [get_Nmats].  When [get_Nmats] raises,
    the call raises the same exception and the cache stays [None].  On
    an instance with a cache [v], whatever [get_Nmats] would return, a
    call computes its result from [v], no call of a sequence changes the
    instance, and none runs [get_Nmats]. *)
Theorem compute_Fe_cache (self : FeStat Params) (f0 : R) (gw_skyloc : Mat) (brave : bool)
    (calls : list (R * Mat * bool)) :
  (forall ps pr, Nmats (init model_cw ps pr) = None)
  /\ (pta (snd (compute_Fe create_gw_antenna_pattern pinv self f0 gw_skyloc brave)) = pta self
      /\ psrs (snd (compute_Fe create_gw_antenna_pattern pinv self f0 gw_skyloc brave)) = psrs self
      /\ params (snd (compute_Fe create_gw_antenna_pattern pinv self f0 gw_skyloc brave))
         = params self)
  /\ (forall v, Nmats self = None -> get_Nmats self = Ok v ->
        fst (compute_Fe create_gw_antenna_pattern pinv self f0 gw_skyloc brave)
        = compute_Fe_body create_gw_antenna_pattern pinv self v f0 gw_skyloc brave
        /\ Nmats (snd (compute_Fe create_gw_antenna_pattern pinv self f0 gw_skyloc brave))
           = Some v
        /\ snd (compute_Fe create_gw_antenna_pattern pinv self f0 gw_skyloc brave)
           = mkFeStat (pta self) (psrs self) (params self) (Some v)
        /\ (forall f0' gw_skyloc' brave',
              compute_Fe create_gw_antenna_pattern pinv
                (snd (compute_Fe create_gw_antenna_pattern pinv self f0 gw_skyloc brave))
                f0' gw_skyloc' brave'
              = (compute_Fe_body create_gw_antenna_pattern pinv self v f0' gw_skyloc' brave',
                 snd (compute_Fe create_gw_antenna_pattern pinv self f0 gw_skyloc brave)))
        /\ cache_history create_gw_antenna_pattern pinv self ((f0, gw_skyloc, brave) :: calls)
           = repeat (Some v) (S (length calls))
        /\ get_Nmats_runs create_gw_antenna_pattern pinv self ((f0, gw_skyloc, brave) :: calls)
           = 1%nat)
  /\ (forall e, Nmats self = None -> get_Nmats self = Err e ->
        compute_Fe create_gw_antenna_pattern pinv self f0 gw_skyloc brave = (Err e, self)
        /\ Nmats (snd (compute_Fe create_gw_antenna_pattern pinv self f0 gw_skyloc brave))
           = None)
  /\ (forall v, Nmats self = Some v ->
        compute_Fe create_gw_antenna_pattern pinv self f0 gw_skyloc brave
        = (compute_Fe_body create_gw_antenna_pattern pinv self v f0 gw_skyloc brave, self)
        /\ run_calls create_gw_antenna_pattern pinv self calls = self
        /\ cache_history create_gw_antenna_pattern pinv self calls
           = repeat (Some v) (length calls)
        /\ get_Nmats_runs create_gw_antenna_pattern pinv self calls = 0%nat).
Proof.
  split; [reflexivity|]. split; [|split; [|split]].
  - rewrite compute_Fe_eq. cbn [snd]. apply ensure_Nmats_frame.
  - intros v Hn Hg.
    pose proof (compute_Fe_first_call self v f0 gw_skyloc brave Hn Hg) as H1.
    set (self' := mkFeStat (pta self) (psrs self) (params self) (Some v)) in *.
    assert (Hc : Nmats self' = Some v) by reflexivity.
    cbn [cache_history get_Nmats_runs]. rewrite H1. cbn [fst snd].
    rewrite Hn, Hc.
    rewrite (cache_history_cached self' v calls Hc).
    rewrite (get_Nmats_runs_cached self' v calls Hc).
    split; [reflexivity|]. split; [reflexivity|]. split; [reflexivity|].
    split; [|split; reflexivity].
    intros f0' gw_skyloc' brave'.
    rewrite (compute_Fe_with_cache self' v) by exact Hc.
    rewrite (compute_Fe_body_frame _ _ self self') by reflexivity. reflexivity.
  - intros e Hn Hg. rewrite compute_Fe_eq. unfold ensure_Nmats. rewrite Hn, Hg.
    split; [reflexivity | exact Hn].
  - intros v Hv. split; [apply compute_Fe_with_cache; assumption|].
    split; [apply (run_calls_cached self v); assumption|].
    split; [apply cache_history_cached | apply (get_Nmats_runs_cached self v)]; assumption.
Qed.

(** C7, as the code has it: there is no validation and no
    [ShapeMismatchError].  When the first pulsar of the zipped list whose
    products fail has [toas] and [residuals] of different lengths, the
    call raises NumPy's [ValueError] from that pulsar's inner products;
    the guard has run before, so an instance without cache leaves the
    call with the arrays of [get_Nmats] stored, each of them built by
    [make_Nmat] from a Cholesky factor. *)
Theorem compute_Fe_length_mismatch (self : FeStat Params) (f0 : R) (gw_skyloc : Mat)
    (brave : bool) (nmats : list Mat)
    (pre post : list (Pulsar * Mat * Mat * Phiinv * Mat)) (done : list (Vec * list Vec))
    (psr : Pulsar) (Nmat TNT : Mat) (phiinv : Phiinv) (T : Mat) :
  0 < f0 ->
  fst (ensure_Nmats self) = Ok nmats ->
  zipped self nmats = pre ++ (psr, Nmat, TNT, phiinv, T) :: post ->
  mapM (products_of f0 brave) pre = Ok done ->
  wf_mat Nmat ->
  length (toas psr) <> length (residuals psr) ->
  compute_Fe create_gw_antenna_pattern pinv self f0 gw_skyloc brave
  = (Err ValueError, snd (ensure_Nmats self))
  /\ (Nmats self = None ->
      get_Nmats self = Ok nmats /\ snd (ensure_Nmats self) = set_Nmats self nmats).
Proof.
  intros _ Hn Hz Hpre HN Hlen. split.
  - rewrite compute_Fe_eq, Hn. cbn [bind]. f_equal.
    unfold compute_Fe_body. rewrite per_pulsar_eq, Hz.
    rewrite (mapM_app_error _ pre post _ done ValueError); auto.
    cbn [products_of]. apply pulsar_products_length_mismatch; assumption.
  - intros Hnone. unfold ensure_Nmats in *. rewrite Hnone in *.
    destruct (get_Nmats self) as [v|e]; cbn [fst snd] in *; try discriminate.
    injection Hn as ->. auto.
Qed.

End Cache.

(** ** The worked inputs *)

Ltac real_eq :=
  unfold zeros, vadd, vsub, vmul, scale; simpl;
  repeat first
    [ match goal with |- @eq R _ _ => first [lra | field] end
    | reflexivity
    | progress f_equal ].

Ltac mat_eval :=
  cbv [white_noise solve mat_mat vec_mat mat_vec transpose eye eye_rows nrows ncols rows
       cols map2 map dot zeros repeat length vadd vsub vmul scale mat_add mat_sub
       marginalized_noise rank_reduced_product Sigma_of np_diag diag_rows
       ex_one ex_Sigma ex_Sinv ex_Nmat ex_phiinv];
  real_eq.

Ltac shape_tac :=
  unfold has_shape, nrows, wf_mat; simpl; repeat split; repeat constructor.

Lemma ex2_Nmat_shape : has_shape ex2_Nmat 2 2.
Proof. shape_tac. Qed.

Lemma ex2_Tmat_shape : has_shape ex2_Tmat 2 2.
Proof. shape_tac. Qed.

Lemma ex2_Sigma_shape : has_shape ex2_Sigma 2 2.
Proof. shape_tac. Qed.

Lemma ex2_Sigma_symmetric : symmetric ex2_Sigma.
Proof. reflexivity. Qed.

Lemma ex2_Nmat_symmetric : symmetric ex2_Nmat.
Proof. reflexivity. Qed.

Lemma two_entries (x : Vec) :
  length x = 2%nat -> x <> zeros 2 ->
  exists a b, x = [a; b] /\ (a <> 0 \/ b <> 0).
Proof.
  destruct x as [|a [|b [|c x]]]; try discriminate. intros _ Hnz.
  exists a, b. split; [reflexivity|].
  destruct (Req_dec a 0) as [Ha|Ha]; [|left; assumption].
  right. intros Hb. apply Hnz. subst. reflexivity.
Qed.

Lemma ex2_Sigma_pos_def : pos_def ex2_Sigma.
Proof.
  intros x Hx Hnz. destruct (two_entries x Hx Hnz) as (a & b & -> & Hab).
  unfold quad_form, mat_vec. simpl.
  assert (H : 0 < a * a + b * b).
  { destruct Hab as [Ha|Hb].
    - pose proof (Rsqr_pos_lt a Ha) as H1. pose proof (Rle_0_sqr b) as H2.
      unfold Rsqr in *. lra.
    - pose proof (Rsqr_pos_lt b Hb) as H1. pose proof (Rle_0_sqr a) as H2.
      unfold Rsqr in *. lra. }
  pose proof (Rle_0_sqr (a + b)) as H3. unfold Rsqr in H3. nra.
Qed.

Lemma ex2_Sinv_inverse : is_inverse 2 ex2_Sigma ex2_Sinv.
Proof.
  split; [shape_tac|]. unfold mat_mat, vec_mat, eye. simpl.
  real_eq.
Qed.

Lemma ex2_indefinite_shape : has_shape ex2_indefinite 2 2.
Proof. shape_tac. Qed.

Lemma ex2_indefinite_symmetric : symmetric ex2_indefinite.
Proof. reflexivity. Qed.

Lemma ex2_indefinite_not_pos_def : ~ pos_def ex2_indefinite.
Proof.
  intros H. specialize (H [1; -1] eq_refl).
  unfold quad_form, mat_vec in H. simpl in H.
  assert (Hnz : [1; -1] <> zeros 2) by (simpl; intros E; injection E as E _; lra).
  specialize (H Hnz). lra.
Qed.

Lemma ex_one_shape : has_shape ex_one 1 1.
Proof. shape_tac. Qed.

Lemma ex_Nmat_shape : has_shape ex_Nmat 1 1.
Proof. shape_tac. Qed.

Lemma ex_Sigma_shape : has_shape ex_Sigma 1 1.
Proof. shape_tac. Qed.

Lemma ex_Sigma_symmetric : symmetric ex_Sigma.
Proof. reflexivity. Qed.

Lemma ex_Sigma_pos_def : pos_def ex_Sigma.
Proof.
  intros x Hx Hnz. destruct x as [|a [|b x]]; try discriminate.
  assert (Ha : a <> 0) by (intros ->; apply Hnz; reflexivity).
  unfold quad_form, mat_vec. simpl.
  pose proof (Rsqr_pos_lt a Ha) as H. unfold Rsqr in H. lra.
Qed.

Lemma ex_Sinv_inverse : is_inverse 1 ex_Sigma ex_Sinv.
Proof.
  split; [shape_tac|]. unfold mat_mat, vec_mat, eye. simpl.
  real_eq.
Qed.

Lemma ex_Sigma_of : Sigma_of ex_one ex_phiinv = ex_Sigma.
Proof. mat_eval. Qed.

Lemma ex_np_add : np_add ex_one (phi_dense ex_phiinv) = Ok ex_Sigma.
Proof.
  rewrite <- ex_Sigma_of. apply (np_add_Sigma 1); [apply ex_one_shape | reflexivity].
Qed.

Lemma ex_white_noise_TtN : solve white_noise (eye 1) ex_one = ex_one.
Proof. mat_eval. Qed.

Lemma ex_white_noise_Ndiag : solve white_noise (eye 1) (eye 1) = ex_one.
Proof. mat_eval. Qed.

Lemma ex_marginalized : marginalized_noise ex_one ex_one ex_Sinv = ex_Nmat.
Proof.
  mat_eval.
Qed.

Lemma ex_make_Nmat : make_Nmat ex_phiinv ex_one white_noise ex_one = Ok ex_Nmat.
Proof.
  destruct (make_Nmat_cases 1 1 ex_phiinv ex_one ex_one ex_Sinv white_noise) as [H _];
    try (rewrite ?ex_white_noise_TtN, ?ex_white_noise_Ndiag, ?ex_Sigma_of);
    try apply ex_one_shape; try reflexivity; try apply ex_Sigma_symmetric.
  rewrite ex_Sigma_of in H.
  destruct (H ex_Sigma_pos_def ex_Sinv_inverse) as [Hv _].
  rewrite Hv, ex_white_noise_TtN, ex_white_noise_Ndiag, ex_marginalized. reflexivity.
Qed.

Lemma ex_get_Nmats (ps : list Pulsar) (v : option (list Mat)) :
  get_Nmats (mkFeStat ex_pta ps tt v) = Ok [ex_Nmat].
Proof. unfold get_Nmats. simpl. rewrite ex_make_Nmat. reflexivity. Qed.

(** The inner product of two one-entry series on the worked arrays. *)
Lemma ex_innerProduct (a b : R) (brave : bool) :
  innerProduct_rr [a] [b] ex_Nmat ex_one ex_Sigma None None brave
  = Ok (39 / 64 * a * b).
Proof.
  rewrite (innerProduct_rr_value 1 1 [a] [b] ex_Nmat ex_one ex_Sigma ex_Sinv);
    try reflexivity; auto using ex_Nmat_shape, ex_one_shape, ex_Sigma_shape,
      ex_Sigma_symmetric, ex_Sigma_pos_def, ex_Sinv_inverse.
  unfold rank_reduced_product, mat_vec. simpl. f_equal. field.
Qed.

Lemma amplitude_1 : amplitude 1 = 1.
Proof.
  unfold amplitude, Rpower. rewrite ln_1, Rmult_0_r, exp_0. field.
Qed.

Lemma ex_sin_row : sin_row 1 [0] = [0].
Proof.
  unfold sin_row. simpl. rewrite amplitude_1.
  replace (2 * PI * 1 * 0) with 0 by ring. rewrite sin_0. f_equal. ring.
Qed.

Lemma ex_cos_row : cos_row 1 [0] = [1].
Proof.
  unfold cos_row. simpl. rewrite amplitude_1.
  replace (2 * PI * 1 * 0) with 0 by ring. rewrite cos_0. f_equal. ring.
Qed.

Lemma ex_signal_templates : signal_templates 1 [0] = [[0]; [1]; [0]; [1]].
Proof. unfold signal_templates. rewrite ex_sin_row, ex_cos_row. reflexivity. Qed.

Lemma ex_pulsar_products (brave : bool) :
  pulsar_products 1 brave ex_psr ex_Nmat ex_one ex_phiinv ex_one
  = Ok ([0; 39 / 64; 0; 0],
        [ [0; 0; 0; 0]; [0; 39 / 64; 0; 39 / 64]; [0; 0; 0; 0]; [0; 39 / 64; 0; 39 / 64] ]).
Proof.
  unfold pulsar_products. rewrite ex_np_add. cbn [bind].
  cbn [ex_psr toas residuals]. rewrite ex_signal_templates.
  cbn [row nth seq mapM]. rewrite !ex_innerProduct. cbn [bind].
  real_eq.
Qed.

Lemma ex_per_pulsar (brave : bool) (v : option (list Mat)) :
  per_pulsar (mkFeStat ex_pta [ex_psr] tt v) [ex_Nmat] 1 brave = Ok (ex_N, ex_M).
Proof.
  unfold per_pulsar, zipped. cbn [pta psrs params ex_pta get_phiinv get_TNT get_basis
    combine length repeat pulsar_loop].
  rewrite ex_pulsar_products. reflexivity.
Qed.

(** ** The statements at the worked inputs *)

Lemma ex2_product_value :
  rank_reduced_product ex2_x ex2_y ex2_Nmat ex2_Tmat ex2_Sinv = -116.
Proof.
  cbv [rank_reduced_product mat_vec transpose nrows ncols rows cols map2 map dot repeat
       ex2_x ex2_y ex2_Nmat ex2_Tmat ex2_Sinv].
  field.
Qed.

Lemma innerProduct_rr_rank_reduced_witness :
  innerProduct_rr ex2_x ex2_y ex2_Nmat ex2_Tmat ex2_Sigma None None false
  = Ok (rank_reduced_product ex2_x ex2_y ex2_Nmat ex2_Tmat ex2_Sinv).
Proof.
  exact (innerProduct_rr_rank_reduced 2 2 ex2_x ex2_y ex2_Nmat ex2_Tmat ex2_Sigma ex2_Sinv
           false eq_refl eq_refl ex2_Nmat_shape ex2_Tmat_shape ex2_Sigma_shape
           ex2_Sigma_symmetric ex2_Sigma_pos_def ex2_Sinv_inverse).
Defined.

Lemma innerProduct_rr_symmetric_witness :
  innerProduct_rr ex2_x ex2_y ex2_Nmat ex2_Tmat ex2_Sigma None None false
  = innerProduct_rr ex2_y ex2_x ex2_Nmat ex2_Tmat ex2_Sigma None None false.
Proof.
  exact (innerProduct_rr_symmetric ex2_x ex2_y ex2_Nmat ex2_Tmat ex2_Sigma false eq_refl
           (proj2 (proj2 ex2_Nmat_shape)) ex2_Nmat_symmetric
           (proj2 (proj2 ex2_Tmat_shape))
           (proj2 (proj2 ex2_Sigma_shape)) ex2_Sigma_symmetric).
Defined.

Lemma innerProduct_rr_not_pos_def_witness :
  innerProduct_rr ex2_x ex2_y ex2_Nmat ex2_Tmat ex2_indefinite None None true
  = Err LinAlgError.
Proof.
  exact (innerProduct_rr_not_pos_def 2 2 ex2_x ex2_y ex2_Nmat ex2_Tmat ex2_indefinite
           true eq_refl eq_refl ex2_Nmat_shape ex2_Tmat_shape ex2_indefinite_shape
           ex2_indefinite_symmetric ex2_indefinite_not_pos_def).
Defined.

Lemma innerProduct_rr_precomputed_unusable_witness :
  innerProduct_rr ex2_x ex2_y ex2_Nmat ex2_Tmat ex2_Sigma (Some [11; 7]) (Some [29; 18]) false
  = Err ValueError.
Proof.
  apply (proj1 (innerProduct_rr_precomputed_unusable ex2_x ex2_y ex2_Nmat ex2_Tmat
                  ex2_Sigma false)).
  simpl. lia.
Defined.

Lemma make_Nmat_marginalized_witness :
  make_Nmat ex_phiinv ex_one white_noise ex_one
  = Ok (marginalized_noise (solve white_noise (eye 1) (eye 1))
          (solve white_noise (eye 1) ex_one) ex_Sinv)
  /\ has_shape
       (marginalized_noise (solve white_noise (eye 1) (eye 1))
          (solve white_noise (eye 1) ex_one) ex_Sinv) 1 1.
Proof.
  assert (Hs : Sigma_of ex_one ex_phiinv = ex_Sigma) by exact ex_Sigma_of.
  refine (proj1 (make_Nmat_marginalized 1 1 ex_phiinv ex_one ex_one ex_Sinv white_noise
                   ex_one_shape eq_refl ex_one_shape _ _ _) _ _).
  - rewrite ex_white_noise_TtN. exact ex_one_shape.
  - rewrite ex_white_noise_Ndiag. exact ex_one_shape.
  - rewrite Hs. exact ex_Sigma_symmetric.
  - rewrite Hs. exact ex_Sigma_pos_def.
  - rewrite Hs. exact ex_Sinv_inverse.
Defined.

Lemma ex_ensure_Nmats (ps : list Pulsar) :
  ensure_Nmats (init ex_model_cw ps tt)
  = (Ok [ex_Nmat], set_Nmats (init ex_model_cw ps tt) [ex_Nmat]).
Proof.
  unfold ensure_Nmats, init, ex_model_cw. cbn [Nmats].
  rewrite (ex_get_Nmats ps None). reflexivity.
Qed.

Lemma ex_pinv_shape (M : Mat) : has_shape M 4 4 -> has_shape (ex_pinv M) 4 4.
Proof. intros _. unfold has_shape, nrows, wf_mat; simpl; repeat split; repeat constructor. Qed.

(** [ex_pinv] is the pseudo-inverse of the [M_sum] of the worked
    pulsar. *)
Lemma ex_pinv_penrose :
  penrose (M_sum_at ex_antenna [ex_psr] ex_M 0 0)
          (ex_pinv (M_sum_at ex_antenna [ex_psr] ex_M 0 0)).
Proof.
  unfold penrose, symmetric.
  cbv [M_sum_at antenna_coefficients ex_antenna ex_psr pos ex_M ex_pinv weighted_M
       antenna_weights outer fold_right fst snd
       mat_mat vec_mat transpose nrows ncols rows cols map2 map dot zeros repeat length].
  repeat split; repeat first
    [ match goal with |- @eq R _ _ => field end | reflexivity | progress f_equal ].
Qed.

Lemma ex_Fe_at : Fe_at ex_antenna ex_pinv [ex_psr] ex_N ex_M 0 0 = 39 / 512.
Proof.
  cbv [Fe_at N_sum_at M_sum_at antenna_coefficients ex_antenna ex_psr pos ex_N ex_M ex_pinv
       weighted_N weighted_M antenna_weights outer
       fold_right fst snd mat_vec rows map2 map dot zeros repeat].
  lra.
Qed.

(** *** Two pulsars with different antenna coefficients *)

Ltac entries :=
  repeat first
    [ match goal with |- @eq R _ _ => first [lra | field] end
    | reflexivity
    | progress f_equal ].

Lemma duo_get_Nmats (ps : list Pulsar) (v : option (list Mat)) :
  get_Nmats (mkFeStat duo_pta ps tt v) = Ok [ex_Nmat; ex_Nmat].
Proof.
  unfold get_Nmats.
  cbn [pta params duo_pta get_phiinv get_TNT get_ndiag get_basis combine mapM].
  rewrite ex_make_Nmat. reflexivity.
Qed.

Lemma duo_ensure_Nmats :
  ensure_Nmats duo_self = (Ok [ex_Nmat; ex_Nmat], set_Nmats duo_self [ex_Nmat; ex_Nmat]).
Proof.
  unfold ensure_Nmats, duo_self, init, duo_model_cw. cbn [Nmats].
  rewrite (duo_get_Nmats [duo_psr_a; duo_psr_b] None). reflexivity.
Qed.

Lemma quarter_sin_row : sin_row 1 [1 / 4] = [1].
Proof.
  unfold sin_row. cbn [map]. rewrite amplitude_1.
  replace (2 * PI * 1 * (1 / 4)) with (PI / 2) by field. rewrite sin_PI2. f_equal. ring.
Qed.

Lemma quarter_cos_row : cos_row 1 [1 / 4] = [0].
Proof.
  unfold cos_row. cbn [map]. rewrite amplitude_1.
  replace (2 * PI * 1 * (1 / 4)) with (PI / 2) by field. rewrite cos_PI2. f_equal. ring.
Qed.

Lemma quarter_signal_templates : signal_templates 1 [1 / 4] = [[1]; [0]; [1]; [0]].
Proof. unfold signal_templates. rewrite quarter_sin_row, quarter_cos_row. reflexivity. Qed.

Lemma duo_products_a (brave : bool) :
  pulsar_products 1 brave duo_psr_a ex_Nmat ex_one ex_phiinv ex_one
  = Ok ([0; 39 / 64; 0; 0],
        [ [0; 0; 0; 0]; [0; 39 / 64; 0; 39 / 64]; [0; 0; 0; 0]; [0; 39 / 64; 0; 39 / 64] ]).
Proof.
  unfold pulsar_products. rewrite ex_np_add. cbn [bind].
  cbn [duo_psr_a toas residuals]. rewrite ex_signal_templates.
  cbn [row nth seq mapM]. rewrite !ex_innerProduct. cbn [bind].
  real_eq.
Qed.

Lemma duo_products_b (brave : bool) :
  pulsar_products 1 brave duo_psr_b ex_Nmat ex_one ex_phiinv ex_one
  = Ok ([39 / 32; 0; 39 / 32; 39 / 32],
        [ [39 / 64; 0; 39 / 64; 0]; [0; 0; 0; 0]; [39 / 64; 0; 39 / 64; 0]; [0; 0; 0; 0] ]).
Proof.
  unfold pulsar_products. rewrite ex_np_add. cbn [bind].
  cbn [duo_psr_b toas residuals]. rewrite quarter_signal_templates.
  cbn [row nth seq mapM]. rewrite !ex_innerProduct. cbn [bind].
  real_eq.
Qed.

Lemma duo_per_pulsar (brave : bool) :
  per_pulsar duo_self [ex_Nmat; ex_Nmat] 1 brave = Ok (duo_N, duo_M).
Proof.
  unfold per_pulsar, zipped, duo_self.
  cbn [init pta psrs params duo_model_cw duo_pta get_phiinv get_TNT get_basis
       combine length repeat pulsar_loop].
  rewrite duo_products_a. cbn [bind fst snd set_nth rmap pulsar_loop].
  rewrite duo_products_b. reflexivity.
Qed.

Lemma duo_pinv_shape (M : Mat) : has_shape M 4 4 -> has_shape (duo_pinv M) 4 4.
Proof. intros _. unfold has_shape, nrows, wf_mat; simpl; repeat split; repeat constructor. Qed.

(** The coefficients are [(2, 3)] and [(1, -1)]: the first N-vector is
    multiplied by [(2, 2, 3, 3)], the second by [(1, 1, -1, -1)], and
    the two are added; likewise for the M-matrices. *)
Lemma duo_coefficients (theta phi : R) :
  antenna_coefficients duo_antenna [duo_psr_a; duo_psr_b] theta phi = [(2, 3); (1, -1)].
Proof. reflexivity. Qed.

Lemma duo_N_sum_at :
  N_sum_at duo_antenna [duo_psr_a; duo_psr_b] duo_N 0 0 = duo_N_sum.
Proof.
  cbv [N_sum_at antenna_coefficients duo_antenna duo_psr_a duo_psr_b pos nth duo_N duo_N_sum
       weighted_N antenna_weights fold_right fst snd map2 map].
  entries.
Qed.

Lemma duo_M_sum_at :
  M_sum_at duo_antenna [duo_psr_a; duo_psr_b] duo_M 0 0 = duo_M_sum.
Proof.
  cbv [M_sum_at antenna_coefficients duo_antenna duo_psr_a duo_psr_b pos nth duo_M duo_M_sum
       weighted_M antenna_weights outer fold_right fst snd map2 map].
  entries.
Qed.

(** [duo_pinv] is the pseudo-inverse of that [M_sum]. *)
Lemma duo_pinv_penrose : penrose duo_M_sum (duo_pinv duo_M_sum).
Proof.
  unfold penrose, symmetric.
  cbv [duo_M_sum duo_pinv
       mat_mat vec_mat transpose nrows ncols rows cols map2 map dot zeros repeat length].
  repeat split; entries.
Qed.

Lemma duo_Fe_at :
  Fe_at duo_antenna duo_pinv [duo_psr_a; duo_psr_b] duo_N duo_M 0 0 = 255 / 208.
Proof.
  unfold Fe_at. rewrite duo_N_sum_at.
  cbv [duo_pinv duo_N_sum mat_vec rows map dot].
  lra.
Qed.

(** The statement at the two pulsars: the call returns the statistic
    255/208 at the one sky position, computed from the sums
    [duo_N_sum] and [duo_M_sum] and the pseudo-inverse of the latter. *)
Lemma compute_Fe_sky_statistic_witness :
  (fst (compute_Fe duo_antenna duo_pinv duo_self 1 (mkMat 1 [[0]; [0]]) false)
   = Ok (map2 (Fe_at duo_antenna duo_pinv (psrs duo_self) duo_N duo_M) [0] [0])
   /\ length (map2 (Fe_at duo_antenna duo_pinv (psrs duo_self) duo_N duo_M) [0] [0]) = 1%nat
   /\ (forall theta phi,
         Fe_at duo_antenna duo_pinv (psrs duo_self) duo_N duo_M theta phi
         = 0.5 * dot (N_sum_at duo_antenna (psrs duo_self) duo_N theta phi)
                     (mat_vec (duo_pinv (M_sum_at duo_antenna (psrs duo_self) duo_M theta phi))
                              (N_sum_at duo_antenna (psrs duo_self) duo_N theta phi))
         /\ N_sum_at duo_antenna (psrs duo_self) duo_N theta phi
            = fold_right (map2 Rplus) [0; 0; 0; 0]
                (map2 (fun psr Np =>
                         let '(F_p, F_c, _) := duo_antenna (pos psr) theta phi in
                         map2 Rmult Np [F_p; F_p; F_c; F_c])
                      (psrs duo_self) duo_N)
         /\ rows (M_sum_at duo_antenna (psrs duo_self) duo_M theta phi)
            = fold_right (map2 (map2 Rplus))
                [[0; 0; 0; 0]; [0; 0; 0; 0]; [0; 0; 0; 0]; [0; 0; 0; 0]]
                (map2 (fun psr Mp =>
                         let '(F_p, F_c, _) := duo_antenna (pos psr) theta phi in
                         map2 (map2 Rmult) Mp
                           (outer [F_p; F_p; F_c; F_c] [F_p; F_p; F_c; F_c]))
                      (psrs duo_self) duo_M)))
  /\ map2 (Fe_at duo_antenna duo_pinv (psrs duo_self) duo_N duo_M) [0] [0] = [255 / 208]
  /\ N_sum_at duo_antenna (psrs duo_self) duo_N 0 0 = duo_N_sum
  /\ M_sum_at duo_antenna (psrs duo_self) duo_M 0 0 = duo_M_sum.
Proof.
  split.
  - apply (compute_Fe_sky_statistic duo_antenna duo_pinv duo_pinv_shape duo_self 1 false
             [0] [0] 1 [ex_Nmat; ex_Nmat] duo_N duo_M).
    + lra.
    + reflexivity.
    + reflexivity.
    + rewrite duo_ensure_Nmats. reflexivity.
    + exact (duo_per_pulsar false).
  - split; [|split].
    + cbn [map2 psrs duo_self init]. rewrite duo_Fe_at. reflexivity.
    + exact duo_N_sum_at.
    + exact duo_M_sum_at.
Defined.

Lemma compute_Fe_residual_scaling_witness :
  compute_Fe ex_antenna ex_pinv (scale_residuals 2 ex_self) 1 ex_sky false
  = (rmap (map (Rmult (2 ^ 2))) (fst (compute_Fe ex_antenna ex_pinv ex_self 1 ex_sky false)),
     scale_residuals 2 (snd (compute_Fe ex_antenna ex_pinv ex_self 1 ex_sky false))).
Proof.
  apply (compute_Fe_residual_scaling ex_antenna ex_pinv 2 ex_self 1 ex_sky false); lra.
Defined.

(** The call on the worked instance: the statistic at the one sky
    position, and the cache stored. *)
Lemma ex_compute_Fe :
  compute_Fe ex_antenna ex_pinv ex_self 1 ex_sky false
  = (Ok [39 / 512], set_Nmats ex_self [ex_Nmat]).
Proof.
  rewrite compute_Fe_eq. unfold ex_self. rewrite ex_ensure_Nmats. cbn [fst snd bind].
  f_equal. unfold ex_sky.
  rewrite (compute_Fe_body_eq ex_antenna ex_pinv ex_pinv_shape
             (init ex_model_cw [ex_psr] tt) [ex_Nmat] 1 false [0] [0] 1
             ex_N ex_M eq_refl eq_refl (ex_per_pulsar false None)).
  cbn [map2 psrs init]. rewrite ex_Fe_at. reflexivity.
Qed.

(** ** The N-vector of a pulsar *)

(** The row [N[idx, :]] holds the inner products of rows 0, 1, 2 and,
    once more, 2 of [A] with the residuals. *)
Lemma pulsar_products_N (f0 : R) (brave : bool) (psr : Pulsar)
    (Nmat TNT : Mat) (phiinv : Phiinv) (T : Mat) (p : Vec * list Vec) :
  pulsar_products f0 brave psr Nmat TNT phiinv T = Ok p ->
  exists Sigma, np_add TNT (phi_dense phiinv) = Ok Sigma /\
    forall i, (i < 4)%nat ->
      innerProduct_rr (row (signal_templates f0 (toas psr)) (Nat.min i 2))
        (residuals psr) Nmat T Sigma None None brave
      = Ok (nth i (fst p) 0).
Proof.
  unfold pulsar_products.
  destruct (np_add TNT (phi_dense phiinv)) as [Sigma|e]; try discriminate. cbn [bind].
  destruct (innerProduct_rr (row _ 0) _ _ _ _ _ _ _) as [ip1|e] eqn:E1;
    try discriminate; cbn [bind].
  destruct (innerProduct_rr (row _ 1) _ _ _ _ _ _ _) as [ip2|e] eqn:E2;
    try discriminate; cbn [bind].
  destruct (innerProduct_rr (row _ 2) _ _ _ _ _ _ _) as [ip3|e] eqn:E3;
    try discriminate; cbn [bind].
  destruct (mapM _ (seq 0 4)) as [Mb|e]; try discriminate. cbn [bind].
  intros H. injection H as <-. exists Sigma. split; [reflexivity|].
  intros i Hi. destruct i as [|[|[|[|i]]]]; try lia; assumption.
Qed.

(** C1 at the worked pulsar: the loop stores in the fourth entry of
    [N[0, :]] the inner product of row [A_2] with the residuals, which
    is 0, whereas the inner product of row [A_3] with the residuals is
    39/64. *)
Theorem compute_Fe_fourth_entry :
  per_pulsar ex_self [ex_Nmat] 1 false = Ok (ex_N, ex_M)
  /\ nth 3 (nth 0 ex_N []) 0 = 0
  /\ innerProduct_rr (row (signal_templates 1 (toas ex_psr)) 2) (residuals ex_psr)
       ex_Nmat ex_one ex_Sigma None None false = Ok 0
  /\ innerProduct_rr (row (signal_templates 1 (toas ex_psr)) 3) (residuals ex_psr)
       ex_Nmat ex_one ex_Sigma None None false = Ok (39 / 64)
  /\ 0 <> 39 / 64.
Proof.
  split; [exact (ex_per_pulsar false None)|]. split; [reflexivity|].
  cbn [ex_psr toas residuals]. rewrite ex_signal_templates. cbn [row nth].
  rewrite !ex_innerProduct. repeat split; try (f_equal; lra); lra.
Qed.

(** ** Mismatched lengths at the worked inputs *)

Lemma bad_zipped :
  zipped bad_self [ex_Nmat] = [] ++ [(bad_psr, ex_Nmat, ex_one, ex_phiinv, ex_one)].
Proof. reflexivity. Qed.

Lemma bad_lengths : length (toas bad_psr) <> length (residuals bad_psr).
Proof. simpl. discriminate. Qed.

(** C7 fails as it is stated: on a pulsar with one TOA and two
    residuals the call raises [ValueError], not [ShapeMismatchError],
    and it does so after [get_Nmats] has factored [Sigma] and the cache
    has been stored. *)
Lemma compute_Fe_mismatch_counterexample :
  length (toas bad_psr) <> length (residuals bad_psr)
  /\ Nmats bad_self = None
  /\ compute_Fe ex_antenna ex_pinv bad_self 1 ex_sky false
     = (Err ValueError, set_Nmats bad_self [ex_Nmat])
  /\ fst (compute_Fe ex_antenna ex_pinv bad_self 1 ex_sky false) <> Err ShapeMismatchError
  /\ cho_factor ex_Sigma true = Ok [(sqrt 4, [])].
Proof.
  assert (H : compute_Fe ex_antenna ex_pinv bad_self 1 ex_sky false
              = (Err ValueError, set_Nmats bad_self [ex_Nmat])).
  { rewrite compute_Fe_eq. unfold bad_self. rewrite ex_ensure_Nmats. cbn [fst snd bind].
    assert (Hb : compute_Fe_body ex_antenna ex_pinv (init ex_model_cw [bad_psr] tt)
                   [ex_Nmat] 1 ex_sky false = Err ValueError).
    { unfold compute_Fe_body. rewrite per_pulsar_eq.
      fold bad_self. rewrite bad_zipped. cbn [app mapM products_of].
      rewrite pulsar_products_length_mismatch;
        [reflexivity | apply ex_Nmat_shape | exact bad_lengths]. }
    rewrite Hb. reflexivity. }
  split; [exact bad_lengths|]. split; [reflexivity|]. split; [exact H|].
  split; [rewrite H; discriminate|].
  unfold cho_factor. rewrite all_finite_true. cbn.
  destruct (Rlt_dec 0 4) as [_|Hn]; [reflexivity | exfalso; apply Hn; lra].
Qed.

Lemma compute_Fe_length_mismatch_witness :
  compute_Fe ex_antenna ex_pinv bad_self 1 ex_sky false
  = (Err ValueError, snd (ensure_Nmats bad_self))
  /\ (Nmats bad_self = None ->
      get_Nmats bad_self = Ok [ex_Nmat]
      /\ snd (ensure_Nmats bad_self) = set_Nmats bad_self [ex_Nmat]).
Proof.
  apply (compute_Fe_length_mismatch ex_antenna ex_pinv bad_self 1 ex_sky false [ex_Nmat]
           [] [] [] bad_psr ex_Nmat ex_one ex_phiinv ex_one).
  - lra.
  - unfold bad_self. rewrite ex_ensure_Nmats. reflexivity.
  - exact bad_zipped.
  - reflexivity.
  - apply ex_Nmat_shape.
  - exact bad_lengths.
Defined.

Lemma npd_Sigma_symmetric : symmetric (Sigma_of ex_one npd_phiinv).
Proof. reflexivity. Qed.

Lemma npd_Sigma_not_pos_def : ~ pos_def (Sigma_of ex_one npd_phiinv).
Proof.
  intros H. specialize (H [1] eq_refl).
  assert (Hnz : [1] <> zeros (nrows (Sigma_of ex_one npd_phiinv))).
  { simpl. intros E. injection E as E. lra. }
  specialize (H Hnz).
  cbv [quad_form mat_vec Sigma_of npd_phiinv ex_one mat_add np_diag diag_rows rows ncols
       map2 map dot vadd zeros repeat length] in H.
  lra.
Qed.

Lemma fail_get_Nmats : get_Nmats fail_self = Err LinAlgError.
Proof.
  unfold get_Nmats, fail_self.
  cbn [pta params fail_pta get_phiinv get_TNT get_ndiag get_basis combine mapM].
  destruct (make_Nmat_cases 1 1 npd_phiinv ex_one ex_one ex_Sinv white_noise) as [_ H];
    try (rewrite ?ex_white_noise_TtN, ?ex_white_noise_Ndiag);
    try apply ex_one_shape; try reflexivity.
  rewrite (H npd_Sigma_not_pos_def). reflexivity.
Qed.

(** The worked instance has no cache; its first call stores
    [[ex_Nmat]], a second call computes from the stored arrays and
    leaves the instance as the first call left it, and of the two calls
    only the first runs [get_Nmats].  On [fail_self] the call raises and
    stores nothing.  On [stale_self], whose cache is not what
    [get_Nmats] returns, the calls compute from the cache, none runs
    [get_Nmats], and the instance stays as it is. *)
Lemma compute_Fe_cache_witness :
  (Nmats ex_self = None
   /\ get_Nmats ex_self = Ok [ex_Nmat]
   /\ fst (compute_Fe ex_antenna ex_pinv ex_self 1 ex_sky false)
      = compute_Fe_body ex_antenna ex_pinv ex_self [ex_Nmat] 1 ex_sky false
   /\ Nmats (snd (compute_Fe ex_antenna ex_pinv ex_self 1 ex_sky false)) = Some [ex_Nmat]
   /\ snd (compute_Fe ex_antenna ex_pinv ex_self 1 ex_sky false)
      = mkFeStat (pta ex_self) (psrs ex_self) (params ex_self) (Some [ex_Nmat])
   /\ (forall f0' gw_skyloc' brave',
         compute_Fe ex_antenna ex_pinv
           (snd (compute_Fe ex_antenna ex_pinv ex_self 1 ex_sky false)) f0' gw_skyloc' brave'
         = (compute_Fe_body ex_antenna ex_pinv ex_self [ex_Nmat] f0' gw_skyloc' brave',
            snd (compute_Fe ex_antenna ex_pinv ex_self 1 ex_sky false)))
   /\ cache_history ex_antenna ex_pinv ex_self [(1, ex_sky, false); (2, ex_sky, true)]
      = repeat (Some [ex_Nmat]) 2
   /\ get_Nmats_runs ex_antenna ex_pinv ex_self [(1, ex_sky, false); (2, ex_sky, true)]
      = 1%nat)
  /\ (Nmats fail_self = None
      /\ get_Nmats fail_self = Err LinAlgError
      /\ compute_Fe ex_antenna ex_pinv fail_self 1 ex_sky false = (Err LinAlgError, fail_self)
      /\ Nmats (snd (compute_Fe ex_antenna ex_pinv fail_self 1 ex_sky false)) = None)
  /\ (Nmats stale_self = Some [ex2_Nmat]
      /\ get_Nmats stale_self = Ok [ex_Nmat]
      /\ compute_Fe ex_antenna ex_pinv stale_self 1 ex_sky false
         = (compute_Fe_body ex_antenna ex_pinv stale_self [ex2_Nmat] 1 ex_sky false,
            stale_self)
      /\ run_calls ex_antenna ex_pinv stale_self [(1, ex_sky, false); (2, ex_sky, true)]
         = stale_self
      /\ cache_history ex_antenna ex_pinv stale_self [(1, ex_sky, false); (2, ex_sky, true)]
         = repeat (Some [ex2_Nmat]) 2
      /\ get_Nmats_runs ex_antenna ex_pinv stale_self [(1, ex_sky, false); (2, ex_sky, true)]
         = 0%nat).
Proof.
  split; [|split].
  - split; [reflexivity|]. split; [exact (ex_get_Nmats [ex_psr] None)|].
    exact (proj1 (proj2 (proj2 (compute_Fe_cache ex_model_cw ex_antenna ex_pinv
                                  ex_self 1 ex_sky false [(2, ex_sky, true)])))
             [ex_Nmat] eq_refl (ex_get_Nmats [ex_psr] None)).
  - split; [reflexivity|]. split; [exact fail_get_Nmats|].
    exact (proj1 (proj2 (proj2 (proj2 (compute_Fe_cache ex_model_cw ex_antenna ex_pinv
                                         fail_self 1 ex_sky false []))))
             LinAlgError eq_refl fail_get_Nmats).
  - split; [reflexivity|]. split; [exact (ex_get_Nmats [ex_psr] (Some [ex2_Nmat]))|].
    exact (proj2 (proj2 (proj2 (proj2 (compute_Fe_cache ex_model_cw ex_antenna ex_pinv
                                         stale_self 1 ex_sky false
                                         [(1, ex_sky, false); (2, ex_sky, true)]))))
             [ex2_Nmat] eq_refl).
Defined.

(** * Further properties *)

(** ** Residuals that are zero or negated *)

Lemma scale_0 (v : Vec) : scale 0 v = zeros (length v).
Proof.
  unfold scale, zeros. induction v as [|a v IH]; simpl; auto.
  f_equal; [ring | exact IH].
Qed.

Lemma rmap_id {A : Type} (f : A -> A) (m : result A) :
  (forall a, f a = a) -> rmap f m = m.
Proof. intros H. destruct m; simpl; [rewrite H|]; reflexivity. Qed.

Section ResidualScaling.

Context {Params : Type}.
Variable create_gw_antenna_pattern : Vec -> R -> R -> R * R * R.
Variable pinv : Mat -> Mat.

(** The scaling law for every real factor. *)
Lemma compute_Fe_scale (c : R) (self : FeStat Params)
    (f0 : R) (gw_skyloc : Mat) (brave : bool) :
  compute_Fe create_gw_antenna_pattern pinv (scale_residuals c self) f0 gw_skyloc brave
  = (rmap (scale (c ^ 2))
       (fst (compute_Fe create_gw_antenna_pattern pinv self f0 gw_skyloc brave)),
     scale_residuals c
       (snd (compute_Fe create_gw_antenna_pattern pinv self f0 gw_skyloc brave))).
Proof.
  rewrite !compute_Fe_eq, ensure_Nmats_scale. cbn [fst snd].
  f_equal. destruct (fst (ensure_Nmats self)) as [nmats|e]; [|reflexivity].
  cbn [bind]. apply compute_Fe_body_scale.
Qed.

Lemma scale_residuals_zero (self : FeStat Params) :
  Forall (fun psr => residuals psr = zeros (length (residuals psr))) (psrs self) ->
  scale_residuals 0 self = self.
Proof.
  destruct self as [pt ps pr nm]. unfold scale_residuals. cbn [pta psrs params Nmats].
  intros H. f_equal. induction H as [|psr ps Hpsr _ IH]; simpl; auto.
  rewrite IH. f_equal. destruct psr as [t r p]. unfold scale_psr. cbn [toas residuals pos] in *.
  rewrite scale_0, <- Hpsr. reflexivity.
Qed.

(** X1: when every residual of every pulsar is zero, every entry of a
    returned statistic is zero. *)
Theorem compute_Fe_zero_residuals (self : FeStat Params)
    (f0 : R) (gw_skyloc : Mat) (brave : bool) (fstat : Vec) :
  0 < f0 ->
  Forall (fun psr => residuals psr = zeros (length (residuals psr))) (psrs self) ->
  fst (compute_Fe create_gw_antenna_pattern pinv self f0 gw_skyloc brave) = Ok fstat ->
  Forall (fun s => s = 0) fstat.
Proof.
  intros _ Hz Hr.
  pose proof (compute_Fe_scale 0 self f0 gw_skyloc brave) as H.
  rewrite (scale_residuals_zero self Hz) in H.
  apply (f_equal fst) in H. cbn [fst] in H. rewrite Hr in H. cbn [rmap] in H.
  injection H as H. rewrite H. unfold scale. apply Forall_map.
  apply Forall_forall. intros s _. ring.
Qed.

(** X2: negating every residual leaves what the call returns or raises
    unchanged. *)
Theorem compute_Fe_negated_residuals (self : FeStat Params)
    (f0 : R) (gw_skyloc : Mat) (brave : bool) :
  0 < f0 ->
  fst (compute_Fe create_gw_antenna_pattern pinv (scale_residuals (-1) self)
         f0 gw_skyloc brave)
  = fst (compute_Fe create_gw_antenna_pattern pinv self f0 gw_skyloc brave).
Proof.
  intros _. rewrite compute_Fe_scale. cbn [fst]. apply rmap_id.
  intros v. replace ((-1) ^ 2) with 1 by ring. apply scale_1.
Qed.

End ResidualScaling.

(** ** The inner product is bilinear *)

Lemma vec_mat_scale (c : R) (x : Vec) (M : Mat) :
  vec_mat (scale c x) M = scale c (vec_mat x M).
Proof.
  unfold vec_mat, scale at 2. rewrite map_map. apply map_ext. intros col.
  apply dot_scale_l.
Qed.

Lemma innerProduct_rr_scale_l (c : R) (x y : Vec) (Nmat Tmat Sigma : Mat) (brave : bool) :
  innerProduct_rr (scale c x) y Nmat Tmat Sigma None None brave
  = rmap (Rmult c) (innerProduct_rr x y Nmat Tmat Sigma None None brave).
Proof.
  unfold innerProduct_rr, np_dot_vm, np_dot_vv, np_dot_mv.
  rewrite none_guard_default.
  repeat rewrite ?vec_mat_scale, ?mat_vec_linear_scale, ?length_scale.
  destruct (Nat.eqb (length x) (nrows Nmat)); cbn [bind]; auto.
  repeat rewrite ?vec_mat_scale, ?mat_vec_linear_scale, ?length_scale.
  destruct (Nat.eqb (length (vec_mat x Nmat)) (length y)); cbn [bind]; auto.
  destruct (Nat.eqb (ncols Nmat) (length x)); cbn [bind]; auto.
  destruct (Nat.eqb (ncols Nmat) (length y)); cbn [bind]; auto.
  repeat rewrite ?vec_mat_scale, ?mat_vec_linear_scale, ?length_scale.
  destruct (Nat.eqb (ncols (transpose Tmat)) (length (mat_vec Nmat x))); cbn [bind]; auto.
  destruct (Nat.eqb (ncols (transpose Tmat)) (length (mat_vec Nmat y)));
    cbn [bind fst snd]; auto.
  destruct (cho_factor Sigma (negb brave)) as [cf|e]; cbn [bind]; auto.
  destruct (cho_solve cf _ (negb brave)) as [s|e]; cbn [bind]; auto.
  repeat rewrite ?vec_mat_scale, ?mat_vec_linear_scale, ?length_scale.
  destruct (Nat.eqb _ (length s)); cbn [bind rmap]; auto.
  f_equal. rewrite !dot_scale_l. ring.
Qed.

(** X3: scaling the two series by [a] and [b] multiplies the inner
    product by [a b]; a call that raises still raises the same
    exception. *)
Theorem innerProduct_rr_bilinear_scaling (a b : R) (x y : Vec)
    (Nmat Tmat Sigma : Mat) (brave : bool) :
  innerProduct_rr (scale a x) (scale b y) Nmat Tmat Sigma None None brave
  = rmap (Rmult (a * b)) (innerProduct_rr x y Nmat Tmat Sigma None None brave).
Proof.
  rewrite innerProduct_rr_scale_l, innerProduct_rr_scale_r.
  destruct (innerProduct_rr x y Nmat Tmat Sigma None None brave); cbn [rmap];
    [f_equal; ring | reflexivity].
Qed.

Lemma mat_vec_vadd (M : Mat) (y1 y2 : Vec) :
  length y1 = length y2 ->
  mat_vec M (vadd y1 y2) = vadd (mat_vec M y1) (mat_vec M y2).
Proof.
  intros H. unfold mat_vec, vadd at 2. rewrite map2_map_map.
  apply map_ext. intros r. apply dot_vadd_r. exact H.
Qed.

Lemma vsub_vadd (y1 y2 : R) (b1 b2 u : Vec) :
  vsub (vadd b1 b2) (scale (y1 + y2) u)
  = vadd (vsub b1 (scale y1 u)) (vsub b2 (scale y2 u)).
Proof.
  unfold vsub, vadd, scale. revert b2 u.
  induction b1 as [|a1 b1 IH]; intros [|a2 b2] [|ui u]; simpl; auto.
  f_equal; [ring | apply IH].
Qed.

Lemma length_forward_subst_eq (U : factor) (b1 b2 : Vec) :
  length b1 = length b2 -> length (forward_subst U b1) = length (forward_subst U b2).
Proof.
  revert b1 b2. induction U as [|[l u] U IH]; intros [|a1 b1] [|a2 b2] H;
    simpl in *; try discriminate; auto.
  f_equal. apply IH. unfold vsub. rewrite !length_map2, !length_scale. lia.
Qed.

Lemma length_back_subst_eq (U : factor) (y1 y2 : Vec) :
  length y1 = length y2 -> length (back_subst U y1) = length (back_subst U y2).
Proof.
  revert y1 y2. induction U as [|[l u] U IH]; intros [|a1 y1] [|a2 y2] H;
    simpl in *; try discriminate; auto.
Qed.

Lemma forward_subst_vadd (U : factor) (b1 b2 : Vec) :
  length b1 = length b2 ->
  forward_subst U (vadd b1 b2) = vadd (forward_subst U b1) (forward_subst U b2).
Proof.
  revert b1 b2. induction U as [|[l u] U IH]; intros [|a1 b1] [|a2 b2] H;
    simpl in *; try discriminate; auto.
  fold (vadd b1 b2). unfold vadd at 2. cbn [map2].
  replace ((a1 + a2) / l) with (a1 / l + a2 / l) by (unfold Rdiv; ring).
  f_equal. rewrite vsub_vadd. apply IH.
  unfold vsub. rewrite !length_map2, !length_scale. lia.
Qed.

Lemma back_subst_vadd (U : factor) (y1 y2 : Vec) :
  length y1 = length y2 ->
  back_subst U (vadd y1 y2) = vadd (back_subst U y1) (back_subst U y2).
Proof.
  revert y1 y2. induction U as [|[l u] U IH]; intros [|a1 y1] [|a2 y2] H;
    simpl in *; try discriminate; auto.
  fold (vadd y1 y2). rewrite IH by lia. unfold vadd at 3. cbn [map2].
  f_equal. rewrite dot_vadd_r by (apply length_back_subst_eq; lia).
  unfold Rdiv. ring.
Qed.

Lemma potrs_vadd (U : factor) (b1 b2 : Vec) :
  length b1 = length b2 -> potrs U (vadd b1 b2) = vadd (potrs U b1) (potrs U b2).
Proof.
  intros H. unfold potrs. rewrite forward_subst_vadd by assumption.
  apply back_subst_vadd. apply length_forward_subst_eq. exact H.
Qed.

Lemma length_potrs_eq (U : factor) (b1 b2 : Vec) :
  length b1 = length b2 -> length (potrs U b1) = length (potrs U b2).
Proof.
  intros H. unfold potrs. apply length_back_subst_eq, length_forward_subst_eq, H.
Qed.

(** X4: the inner product is additive in its second argument: for
    [y1] and [y2] of one length, [(x | y1 + y2) = (x | y1) + (x | y2)],
    and the call on the sum raises what the call on [y1] raises. *)
Theorem innerProduct_rr_additive (x y1 y2 : Vec) (Nmat Tmat Sigma : Mat) (brave : bool) :
  length y1 = length y2 ->
  innerProduct_rr x (vadd y1 y2) Nmat Tmat Sigma None None brave
  = (a <- innerProduct_rr x y1 Nmat Tmat Sigma None None brave ;;
     b <- innerProduct_rr x y2 Nmat Tmat Sigma None None brave ;;
     Ok (a + b)).
Proof.
  intros H.
  assert (Hl : length (vadd y1 y2) = length y1) by (apply length_vadd; auto).
  unfold innerProduct_rr, np_dot_vm, np_dot_vv, np_dot_mv.
  rewrite none_guard_default, !mat_vec_vadd by assumption.
  rewrite Hl, <- H.
  destruct (Nat.eqb (length x) (nrows Nmat)); cbn [bind]; auto.
  destruct (Nat.eqb (length (vec_mat x Nmat)) (length y1)); cbn [bind]; auto.
  destruct (Nat.eqb (ncols Nmat) (length x)); cbn [bind]; auto.
  destruct (Nat.eqb (ncols Nmat) (length y1)); cbn [bind]; auto.
  destruct (Nat.eqb (ncols (transpose Tmat)) (length (mat_vec Nmat x))); cbn [bind]; auto.
  rewrite (length_vadd (mat_vec Nmat y1) (mat_vec Nmat y2) (nrows Nmat))
    by apply length_mat_vec.
  rewrite !length_mat_vec.
  destruct (Nat.eqb (ncols (transpose Tmat)) (nrows Nmat)); cbn [bind fst snd]; auto.
  destruct (cho_factor Sigma (negb brave)) as [cf|e]; cbn [bind]; auto.
  unfold cho_solve. rewrite !forallb_isfinite, !andb_false_r.
  set (t1 := mat_vec (transpose Tmat) (mat_vec Nmat y1)).
  set (t2 := mat_vec (transpose Tmat) (mat_vec Nmat y2)).
  assert (Ht : length t1 = length t2) by (unfold t1, t2; rewrite !length_mat_vec; reflexivity).
  rewrite mat_vec_vadd by (rewrite !length_mat_vec; reflexivity). fold t1 t2.
  rewrite (length_vadd t1 t2 (length t1)) by auto. rewrite <- Ht.
  destruct (Nat.eqb (length cf) (length t1)); cbn [bind negb]; auto.
  rewrite potrs_vadd by assumption.
  rewrite (length_vadd (potrs cf t1) (potrs cf t2) (length (potrs cf t1)))
    by (auto using length_potrs_eq).
  rewrite <- (length_potrs_eq cf t1 t2 Ht).
  destruct (Nat.eqb _ (length (potrs cf t1))); cbn [bind]; auto.
  f_equal. rewrite !dot_vadd_r by (auto using length_potrs_eq). ring.
Qed.

(** ** Shape errors come first *)

(** X5: when the shapes of [x], [y], [Nmat] and the rows of [Tmat] do
    not fit together, the default call raises [ValueError] from its
    [np.dot] calls, before [Sigma] is looked at: also when [Sigma] is
    not square or not positive definite, and for both values of
    [brave]. *)
Theorem innerProduct_rr_shape_error (x y : Vec) (Nmat Tmat Sigma : Mat) (brave : bool) :
  wf_mat Nmat ->
  length x <> nrows Nmat \/ length y <> ncols Nmat \/ length x <> ncols Nmat
  \/ nrows Tmat <> nrows Nmat ->
  innerProduct_rr x y Nmat Tmat Sigma None None brave = Err ValueError.
Proof.
  intros HN H. rewrite innerProduct_rr_default by assumption.
  destruct (dot_shapes_ok x y Nmat Tmat) eqn:Hok; [|reflexivity].
  unfold dot_shapes_ok in Hok. rewrite !andb_true_iff, !Nat.eqb_eq in Hok.
  exfalso. destruct Hok as (((H1 & H2) & H3) & H4).
  destruct H as [H|[H|[H|H]]]; apply H; congruence.
Qed.

(** ** Precomputed products of one entry *)

(** X6: one-entry arrays for [TNx] and [TNy] pass the guard and are
    used as they are: with one basis function the call returns
    [x^T Nmat y - TNx Sinv TNy] and never reads [Tmat]. *)
Theorem innerProduct_rr_precomputed_single (n : nat) (x y : Vec)
    (Nmat Tmat Sigma Sinv : Mat) (a b : R) (brave : bool) :
  length x = n -> length y = n -> has_shape Nmat n n ->
  has_shape Sigma 1 1 -> symmetric Sigma -> pos_def Sigma -> is_inverse 1 Sigma Sinv ->
  innerProduct_rr x y Nmat Tmat Sigma (Some [a]) (Some [b]) brave
  = Ok (dot x (mat_vec Nmat y) - dot [a] (mat_vec Sinv [b])).
Proof.
  intros Hx Hy (HNr & HNc & HNw) HS Hsym Hpd Hinv.
  destruct (cho_factor_pos_def 1 Sigma (negb brave) HS Hsym Hpd) as (cf & Hcf & Hwf & Hsol).
  unfold innerProduct_rr, np_dot_vm, np_dot_vv, np_dot_mv.
  rewrite Hx, Hy, HNr, HNc, Nat.eqb_refl. cbn [bind].
  rewrite (length_vec_mat Nmat x HNw), HNc, Nat.eqb_refl. cbn [bind].
  change (none_guard (Some [a]) (Some [b])) with (@Ok bool false). cbn [bind fst snd].
  rewrite Hcf. cbn [bind].
  rewrite cho_solve_eq by (rewrite (wf_factor_length _ _ Hwf); reflexivity). cbn [bind].
  rewrite (length_potrs 1) by auto. cbn [length Nat.eqb bind].
  f_equal. f_equal.
  - apply dot_vec_mat; congruence.
  - f_equal. apply (inverse_unique 1 Sigma); auto. apply length_potrs; auto.
Qed.

(** ** The arrays of one pulsar *)

(** X7: whatever the inputs, the N-vector of a pulsar has the form
    [[p; q; p; p]], and rows 0 and 2, rows 1 and 3, columns 0 and 2 and
    columns 1 and 3 of its M-matrix coincide: the matrix is made of four
    inner products. *)
Theorem pulsar_products_duplicates (f0 : R) (brave : bool) (psr : Pulsar)
    (Nmat TNT : Mat) (phiinv : Phiinv) (T : Mat) (Nrow : Vec) (Mb : list Vec) :
  pulsar_products f0 brave psr Nmat TNT phiinv T = Ok (Nrow, Mb) ->
  exists p q ss sc cs cc,
    Nrow = [p; q; p; p]
    /\ Mb = [ [ss; sc; ss; sc]; [cs; cc; cs; cc]; [ss; sc; ss; sc]; [cs; cc; cs; cc] ].
Proof.
  unfold pulsar_products.
  destruct (np_add TNT (phi_dense phiinv)) as [Sigma|e]; try discriminate. cbn [bind].
  cbn [signal_templates row nth seq mapM].
  destruct (innerProduct_rr (sin_row f0 (toas psr)) (residuals psr) _ _ _ _ _ _)
    as [p|e]; try discriminate; cbn [bind].
  destruct (innerProduct_rr (cos_row f0 (toas psr)) (residuals psr) _ _ _ _ _ _)
    as [q|e]; try discriminate; cbn [bind].
  destruct (innerProduct_rr (sin_row f0 (toas psr)) (sin_row f0 (toas psr)) _ _ _ _ _ _)
    as [ss|e]; try discriminate; cbn [bind].
  destruct (innerProduct_rr (sin_row f0 (toas psr)) (cos_row f0 (toas psr)) _ _ _ _ _ _)
    as [sc|e]; try discriminate; cbn [bind].
  destruct (innerProduct_rr (cos_row f0 (toas psr)) (sin_row f0 (toas psr)) _ _ _ _ _ _)
    as [cs|e]; try discriminate; cbn [bind].
  destruct (innerProduct_rr (cos_row f0 (toas psr)) (cos_row f0 (toas psr)) _ _ _ _ _ _)
    as [cc|e]; try discriminate; cbn [bind].
  intros H. injection H as <- <-. exists p, q, ss, sc, cs, cc. split; reflexivity.
Qed.



(** ** Pulsars that the zipped loop does not reach *)

Lemma nth_repeat_skipn {A : Type} (a d : A) (k n i : nat) :
  (k + i < n)%nat -> nth i (skipn k (repeat a n)) d = a.
Proof.
  revert n. induction k as [|k IH]; intros n H; simpl.
  - apply nth_repeat_lt. lia.
  - destruct n as [|n]; [lia|]. simpl. apply IH. lia.
Qed.

Section PulsarLoop.

Context {Params : Type}.
Variable create_gw_antenna_pattern : Vec -> R -> R -> R * R * R.
Variable pinv : Mat -> Mat.

(** X9: [zip] stops at the shortest of its five lists, and a pulsar at
    an index that the loop does not reach keeps the zero row and the
    zero block it started with. *)
Theorem per_pulsar_unreached (self : FeStat Params) (nmats : list Mat) (f0 : R)
    (brave : bool) (N : list Vec) (M : list (list Vec)) (i : nat) :
  per_pulsar self nmats f0 brave = Ok (N, M) ->
  (length (zipped self nmats) <= i < length (psrs self))%nat ->
  nth i N [] = zeros 4 /\ nth i M [] = zero_block.
Proof.
  rewrite per_pulsar_eq.
  destruct (mapM _ _) as [ps|e] eqn:E; try discriminate. cbn [bind].
  intros H Hi. injection H as <- <-.
  pose proof (mapM_length _ _ _ E) as Hlen.
  split.
  - rewrite app_nth2 by (rewrite length_map; lia). rewrite length_map, Hlen.
    apply nth_repeat_skipn. lia.
  - rewrite app_nth2 by (rewrite length_map; lia). rewrite length_map, Hlen.
    apply nth_repeat_skipn. lia.
Qed.

(** ** A [Sigma] that is not positive definite *)

Lemma pulsar_products_not_pos_def (n k : nat) (f0 : R) (brave : bool) (psr : Pulsar)
    (Nmat TNT : Mat) (phiinv : Phiinv) (T : Mat) :
  length (toas psr) = n -> length (residuals psr) = n ->
  has_shape Nmat n n -> has_shape T n k -> has_shape TNT k k -> phi_shape phiinv k ->
  symmetric (Sigma_of TNT phiinv) -> ~ pos_def (Sigma_of TNT phiinv) ->
  pulsar_products f0 brave psr Nmat TNT phiinv T = Err LinAlgError.
Proof.
  intros Ht Hr HN HT HTNT Hphi Hsym Hnpd. unfold pulsar_products.
  destruct (np_add_Sigma k TNT phiinv HTNT Hphi) as [Hadd HS].
  rewrite Hadd. cbn [bind]. cbn [signal_templates row nth].
  rewrite innerProduct_rr_default by apply HN.
  rewrite (dot_shapes_ok_true n k) by (auto; rewrite length_sin_row; assumption).
  rewrite (cho_factor_not_pos_def k) by assumption. reflexivity.
Qed.

(** X10: when the first pulsar whose products fail has consistent
    shapes and a symmetric [Sigma] that is not positive definite, the
    call raises [LinAlgError], for [brave=True] as for [brave=False],
    and the instance is left as the guard left it. *)
Theorem compute_Fe_not_pos_def (self : FeStat Params) (f0 : R) (gw_skyloc : Mat)
    (brave : bool) (nmats : list Mat)
    (pre post : list (Pulsar * Mat * Mat * Phiinv * Mat)) (done : list (Vec * list Vec))
    (psr : Pulsar) (Nmat TNT : Mat) (phiinv : Phiinv) (T : Mat) (n k : nat) :
  0 < f0 ->
  fst (ensure_Nmats self) = Ok nmats ->
  zipped self nmats = pre ++ (psr, Nmat, TNT, phiinv, T) :: post ->
  mapM (products_of f0 brave) pre = Ok done ->
  length (toas psr) = n -> length (residuals psr) = n ->
  has_shape Nmat n n -> has_shape T n k -> has_shape TNT k k -> phi_shape phiinv k ->
  symmetric (Sigma_of TNT phiinv) -> ~ pos_def (Sigma_of TNT phiinv) ->
  compute_Fe create_gw_antenna_pattern pinv self f0 gw_skyloc brave
  = (Err LinAlgError, snd (ensure_Nmats self)).
Proof.
  intros _ Hn Hz Hpre Ht Hr HN HT HTNT Hphi Hsym Hnpd.
  rewrite compute_Fe_eq, Hn. cbn [bind]. f_equal.
  unfold compute_Fe_body. rewrite per_pulsar_eq, Hz.
  rewrite (mapM_app_error _ pre post _ done LinAlgError); auto.
  cbn [products_of]. apply (pulsar_products_not_pos_def n k); assumption.
Qed.

(** ** The cache does not show in the results *)

(** X11: on an instance without cache, a call made after another call
    returns (or raises) what it would have as the first call: the
    cached arrays are the ones [get_Nmats] would compute again. *)
Theorem compute_Fe_transparent_cache (self : FeStat Params)
    (f1 f2 : R) (g1 g2 : Mat) (b1 b2 : bool) :
  Nmats self = None ->
  fst (compute_Fe create_gw_antenna_pattern pinv
         (snd (compute_Fe create_gw_antenna_pattern pinv self f1 g1 b1)) f2 g2 b2)
  = fst (compute_Fe create_gw_antenna_pattern pinv self f2 g2 b2).
Proof.
  intros Hnone. destruct (get_Nmats self) as [v|e] eqn:Hg.
  - assert (He : ensure_Nmats self = (Ok v, set_Nmats self v))
      by (unfold ensure_Nmats; rewrite Hnone, Hg; reflexivity).
    rewrite (compute_Fe_eq _ _ self f1), (compute_Fe_eq _ _ self f2), He.
    cbn [fst snd bind].
    rewrite (compute_Fe_with_cache _ _ (set_Nmats self v) v) by reflexivity. cbn [fst].
    apply compute_Fe_body_frame; reflexivity.
  - assert (He : ensure_Nmats self = (Err e, self))
      by (unfold ensure_Nmats; rewrite Hnone, Hg; reflexivity).
    rewrite (compute_Fe_eq _ _ self f1), He. cbn [snd]. reflexivity.
Qed.

End PulsarLoop.

(** ** The sky grid *)

Lemma map2_app {A B C : Type} (f : A -> B -> C) (l1 l1' : list A) (l2 l2' : list B) :
  length l1 = length l2 ->
  map2 f (l1 ++ l1') (l2 ++ l2') = map2 f l1 l2 ++ map2 f l1' l2'.
Proof.
  revert l2. induction l1 as [|a l1 IH]; intros [|b l2] H; simpl in *;
    try discriminate; auto.
  rewrite IH by lia. reflexivity.
Qed.

Lemma map_const_zeros {A : Type} (l : list A) : map (fun _ => 0) l = zeros (length l).
Proof. induction l as [|a l IH]; simpl; auto. fold (zeros (length l)). rewrite IH. reflexivity. Qed.

Section SkyGrid.

Context {Params : Type}.
Variable create_gw_antenna_pattern : Vec -> R -> R -> R * R * R.
Variable pinv : Mat -> Mat.
Hypothesis pinv_shape : forall M, has_shape M 4 4 -> has_shape (pinv M) 4 4.

Lemma sky_point_no_pulsars (gw_pos : Vec) :
  sky_point create_gw_antenna_pattern pinv [] [] [] gw_pos = Ok 0.
Proof.
  unfold sky_point. cbn [antenna_loop bind fst snd sum_rows sum_blocks fold_right].
  assert (HM : has_shape (mkMat 4 zero_block) 4 4).
  { destruct zero_block_4x4 as [H1 H2]. repeat split; assumption. }
  destruct (pinv_shape _ HM) as (Hr & Hc & Hw).
  unfold np_dot_mv, np_dot_vv. rewrite Hc, length_zeros, Nat.eqb_refl. cbn [bind].
  rewrite length_mat_vec, Hr, Nat.eqb_refl. cbn [bind].
  rewrite dot_zeros_l. f_equal. lra.
Qed.

(** X12: with an empty list of pulsars the call returns a zero for
    every column of [gw_skyloc], whatever the number of its rows: no
    sky position is ever indexed. *)
Theorem compute_Fe_no_pulsars (self : FeStat Params) (f0 : R) (gw_skyloc : Mat)
    (brave : bool) (nmats : list Mat) :
  0 < f0 -> psrs self = [] -> wf_mat gw_skyloc ->
  fst (ensure_Nmats self) = Ok nmats ->
  fst (compute_Fe create_gw_antenna_pattern pinv self f0 gw_skyloc brave)
  = Ok (zeros (ncols gw_skyloc)).
Proof.
  intros _ Hps Hw Hn. rewrite compute_Fe_eq. cbn [fst]. rewrite Hn. cbn [bind].
  unfold compute_Fe_body, per_pulsar, zipped. rewrite Hps.
  cbn [combine length repeat pulsar_loop bind fst snd transpose rows].
  pose proof (sky_loop_app create_gw_antenna_pattern pinv [] [] [] (fun _ => 0)
                (cols (ncols gw_skyloc) (rows gw_skyloc))
                (fun p _ => sky_point_no_pulsars p) [] (zeros (ncols gw_skyloc))) as H.
  cbn [app length] in H. rewrite H.
  - rewrite map_const_zeros, length_cols by exact Hw. reflexivity.
  - rewrite length_zeros, length_cols by exact Hw. reflexivity.
Qed.

(** X13: with at least one pulsar and at least one column, a
    [gw_skyloc] of fewer than two rows makes the call raise
    [IndexError] once the loop over the pulsars is through. *)
Theorem compute_Fe_grid_rows (self : FeStat Params) (f0 : R) (gw_skyloc : Mat)
    (brave : bool) (nmats : list Mat) (N : list Vec) (M : list (list Vec)) :
  0 < f0 -> psrs self <> [] ->
  wf_mat gw_skyloc -> (nrows gw_skyloc < 2)%nat -> (0 < ncols gw_skyloc)%nat ->
  fst (ensure_Nmats self) = Ok nmats ->
  per_pulsar self nmats f0 brave = Ok (N, M) ->
  fst (compute_Fe create_gw_antenna_pattern pinv self f0 gw_skyloc brave) = Err IndexError.
Proof.
  intros _ Hps Hw Hr Hc Hn HNM. rewrite compute_Fe_eq. cbn [fst]. rewrite Hn. cbn [bind].
  unfold compute_Fe_body. rewrite HNM. cbn [bind fst snd transpose rows].
  pose proof (length_cols _ _ Hw) as Hlen.
  pose proof (Forall_length_cols (ncols gw_skyloc) (rows gw_skyloc)) as Hcols.
  destruct (cols (ncols gw_skyloc) (rows gw_skyloc)) as [|gw_pos positions];
    [simpl in Hlen; lia|].
  inversion Hcols as [|? ? Hp _]; subst. fold (nrows gw_skyloc) in Hp.
  cbn [sky_loop]. unfold sky_point.
  destruct (psrs self) as [|psr ps]; [contradiction|].
  cbn [antenna_loop]. unfold get_nth.
  destruct gw_pos as [|theta [|phi gw_pos]]; simpl in Hp; try lia; reflexivity.
Qed.

(** X14: the statistic of a grid made of two grids side by side is the
    statistic of the first followed by the statistic of the second: no
    value depends on another sky position. *)
Theorem compute_Fe_grid_append (self : FeStat Params) (f0 : R) (brave : bool)
    (t1 p1 t2 p2 : Vec) (m1 m2 : nat) (nmats : list Mat)
    (N : list Vec) (M : list (list Vec)) :
  0 < f0 ->
  length t1 = m1 -> length p1 = m1 -> length t2 = m2 -> length p2 = m2 ->
  fst (ensure_Nmats self) = Ok nmats ->
  per_pulsar self nmats f0 brave = Ok (N, M) ->
  fst (compute_Fe create_gw_antenna_pattern pinv self f0
         (mkMat (m1 + m2) [t1 ++ t2; p1 ++ p2]) brave)
  = (a <- fst (compute_Fe create_gw_antenna_pattern pinv self f0 (mkMat m1 [t1; p1]) brave) ;;
     b <- fst (compute_Fe create_gw_antenna_pattern pinv self f0 (mkMat m2 [t2; p2]) brave) ;;
     Ok (a ++ b)).
Proof.
  intros _ Ht1 Hp1 Ht2 Hp2 Hn HNM. rewrite !compute_Fe_eq. cbn [fst]. rewrite Hn.
  cbn [bind].
  rewrite (compute_Fe_body_eq _ _ pinv_shape self nmats f0 brave (t1 ++ t2) (p1 ++ p2)
             (m1 + m2) N M);
    try (rewrite length_app; lia); auto.
  rewrite (compute_Fe_body_eq _ _ pinv_shape self nmats f0 brave t1 p1 m1 N M); auto.
  rewrite (compute_Fe_body_eq _ _ pinv_shape self nmats f0 brave t2 p2 m2 N M); auto.
  cbn [bind]. rewrite map2_app by congruence. reflexivity.
Qed.

End SkyGrid.

(** ** [get_Nmats] *)

Lemma mapM_nth_error {A B : Type} (f : A -> result B) (l : list A) (r : list B)
    (i : nat) (b : B) :
  mapM f l = Ok r -> nth_error r i = Some b ->
  exists a, nth_error l i = Some a /\ f a = Ok b.
Proof.
  revert r i. induction l as [|a l IH]; intros r i H Hi; simpl in H.
  - injection H as <-. destruct i; discriminate.
  - destruct (f a) as [b0|e] eqn:E; try discriminate. cbn [bind] in H.
    destruct (mapM f l) as [bs|e]; try discriminate. cbn [bind] in H.
    injection H as <-. destruct i as [|i]; simpl in *.
    + injection Hi as <-. exists a. auto.
    + eapply IH; eauto.
Qed.

Lemma nth_error_combine {A B : Type} (l1 : list A) (l2 : list B) (i : nat) (a : A) (b : B) :
  nth_error (combine l1 l2) i = Some (a, b) ->
  nth_error l1 i = Some a /\ nth_error l2 i = Some b.
Proof.
  revert l2 i. induction l1 as [|x l1 IH]; intros [|y l2] [|i] H; simpl in *;
    try discriminate.
  - injection H as <- <-. auto.
  - apply IH. exact H.
Qed.

(** X15: [get_Nmats] returns one array for each index below the
    shortest of the four model lists, and the array at an index is what
    [make_Nmat] returns for the entries of the four lists at that
    index. *)
Theorem get_Nmats_entries {Params : Type} (self : FeStat Params) (v : list Mat) :
  get_Nmats self = Ok v ->
  length v
  = Nat.min (Nat.min (Nat.min (length (get_phiinv (pta self) (params self) partition))
                              (length (get_TNT (pta self) (params self))))
                     (length (get_ndiag (pta self) (params self))))
            (length (get_basis (pta self) (Some (params self))))
  /\ forall i Nmat, nth_error v i = Some Nmat ->
       exists phiinv TNT Nvec T,
         nth_error (get_phiinv (pta self) (params self) partition) i = Some phiinv
         /\ nth_error (get_TNT (pta self) (params self)) i = Some TNT
         /\ nth_error (get_ndiag (pta self) (params self)) i = Some Nvec
         /\ nth_error (get_basis (pta self) (Some (params self))) i = Some T
         /\ make_Nmat phiinv TNT Nvec T = Ok Nmat.
Proof.
  unfold get_Nmats. intros H. split.
  - rewrite (mapM_length _ _ _ H), !length_combine. reflexivity.
  - intros i Nmat Hi.
    destruct (mapM_nth_error _ _ _ _ _ H Hi) as ([[[phiinv TNT] Nvec] T] & Hq & Hm).
    apply nth_error_combine in Hq. destruct Hq as [Hq HT].
    apply nth_error_combine in Hq. destruct Hq as [Hq HNv].
    apply nth_error_combine in Hq. destruct Hq as [Hphi HTNT].
    exists phiinv, TNT, Nvec, T. auto.
Qed.

(** ** [make_Nmat] on shapes that do not fit *)

Lemma broadcast_dim_mismatch (a b : nat) :
  a <> b -> a <> 1%nat -> b <> 1%nat -> broadcast_dim a b = Err ValueError.
Proof.
  intros Hab Ha Hb. unfold broadcast_dim.
  destruct (Nat.eqb_spec a b); [contradiction|].
  destruct (Nat.eqb_spec a 1); [contradiction|].
  destruct (Nat.eqb_spec b 1); [contradiction|]. reflexivity.
Qed.

(** X16: when [TNT] is [k] by [k] and [phiinv] has another size [k'],
    neither of them one, [make_Nmat] raises [ValueError] from the sum
    that forms [Sigma], before anything is factored. *)
Theorem make_Nmat_size_mismatch (k k' : nat) (phiinv : Phiinv) (TNT T : Mat)
    (Nvec : NoiseDescriptor) :
  has_shape TNT k k -> phi_shape phiinv k' ->
  k <> k' -> k <> 1%nat -> k' <> 1%nat ->
  make_Nmat phiinv TNT Nvec T = Err ValueError.
Proof.
  intros (Hr & Hc & _) Hphi Hk H1 H1'.
  destruct (has_shape_phi_dense _ _ Hphi) as (Hr' & Hc' & _).
  unfold make_Nmat, np_add, broadcast2. rewrite Hr, Hr'.
  rewrite broadcast_dim_mismatch by assumption. reflexivity.
Qed.

(** ** The array of [make_Nmat] is symmetric *)

Lemma cols_0 (l : list Vec) : cols 0 l = [].
Proof.
  induction l as [|r l IH]; simpl; auto. rewrite IH. destruct r; reflexivity.
Qed.

(** Transposing twice gives the rows back. *)
Lemma cols_cols (n k : nat) (Y : list Vec) :
  length Y = n -> Forall (fun r => length r = k) Y -> cols n (cols k Y) = Y.
Proof.
  intros Hn HY. revert n Hn. induction HY as [|y Y Hy HY IH]; intros n Hn; simpl in *.
  - subst n. apply cols_0.
  - destruct n as [|n]; try discriminate.
    rewrite cols_map2_cons by (rewrite length_cols; assumption).
    rewrite IH by lia. reflexivity.
Qed.

Lemma map2_map2_cons (op : R -> R -> R) (a b : Vec) (CA CB : list Vec) :
  map2 (map2 op) (map2 cons a CA) (map2 cons b CB)
  = map2 cons (map2 op a b) (map2 (map2 op) CA CB).
Proof.
  revert b CA CB. induction a as [|a0 a IH]; intros [|b0 b] [|ca CA] [|cb CB];
    simpl; auto.
  rewrite IH. reflexivity.
Qed.

Lemma map2_repeat_nil (op : R -> R -> R) (n : nat) :
  map2 (map2 op) (repeat [] n) (repeat [] n) = repeat [] n.
Proof. induction n as [|n IH]; simpl; auto. rewrite IH. reflexivity. Qed.

Lemma cols_map2 (op : R -> R -> R) (n : nat) (A B : list Vec) :
  length A = length B ->
  cols n (map2 (map2 op) A B) = map2 (map2 op) (cols n A) (cols n B).
Proof.
  revert B. induction A as [|a A IH]; intros [|b B] H; simpl in *; try discriminate.
  - symmetry. apply map2_repeat_nil.
  - rewrite IH by lia. symmetry. apply map2_map2_cons.
Qed.

(** [a^T Sigma^{-1} b = b^T Sigma^{-1} a], with the solves of the
    factor in the place of the inverse. *)
Lemma dot_potrs_symmetric (k : nat) (Sigma : Mat) (chk : bool) (cf : factor) (a b : Vec) :
  has_shape Sigma k k -> symmetric Sigma -> cho_factor Sigma chk = Ok cf ->
  length a = k -> length b = k ->
  dot a (potrs cf b) = dot b (potrs cf a).
Proof.
  intros HS Hsym Hcf Ha Hb.
  pose proof (symmetric_sym_rows _ _ HS Hsym) as Hrows.
  destruct HS as (Hr & Hc & Hw).
  rewrite cho_factor_eq in Hcf by congruence. rewrite Hr in Hcf.
  pose proof (potrf_wf _ _ _ Hrows Hcf) as Hwf.
  assert (Hu : mat_vec Sigma (potrs cf b) = b)
    by (unfold mat_vec; eapply potrf_solve; eauto).
  assert (Hv : mat_vec Sigma (potrs cf a) = a)
    by (unfold mat_vec; eapply potrf_solve; eauto).
  rewrite <- Hv at 1. rewrite <- Hu at 2.
  apply dot_mat_vec_symmetric; auto.
  rewrite Hr. apply length_potrs; auto.
Qed.

(** X17: with consistent shapes, a symmetric [Ndiag] and a symmetric
    [Sigma], the array that [make_Nmat] returns is symmetric. *)
Theorem make_Nmat_symmetric (n k : nat) (phiinv : Phiinv) (TNT T : Mat)
    (Nvec : NoiseDescriptor) (Nmat : Mat) :
  has_shape TNT k k -> phi_shape phiinv k -> has_shape T n k ->
  has_shape (solve Nvec (eye n) T) k n ->
  has_shape (solve Nvec (eye n) (eye n)) n n ->
  symmetric (solve Nvec (eye n) (eye n)) ->
  symmetric (Sigma_of TNT phiinv) ->
  make_Nmat phiinv TNT Nvec T = Ok Nmat ->
  symmetric Nmat.
Proof.
  intros HTNT Hphi HT HTtN HNd HNdsym Hsym.
  destruct (np_add_Sigma k TNT phiinv HTNT Hphi) as [Hadd HS].
  pose proof HT as (HTr & _ & _).
  unfold make_Nmat. rewrite Hadd. cbn [bind]. rewrite HTr.
  set (TtN := solve Nvec (eye n) T) in *. set (Ndiag := solve Nvec (eye n) (eye n)) in *.
  destruct (cho_factor (Sigma_of TNT phiinv) true) as [cf|e] eqn:Hcf; try discriminate.
  cbn [bind].
  assert (Hwf : wf_factor k cf).
  { pose proof (symmetric_sym_rows _ _ HS Hsym) as Hrows.
    destruct HS as (Hr & Hc & Hw).
    rewrite cho_factor_eq in Hcf by congruence. rewrite Hr in Hcf.
    eapply potrf_wf; eauto. }
  destruct HTtN as (HTtNr & HTtNc & HTtNw).
  set (X := cols n (rows TtN)).
  assert (HXl : length X = n).
  { unfold X. apply length_cols. unfold wf_mat in HTtNw. rewrite HTtNc in HTtNw. exact HTtNw. }
  assert (HXw : Forall (fun c => length c = k) X).
  { unfold X. pose proof (Forall_length_cols n (rows TtN)) as HF.
    fold (nrows TtN) in HF. rewrite HTtNr in HF. exact HF. }
  set (Y := map (potrs cf) X).
  assert (HYl : length Y = n) by (unfold Y; rewrite length_map; exact HXl).
  assert (HYw : Forall (fun c => length c = k) Y).
  { unfold Y. apply Forall_map. eapply Forall_impl; [|exact HXw].
    intros c Hc. apply length_potrs; assumption. }
  unfold cho_solve_mat.
  rewrite all_finite_true, andb_false_r, (wf_factor_length _ _ Hwf), HTtNr, Nat.eqb_refl.
  cbn [negb bind]. rewrite HTtNc. fold X. fold Y.
  unfold np_dot_mm, transpose. cbn [ncols].
  change (nrows {| ncols := n; rows := cols k Y |}) with (length (cols k Y)).
  rewrite HTtNr, (length_cols k Y HYw), Nat.eqb_refl. cbn [bind].
  rewrite HTtNc. fold X.
  set (corr := mat_mat (mkMat k X) (mkMat n (cols k Y))).
  assert (Hcorr_rows : rows corr = map (fun r => map (fun c => dot r (potrs cf c)) X) X).
  { unfold corr, mat_mat, vec_mat. cbn [rows ncols].
    rewrite (cols_cols n k Y HYl HYw). unfold Y.
    apply map_ext. intros r. rewrite map_map. reflexivity. }
  assert (Hcorr_sym : cols n (rows corr) = rows corr).
  { rewrite Hcorr_rows. rewrite <- HXl at 1.
    rewrite (cols_table (fun r c => dot c (potrs cf r)) X X).
    apply map_ext_in. intros r Hr. apply map_ext_in. intros c Hc.
    rewrite Forall_forall in HXw.
    apply (dot_potrs_symmetric k (Sigma_of TNT phiinv) true); auto. }
  assert (Hcorr_len : length (rows corr) = n)
    by (rewrite Hcorr_rows, length_map; exact HXl).
  assert (Hcorr : has_shape corr n n).
  { unfold has_shape, nrows, wf_mat. repeat split; try assumption.
    cbn [corr mat_mat ncols]. rewrite Hcorr_rows. apply Forall_map.
    apply Forall_forall. intros r _. rewrite length_map. exact HXl. }
  rewrite (np_sub_same_shape Ndiag corr n n) by assumption.
  intros H. injection H as <-.
  destruct HNd as (HNdr & HNdc & HNdw).
  assert (HNd2 : cols n (rows Ndiag) = rows Ndiag).
  { rewrite <- HNdc. exact (f_equal rows HNdsym). }
  unfold symmetric, transpose, mat_sub, nrows in *. cbn [ncols rows].
  unfold vsub. rewrite cols_map2 by congruence.
  rewrite HNdc, HNd2, Hcorr_sym. f_equal.
  rewrite length_map2_same with (n := n); auto.
Qed.

(** ** The length of the output *)

Lemma set_nth_length {A : Type} (i : nat) (v : A) (l l' : list A) :
  set_nth i v l = Ok l' -> length l' = length l.
Proof.
  revert i l'. induction l as [|a l IH]; intros [|i] l' H; simpl in H; try discriminate.
  - injection H as <-. reflexivity.
  - destruct (set_nth i v l) as [r|e] eqn:E; try discriminate. cbn [rmap] in H.
    injection H as <-. simpl. rewrite (IH i r); auto.
Qed.

Section OutputLength.

Context {Params : Type}.
Variable create_gw_antenna_pattern : Vec -> R -> R -> R * R * R.
Variable pinv : Mat -> Mat.

Lemma sky_loop_length (ps : list Pulsar) (N : list Vec) (M : list (list Vec))
    (positions : list Vec) :
  forall (j : nat) (fstat out : Vec),
  sky_loop create_gw_antenna_pattern pinv ps N M j positions fstat = Ok out ->
  length out = length fstat.
Proof.
  induction positions as [|gw_pos positions IH]; intros j fstat out H; cbn [sky_loop] in H.
  - injection H as <-. reflexivity.
  - destruct (sky_point _ _ ps N M gw_pos) as [s|e]; try discriminate. cbn [bind] in H.
    destruct (set_nth j s fstat) as [fstat'|e] eqn:E; try discriminate. cbn [bind] in H.
    rewrite (IH _ _ _ H). eapply set_nth_length; eauto.
Qed.

(** X18: whatever the model, the collaborators and the shape of
    [gw_skyloc], a call that returns gives exactly
    [gw_skyloc.shape[1]] values. *)
Theorem compute_Fe_output_length (self : FeStat Params) (f0 : R) (gw_skyloc : Mat)
    (brave : bool) (fstat : Vec) :
  0 < f0 ->
  fst (compute_Fe create_gw_antenna_pattern pinv self f0 gw_skyloc brave) = Ok fstat ->
  length fstat = ncols gw_skyloc.
Proof.
  intros _. rewrite compute_Fe_eq. cbn [fst].
  destruct (fst (ensure_Nmats self)) as [nmats|e]; try discriminate. cbn [bind].
  unfold compute_Fe_body.
  destruct (per_pulsar self nmats f0 brave) as [NM|e]; try discriminate. cbn [bind].
  intros H. rewrite (sky_loop_length _ _ _ _ _ _ _ H). apply length_zeros.
Qed.

End OutputLength.

(** ** The further properties at the worked inputs *)

Lemma zero_self_residuals :
  Forall (fun psr => residuals psr = zeros (length (residuals psr))) (psrs zero_self).
Proof.
  repeat constructor. cbv [scale_psr residuals ex_psr scale map length zeros repeat].
  f_equal. ring.
Qed.

Lemma zero_self_compute_Fe :
  fst (compute_Fe ex_antenna ex_pinv zero_self 1 ex_sky false)
  = Ok (scale (0 ^ 2) [39 / 512]).
Proof.
  unfold zero_self. rewrite compute_Fe_scale, ex_compute_Fe. reflexivity.
Qed.

Lemma compute_Fe_zero_residuals_witness :
  Forall (fun s => s = 0) (scale (0 ^ 2) [39 / 512]).
Proof.
  apply (compute_Fe_zero_residuals ex_antenna ex_pinv zero_self 1 ex_sky false).
  - lra.
  - exact zero_self_residuals.
  - exact zero_self_compute_Fe.
Defined.

Lemma compute_Fe_negated_residuals_witness :
  fst (compute_Fe ex_antenna ex_pinv (scale_residuals (-1) ex_self) 1 ex_sky false)
  = fst (compute_Fe ex_antenna ex_pinv ex_self 1 ex_sky false).
Proof.
  apply (compute_Fe_negated_residuals ex_antenna ex_pinv ex_self 1 ex_sky false). lra.
Defined.

Lemma innerProduct_rr_additive_witness :
  innerProduct_rr ex2_x (vadd ex2_y ex2_x) ex2_Nmat ex2_Tmat ex2_Sigma None None false
  = (a <- innerProduct_rr ex2_x ex2_y ex2_Nmat ex2_Tmat ex2_Sigma None None false ;;
     b <- innerProduct_rr ex2_x ex2_x ex2_Nmat ex2_Tmat ex2_Sigma None None false ;;
     Ok (a + b)).
Proof.
  exact (innerProduct_rr_additive ex2_x ex2_y ex2_x ex2_Nmat ex2_Tmat ex2_Sigma false
           eq_refl).
Defined.

Lemma innerProduct_rr_shape_error_witness :
  innerProduct_rr [1] ex2_y ex2_Nmat ex2_Tmat ex2_indefinite None None true
  = Err ValueError.
Proof.
  apply (innerProduct_rr_shape_error [1] ex2_y ex2_Nmat ex2_Tmat ex2_indefinite true).
  - exact (proj2 (proj2 ex2_Nmat_shape)).
  - left. simpl. discriminate.
Defined.

Lemma innerProduct_rr_precomputed_single_witness :
  innerProduct_rr [1] [2] ex_Nmat ex2_Tmat ex_Sigma (Some [5]) (Some [7]) false
  = Ok (dot [1] (mat_vec ex_Nmat [2]) - dot [5] (mat_vec ex_Sinv [7])).
Proof.
  exact (innerProduct_rr_precomputed_single 1 [1] [2] ex_Nmat ex2_Tmat ex_Sigma ex_Sinv
           5 7 false eq_refl eq_refl ex_Nmat_shape ex_Sigma_shape ex_Sigma_symmetric
           ex_Sigma_pos_def ex_Sinv_inverse).
Defined.

Lemma pulsar_products_duplicates_witness :
  exists p q ss sc cs cc,
    [0; 39 / 64; 0; 0] = [p; q; p; p]
    /\ [ [0; 0; 0; 0]; [0; 39 / 64; 0; 39 / 64]; [0; 0; 0; 0]; [0; 39 / 64; 0; 39 / 64] ]
       = [ [ss; sc; ss; sc]; [cs; cc; cs; cc]; [ss; sc; ss; sc]; [cs; cc; cs; cc] ].
Proof.
  exact (pulsar_products_duplicates 1 false ex_psr ex_Nmat ex_one ex_phiinv ex_one _ _
           (ex_pulsar_products false)).
Defined.




Lemma two_per_pulsar :
  per_pulsar two_self [ex_Nmat] 1 false = Ok (ex_N ++ [zeros 4], ex_M ++ [zero_block]).
Proof.
  unfold per_pulsar, zipped, two_self.
  cbn [init pta psrs params ex_model_cw ex_pta get_phiinv get_TNT get_basis
       combine length repeat pulsar_loop].
  rewrite ex_pulsar_products. reflexivity.
Qed.

Lemma per_pulsar_unreached_witness :
  nth 1 (ex_N ++ [zeros 4]) [] = zeros 4 /\ nth 1 (ex_M ++ [zero_block]) [] = zero_block.
Proof.
  apply (per_pulsar_unreached two_self [ex_Nmat] 1 false _ _ 1 two_per_pulsar).
  simpl. lia.
Defined.

Lemma npd_ensure_Nmats :
  ensure_Nmats npd_self = (Ok [ex_Nmat], set_Nmats npd_self [ex_Nmat]).
Proof.
  unfold ensure_Nmats, npd_self. cbn [Nmats].
  assert (Hg : get_Nmats (mkFeStat npd_pta [ex_psr] tt None) = Ok [ex_Nmat]).
  { unfold get_Nmats. cbn [pta params npd_pta get_phiinv get_TNT get_ndiag get_basis
      combine mapM]. rewrite ex_make_Nmat. reflexivity. }
  rewrite Hg. reflexivity.
Qed.

Lemma compute_Fe_not_pos_def_witness :
  compute_Fe ex_antenna ex_pinv npd_self 1 ex_sky true
  = (Err LinAlgError, snd (ensure_Nmats npd_self)).
Proof.
  apply (compute_Fe_not_pos_def ex_antenna ex_pinv npd_self 1 ex_sky true [ex_Nmat]
           [] [] [] ex_psr ex_Nmat ex_one npd_phiinv ex_one 1 1).
  - lra.
  - rewrite npd_ensure_Nmats. reflexivity.
  - reflexivity.
  - reflexivity.
  - reflexivity.
  - reflexivity.
  - exact ex_Nmat_shape.
  - exact ex_one_shape.
  - exact ex_one_shape.
  - reflexivity.
  - exact npd_Sigma_symmetric.
  - exact npd_Sigma_not_pos_def.
Defined.

Lemma compute_Fe_transparent_cache_witness :
  fst (compute_Fe ex_antenna ex_pinv
         (snd (compute_Fe ex_antenna ex_pinv ex_self 2 ex_sky true)) 1 ex_sky false)
  = fst (compute_Fe ex_antenna ex_pinv ex_self 1 ex_sky false).
Proof.
  exact (compute_Fe_transparent_cache ex_antenna ex_pinv ex_self 2 1 ex_sky ex_sky
           true false eq_refl).
Defined.

Lemma compute_Fe_no_pulsars_witness :
  fst (compute_Fe ex_antenna ex_pinv empty_self 1 (mkMat 2 [[0; 1]]) false)
  = Ok (zeros 2).
Proof.
  apply (compute_Fe_no_pulsars ex_antenna ex_pinv ex_pinv_shape empty_self 1
           (mkMat 2 [[0; 1]]) false [ex_Nmat]).
  - lra.
  - reflexivity.
  - repeat constructor.
  - unfold empty_self. rewrite ex_ensure_Nmats. reflexivity.
Defined.

Lemma compute_Fe_grid_rows_witness :
  fst (compute_Fe ex_antenna ex_pinv ex_self 1 (mkMat 2 [[0; 1]]) false) = Err IndexError.
Proof.
  apply (compute_Fe_grid_rows ex_antenna ex_pinv ex_self 1 (mkMat 2 [[0; 1]]) false
           [ex_Nmat] ex_N ex_M).
  - lra.
  - discriminate.
  - repeat constructor.
  - unfold nrows. simpl. lia.
  - simpl. lia.
  - unfold ex_self. rewrite ex_ensure_Nmats. reflexivity.
  - exact (ex_per_pulsar false None).
Defined.

Lemma compute_Fe_grid_append_witness :
  fst (compute_Fe ex_antenna ex_pinv ex_self 1 (mkMat (1 + 1) [[0] ++ [1]; [0] ++ [2]]) false)
  = (a <- fst (compute_Fe ex_antenna ex_pinv ex_self 1 (mkMat 1 [[0]; [0]]) false) ;;
     b <- fst (compute_Fe ex_antenna ex_pinv ex_self 1 (mkMat 1 [[1]; [2]]) false) ;;
     Ok (a ++ b)).
Proof.
  apply (compute_Fe_grid_append ex_antenna ex_pinv ex_pinv_shape ex_self 1 false
           [0] [0] [1] [2] 1 1 [ex_Nmat] ex_N ex_M); try reflexivity.
  - lra.
  - unfold ex_self. rewrite ex_ensure_Nmats. reflexivity.
  - exact (ex_per_pulsar false None).
Defined.

Lemma get_Nmats_entries_witness :
  length [ex_Nmat]
  = Nat.min (Nat.min (Nat.min (length (get_phiinv (pta ex_self) (params ex_self) partition))
                              (length (get_TNT (pta ex_self) (params ex_self))))
                     (length (get_ndiag (pta ex_self) (params ex_self))))
            (length (get_basis (pta ex_self) (Some (params ex_self))))
  /\ forall i Nmat, nth_error [ex_Nmat] i = Some Nmat ->
       exists phiinv TNT Nvec T,
         nth_error (get_phiinv (pta ex_self) (params ex_self) partition) i = Some phiinv
         /\ nth_error (get_TNT (pta ex_self) (params ex_self)) i = Some TNT
         /\ nth_error (get_ndiag (pta ex_self) (params ex_self)) i = Some Nvec
         /\ nth_error (get_basis (pta ex_self) (Some (params ex_self))) i = Some T
         /\ make_Nmat phiinv TNT Nvec T = Ok Nmat.
Proof.
  exact (get_Nmats_entries ex_self [ex_Nmat] (ex_get_Nmats [ex_psr] None)).
Defined.

Lemma make_Nmat_size_mismatch_witness :
  make_Nmat (Phi1 [1; 2; 3]) ex2_Sigma white_noise ex2_Tmat = Err ValueError.
Proof.
  apply (make_Nmat_size_mismatch 2 3 (Phi1 [1; 2; 3]) ex2_Sigma ex2_Tmat white_noise).
  - exact ex2_Sigma_shape.
  - reflexivity.
  - lia.
  - lia.
  - lia.
Defined.

(** *** Two TOAs *)

Lemma toa2_T_shape : has_shape toa2_T 2 1.
Proof. shape_tac. Qed.

Lemma toa2_TNT_shape : has_shape toa2_TNT 1 1.
Proof. shape_tac. Qed.

Lemma toa2_TtN_shape : has_shape toa2_TtN 1 2.
Proof. shape_tac. Qed.

Lemma toa2_eye_shape : has_shape (eye 2) 2 2.
Proof. shape_tac. Qed.

Lemma toa2_Sigma_shape : has_shape toa2_Sigma 1 1.
Proof. shape_tac. Qed.

Lemma toa2_Sigma_of : Sigma_of toa2_TNT ex_phiinv = toa2_Sigma.
Proof. unfold toa2_TNT, toa2_Sigma. mat_eval. Qed.

Lemma toa2_Sigma_symmetric : symmetric toa2_Sigma.
Proof. reflexivity. Qed.

Lemma toa2_Sigma_pos_def : pos_def toa2_Sigma.
Proof.
  intros x Hx Hnz. destruct x as [|a [|b x]]; try discriminate.
  assert (Ha : a <> 0) by (intros ->; apply Hnz; reflexivity).
  unfold quad_form, mat_vec. simpl.
  pose proof (Rsqr_pos_lt a Ha) as H. unfold Rsqr in H. lra.
Qed.

Lemma toa2_Sinv_inverse : is_inverse 1 toa2_Sigma toa2_Sinv.
Proof.
  split; [shape_tac|]. unfold mat_mat, vec_mat, eye. simpl.
  real_eq.
Qed.

Lemma toa2_white_noise_TtN : solve white_noise (eye 2) toa2_T = toa2_TtN.
Proof. unfold toa2_T, toa2_TtN. mat_eval. Qed.

Lemma toa2_white_noise_Ndiag : solve white_noise (eye 2) (eye 2) = eye 2.
Proof. mat_eval. Qed.

Lemma toa2_marginalized : marginalized_noise (eye 2) toa2_TtN toa2_Sinv = toa2_Nmat.
Proof. unfold toa2_TtN, toa2_Sinv, toa2_Nmat. mat_eval. Qed.

(** [make_Nmat] on two TOAs: [I - TtN^T Sigma^{-1} TtN] with
    [TtN = [[1, 2]]] and [Sigma = [[8]]]. *)
Lemma toa2_make_Nmat : make_Nmat ex_phiinv toa2_TNT white_noise toa2_T = Ok toa2_Nmat.
Proof.
  destruct (make_Nmat_cases 2 1 ex_phiinv toa2_TNT toa2_T toa2_Sinv white_noise) as [H _];
    try (rewrite ?toa2_white_noise_TtN, ?toa2_white_noise_Ndiag, ?toa2_Sigma_of);
    try apply toa2_TNT_shape; try apply toa2_T_shape; try apply toa2_TtN_shape;
    try apply toa2_eye_shape; try reflexivity.
  rewrite toa2_Sigma_of in H.
  destruct (H toa2_Sigma_pos_def toa2_Sinv_inverse) as [Hv _].
  rewrite Hv, toa2_white_noise_TtN, toa2_white_noise_Ndiag, toa2_marginalized. reflexivity.
Qed.

Lemma toa2_TtN_solve_shape : has_shape (solve white_noise (eye 2) toa2_T) 1 2.
Proof. rewrite toa2_white_noise_TtN. exact toa2_TtN_shape. Qed.

Lemma toa2_Ndiag_shape : has_shape (solve white_noise (eye 2) (eye 2)) 2 2.
Proof. rewrite toa2_white_noise_Ndiag. exact toa2_eye_shape. Qed.

Lemma toa2_Ndiag_symmetric : symmetric (solve white_noise (eye 2) (eye 2)).
Proof. rewrite toa2_white_noise_Ndiag. reflexivity. Qed.

Lemma toa2_Sigma_of_symmetric : symmetric (Sigma_of toa2_TNT ex_phiinv).
Proof. rewrite toa2_Sigma_of. exact toa2_Sigma_symmetric. Qed.

(** The statement at two TOAs: the array that [make_Nmat] returns has
    the entry [-1/4] on both sides of the diagonal. *)
Lemma make_Nmat_symmetric_witness :
  make_Nmat ex_phiinv toa2_TNT white_noise toa2_T = Ok toa2_Nmat
  /\ symmetric toa2_Nmat
  /\ nth 1 (nth 0 (rows toa2_Nmat) []) 0 = - (1 / 4)
  /\ nth 0 (nth 1 (rows toa2_Nmat) []) 0 = - (1 / 4).
Proof.
  split; [exact toa2_make_Nmat|]. split; [|split; reflexivity].
  exact (make_Nmat_symmetric 2 1 ex_phiinv toa2_TNT toa2_T white_noise toa2_Nmat
           toa2_TNT_shape eq_refl toa2_T_shape toa2_TtN_solve_shape toa2_Ndiag_shape
           toa2_Ndiag_symmetric toa2_Sigma_of_symmetric toa2_make_Nmat).
Defined.

Lemma compute_Fe_output_length_witness : length [39 / 512] = ncols ex_sky.
Proof.
  apply (compute_Fe_output_length ex_antenna ex_pinv ex_self 1 ex_sky false).
  - lra.
  - rewrite ex_compute_Fe. reflexivity.
Defined.
